(** * GeoLib::PointVec: a deduplicating, name-addressable point registry

    Shallow embedding of [PointVec.cpp] (OpenGeoSys, GeoLib) and the
    properties of its bulk deduplication, name reconciliation and
    incremental insertion.

    Conventions of the embedding:
    - [std::size_t] values are [N]; the only operation that can wrap,
      unsigned subtraction, is [size_sub].
    - [std::vector<T>] is [list T]; [operator[]] is bounds-checked here
      ([vget], [vset]) and an access out of range, undefined behaviour in
      C++, is the error [OutOfBounds].
    - [double] coordinates and tolerances are exact rationals [Q]
      (rounding is not modelled).
    - [Point*] is the point's value; [nullptr] appears only between the
      "delete" loop and [std::remove] and is [None] there.
    - [std::map<std::string, std::size_t>] is an association list kept
      in key order, the order in which the C++ iterators visit it.
    - [WARN(...)] appends to a list of warnings carried by the registry. *)

From Stdlib Require Import QArith Qminmax Qabs Lqa NArith Lia.
From Stdlib Require Import Permutation Sorted String Ascii.
From stdpp Require Import base tactics option numbers list sorting.

Local Open Scope N_scope.

(** ** Errors and the error monad *)

(** An [operator[]] outside [0, size) is undefined behaviour in the
    source; here the run stops at the access with [OutOfBounds], and
    nothing is said about what the program does afterwards. *)
Inductive error : Set :=
| OutOfBounds   (* operator[] outside [0, size) *)
| EmptyRange.   (* bounding box of an empty iterator range *)

Inductive result (A : Type) : Type :=
| Ok (a : A)
| Err (e : error).
Arguments Ok {A} a.
Arguments Err {A} e.

Definition result_bind {A B} (f : A -> result B) (m : result A) : result B :=
  match m with
  | Ok a => f a
  | Err e => Err e
  end.

#[global] Instance result_mbind : MBind result := @result_bind.
#[global] Instance result_mret : MRet result := @Ok.

Lemma bind_Ok {A B} (f : A -> result B) (a : A) : (Ok a ≫= f) = f a.
Proof. reflexivity. Qed.

Lemma bind_Err {A B} (f : A -> result B) (e : error) : (Err e ≫= f) = Err e.
Proof. reflexivity. Qed.

(** ** [std::size_t] and [std::vector] *)

(** Unsigned 64-bit subtraction: [a - b] wraps around when [a < b]. *)
Definition size_sub (a b : N) : N :=
  if b <=? a then a - b else 2 ^ 64 - (b - a).

Definition vsize (A : Type) (v : list A) : N := N.of_nat (length v).
Arguments vsize {A} v.

(** [v[k]] as an rvalue. *)
Definition vget {A} (v : list A) (k : N) : result A :=
  match v !! N.to_nat k with
  | Some a => Ok a
  | None => Err OutOfBounds
  end.

(** [v[k] = a]. *)
Definition vset {A} (v : list A) (k : N) (a : A) : result (list A) :=
  if k <? vsize v then Ok (<[N.to_nat k := a]> v) else Err OutOfBounds.

(** [std::iota(v.begin(), v.end(), 0)] on a vector of [n] slots. *)
Definition iota (n : nat) : list N := map N.of_nat (seq 0 n).

(** ** Counted loops

    [for (k = lo; k < hi; k++) body] with a bound that the body does not
    change: the body runs [hi - lo] times (no time when [hi <= lo]) and
    the first error ends the loop. The recursion is on the binary
    representation of the count, so a wrapped bound of [2^64 - 1] is as
    cheap to write down as a bound of [3]. *)

Fixpoint iter_pos {St} (p : positive) (f : St -> result St) (s : St)
  : result St :=
  match p with
  | xH => f s
  | xO p' =>
      match iter_pos p' f s with
      | Ok s' => iter_pos p' f s'
      | Err e => Err e
      end
  | xI p' =>
      match f s with
      | Ok s1 =>
          match iter_pos p' f s1 with
          | Ok s2 => iter_pos p' f s2
          | Err e => Err e
          end
      | Err e => Err e
      end
  end.

Definition iter_N {St} (n : N) (f : St -> result St) (s : St) : result St :=
  match n with
  | N0 => Ok s
  | Npos p => iter_pos p f s
  end.

Definition for_loop {St} (lo hi : N) (body : N -> St -> result St) (s : St)
  : result St :=
  match iter_N (hi - lo)
          (fun ks => match body (fst ks) (snd ks) with
                     | Ok s' => Ok (fst ks + 1, s')
                     | Err e => Err e
                     end) (lo, s) with
  | Ok ks => Ok (snd ks)
  | Err e => Err e
  end.

(** Iteration over the entries of a container in iterator order. *)
Fixpoint foldM {A St} (f : St -> A -> result St) (s : St) (l : list A)
  : result St :=
  match l with
  | [] => Ok s
  | a :: l' =>
      match f s a with
      | Ok s' => foldM f s' l'
      | Err e => Err e
      end
  end.

(** ** Points, distances (MathLib) and the bounding box

    Coordinates and tolerances are rationals and the arithmetic is
    exact: the rounding of [double] is not modelled. *)

Record Point : Set := mkPoint { px : Q; py : Q; pz : Q }.

(** Modelled from the spec: [MathLib::maxNormDist] (MathTools.h is not
    part of the sources), "the greatest absolute coordinate-wise
    difference between two points (L-infinity distance)". *)
Definition maxNormDist (p0 p1 : Point) : Q :=
  Qmax (Qabs (px p1 - px p0))
       (Qmax (Qabs (py p1 - py p0)) (Qabs (pz p1 - pz p0))).

(** Modelled from the spec: [MathLib::sqrDist], the squared Euclidean
    distance ("squaredDiagonal" of the bounding box). *)
Definition sqrDist (p0 p1 : Point) : Q :=
  (px p1 - px p0) * (px p1 - px p0)
  + (py p1 - py p0) * (py p1 - py p0)
  + (pz p1 - pz p0) * (pz p1 - pz p0).

(** Modelled from the spec: the order on points used by the sort,
    "lexicographic by x, then y, then z" ([operator<=] of [Point] is not
    part of the sources). *)
Definition point_le (p q : Point) : bool :=
  match px p ?= px q with
  | Lt => true
  | Gt => false
  | Eq =>
      match py p ?= py q with
      | Lt => true
      | Gt => false
      | Eq =>
          match pz p ?= pz q with
          | Gt => false
          | _ => true
          end
      end
  end%Q.

(** The test of lines 93, 130 and 157: [maxNormDist(p, q) <= eps]. *)
Definition within (eps : Q) (p q : Point) : bool :=
  Qle_bool (maxNormDist p q) eps.

(** Modelled from the spec: [GeoLib::AABB], "tracks min/max corner as
    points are added" (AABB.h is not part of the sources). *)
Record AABB : Set := mkAABB { getMinPoint : Point; getMaxPoint : Point }.

Definition AABB_update (b : AABB) (p : Point) : AABB :=
  {| getMinPoint :=
       mkPoint (Qmin (px (getMinPoint b)) (px p))
               (Qmin (py (getMinPoint b)) (py p))
               (Qmin (pz (getMinPoint b)) (pz p));
     getMaxPoint :=
       mkPoint (Qmax (px (getMaxPoint b)) (px p))
               (Qmax (py (getMaxPoint b)) (py p))
               (Qmax (pz (getMaxPoint b)) (pz p)) |}.

(** Modelled from the spec: the box of an iterator range, the first point
    extended by the others. The box of an empty range has no corner to
    report and is an error here. *)
Definition AABB_range (pts : list Point) : result AABB :=
  match pts with
  | [] => Err EmptyRange
  | p :: rest => Ok (fold_left AABB_update rest (mkAABB p p))
  end.

(** ** The sort utility (BaseLib)

    quicksort.h is not part of the sources. [BaseLib::Quicksort(array,
    beg, end, perm)] sorts [array] and applies the same exchanges to
    [perm]; it is taken as a parameter with the two properties every
    comparison sort has: the result is a rearrangement of the input pairs
    and its keys are in order. Nothing is assumed about the order of
    entries with equal keys (the sort "is not stable"). *)
Record Sorter : Type := mkSorter {
  sort_pairs : forall K V : Type, (K -> K -> bool) -> list (K * V) -> list (K * V);
  sort_pairs_perm : forall K V (le : K -> K -> bool) (l : list (K * V)),
      Permutation (sort_pairs K V le l) l;
  sort_pairs_sorted : forall K V (le : K -> K -> bool) (l : list (K * V)),
      (forall a b, le a b = true \/ le b a = true) ->
      (forall a b c, le a b = true -> le b c = true -> le a c = true) ->
      StronglySorted (fun x y => le (fst x) (fst y) = true) (sort_pairs K V le l)
}.

(** Modelled from the spec: [Quicksort<K, V>(array, 0, array.size(), perm)]. *)
Definition Quicksort (srt : Sorter) {K V} (le : K -> K -> bool)
    (array : list K) (perm : list V) : list K * list V :=
  let zs := sort_pairs srt K V le (combine array perm) in
  (map fst zs, map snd zs).

(** ** Bulk deduplication: [PointVec::makePntsUnique] (lines 111-184)

    The vector of points and the id map are passed by reference in the
    source; here both are returned. *)

(** Lines 128-141: one step of the scan for intervals of identical
    points; the state is [identical_pnts_interval] and [identical]. *)
Definition scan_step (pnt_vec : list Point) (eps : Q) (k : N)
    (st : list N * bool) : result (list N * bool) :=
  let '(identical_pnts_interval, identical) := st in
  p1 ← vget pnt_vec (k + 1);
  p0 ← vget pnt_vec k;
  if within eps p1 p0
  then Ok (if identical then identical_pnts_interval
           else identical_pnts_interval ++ [k], true)
  else Ok (if identical then identical_pnts_interval ++ [k + 1]
           else identical_pnts_interval, false).

(** Lines 151-152: compare and exchange [perm[k]] and [perm[k + 1]]. *)
Definition swap_step (k : N) (perm : list N) : result (list N) :=
  a ← vget perm k;
  b ← vget perm (k + 1);
  if b <? a
  then perm' ← vset perm k b; vset perm' (k + 1) a
  else Ok perm.

(** Lines 147-152: bubble sort of [perm] on the [i]-th interval. *)
Definition bubble_interval (identical_pnts_interval : list N) (i : N)
    (perm : list N) : result (list N) :=
  beg ← vget identical_pnts_interval (2 * i);
  end_ ← vget identical_pnts_interval (2 * i + 1);
  for_loop beg end_
    (fun _ perm => for_loop beg (size_sub end_ 1) swap_step perm) perm.

(** Lines 157-158: merge the id of sorted position [k + 1] into that of
    position [k] when the two points are within [eps]. *)
Definition merge_step (pnt_vec : list Point) (perm : list N) (eps : Q)
    (k : N) (pnt_id_map : list N) : result (list N) :=
  p1 ← vget pnt_vec (k + 1);
  p0 ← vget pnt_vec k;
  if within eps p1 p0
  then
    i1 ← vget perm (k + 1);
    i0 ← vget perm k;
    v ← vget pnt_id_map i0;
    vset pnt_id_map i1 v
  else Ok pnt_id_map.

(** Lines 165-168: delete the point at [k] and leave [nullptr]. *)
Definition delete_step (pnt_id_map : list N) (k : N)
    (pnt_vec : list (option Point)) : result (list (option Point)) :=
  v ← vget pnt_id_map k;
  if v <? k
  then _ ← vget pnt_vec k; vset pnt_vec k None
  else Ok pnt_vec.

(** Lines 171-172: [std::remove(..., nullptr)] followed by [erase]. *)
Definition remove_nullptr (pnt_vec : list (option Point)) : list Point :=
  omap id pnt_vec.

(** Lines 177-182: renumbering; the state is [pnt_id_map] and [id]. *)
Definition renumber_step (k : N) (st : list N * N) : result (list N * N) :=
  let '(pnt_id_map, id) := st in
  v ← vget pnt_id_map k;
  if v =? k
  then pnt_id_map' ← vset pnt_id_map k id; Ok (pnt_id_map', id + 1)
  else w ← vget pnt_id_map v;
       pnt_id_map' ← vset pnt_id_map k w; Ok (pnt_id_map', id).

Definition makePntsUnique (srt : Sorter) (pnt_vec : list Point) (eps : Q)
  : result (list Point * list N) :=
  let n_pnts_in_file := vsize pnt_vec in
  let perm := iota (length pnt_vec) in
  let pnt_id_map := iota (length pnt_vec) in
  (* sort the points *)
  let '(pnt_vec, perm) := Quicksort srt point_le pnt_vec perm in
  (* determine intervals with identical points *)
  '(identical_pnts_interval, identical) ←
    for_loop 0 (size_sub n_pnts_in_file 1) (scan_step pnt_vec eps)
      ([], false);
  let identical_pnts_interval :=
    if identical : bool then identical_pnts_interval ++ [n_pnts_in_file]
    else identical_pnts_interval in
  (* bubble sort by id *)
  perm ← for_loop 0 (vsize identical_pnts_interval / 2)
           (bubble_interval identical_pnts_interval) perm;
  (* check if there are identical points *)
  pnt_id_map ← for_loop 0 (size_sub n_pnts_in_file 1)
                 (merge_step pnt_vec perm eps) pnt_id_map;
  (* reverse permutation *)
  let '(perm, pnt_vec) := Quicksort srt N.leb perm pnt_vec in
  (* remove the second, third, ... occurrence from vector *)
  pnt_vec ← for_loop 0 n_pnts_in_file (delete_step pnt_id_map)
              (map Some pnt_vec);
  let pnt_vec := remove_nullptr pnt_vec in
  (* renumber id-mapping *)
  '(pnt_id_map, _) ← for_loop 0 n_pnts_in_file renumber_step
                       (pnt_id_map, 0);
  Ok (pnt_vec, pnt_id_map).

(** ** A concrete sorter

    Insertion of each pair, from left to right, in front of the first
    entry whose key is not smaller: entries with equal keys come out in
    reverse order of arrival, so this sorter is not stable. It is used to
    run the model on concrete inputs. *)

Fixpoint insert_pair {K V} (le : K -> K -> bool) (x : K * V)
    (l : list (K * V)) : list (K * V) :=
  match l with
  | [] => [x]
  | y :: r => if le (fst x) (fst y) then x :: l else y :: insert_pair le x r
  end.

Definition insertion_sort (K V : Type) (le : K -> K -> bool)
    (l : list (K * V)) : list (K * V) :=
  fold_left (fun acc x => insert_pair le x acc) l [].

(** ** The registry: [PointVec] with the members of [TemplateVec<Point>] *)

(** The messages of [WARN]. *)
Inductive warning : Set :=
| WarnDoublePoints (count : N)   (* "there are %d double points." *)
| WarnSharedName (name : string). (* "two points share the name %s." *)

(** [std::map<std::string, std::size_t>], entries in key order. *)
Definition name_id_map_t : Type := list (string * N).

(** [_name_id_map->find(name)]; [None] stands for [end()]. *)
Fixpoint map_find (name : string) (m : name_id_map_t) : option N :=
  match m with
  | [] => None
  | (k, v) :: r => if String.eqb name k then Some v else map_find name r
  end.

(** [_name_id_map->operator[](name) = id]. *)
Fixpoint map_assign (name : string) (id : N) (m : name_id_map_t)
  : name_id_map_t :=
  match m with
  | [] => [(name, id)]
  | (k, v) :: r =>
      match String.compare name k with
      | Eq => (name, id) :: r
      | Lt => (name, id) :: m
      | Gt => (k, v) :: map_assign name id r
      end
  end.

Record PointVec : Type := mkPointVec {
  data_vec : list Point;            (* _data_vec: the canonical points *)
  name_id_map : name_id_map_t;      (* _name_id_map *)
  id_to_name_map : list string;     (* _id_to_name_map *)
  pnt_id_map : list N;              (* _pnt_id_map: the id remap *)
  aabb : AABB;                      (* _aabb *)
  rel_eps : Q;                      (* _rel_eps: the absolute tolerance *)
  warnings : list warning           (* what WARN has printed, in order *)
}.

(** *** [PointVec::correctNameIDMapping] (lines 186-218) *)

(** Lines 190-192: [id_names[it->second] = it->first]. *)
Definition record_name (id_names : list string) (entry : string * N)
  : result (list string) :=
  vset id_names (snd entry) (fst entry).

(** Lines 194-217: the visit of one entry; the state is the part of the
    map already visited, in reverse order. An erased entry is not kept. *)
Definition correct_entry (pnt_id_map : list N) (id_names : list string)
    (visited : name_id_map_t) (entry : string * N) : result name_id_map_t :=
  let id := snd entry in
  v ← vget pnt_id_map id;
  if v =? id then Ok (entry :: visited)
  else
    w ← vget pnt_id_map v;
    if w =? v then
      nm ← vget id_names v;
      if negb (String.length nm =? 0)%nat
      then Ok visited                       (* erase the second occurrence *)
      else Ok ((fst entry, v) :: visited)
    else Ok ((fst entry, v) :: visited).

Definition correctNameIDMapping (pnt_id_map : list N) (m : name_id_map_t)
  : result name_id_map_t :=
  id_names ← foldM record_name (replicate (length pnt_id_map) EmptyString) m;
  visited ← foldM (correct_entry pnt_id_map id_names) [] m;
  Ok (rev visited).

(** *** The constructor (lines 31-55)

    [sqrt] of <cmath> is a parameter. *)
Definition PointVec_new (srt : Sorter) (sqrt : Q -> Q)
    (points : list Point) (name_id_map : name_id_map_t) (rel_eps : Q)
  : result PointVec :=
  aabb ← AABB_range points;
  let number_of_all_input_pnts := vsize points in
  let rel_eps :=
    (rel_eps * sqrt (sqrDist (getMinPoint aabb) (getMaxPoint aabb)))%Q in
  '(data_vec, pnt_id_map) ← makePntsUnique srt points rel_eps;
  let warnings :=
    if vsize data_vec <? number_of_all_input_pnts
    then [WarnDoublePoints (size_sub number_of_all_input_pnts (vsize data_vec))]
    else [] in
  name_id_map ← correctNameIDMapping pnt_id_map name_id_map;
  (* create the inverse mapping *)
  id_to_name_map ←
    foldM record_name (replicate (length data_vec) EmptyString) name_id_map;
  Ok {| data_vec := data_vec; name_id_map := name_id_map;
        id_to_name_map := id_to_name_map; pnt_id_map := pnt_id_map;
        aabb := aabb; rel_eps := rel_eps; warnings := warnings |}.

(** *** Incremental insertion (lines 60-109) *)

(** [std::find_if] of line 90, as the position of the first match. *)
Fixpoint find_if_within (eps : Q) (pnt : Point) (v : list Point)
  : option N :=
  match v with
  | [] => None
  | p :: r =>
      if within eps p pnt then Some 0
      else option_map N.succ (find_if_within eps pnt r)
  end.

Definition uniqueInsert (pv : PointVec) (pnt : Point) : N * PointVec :=
  match find_if_within (rel_eps pv) pnt (data_vec pv) with
  | Some i => (i, pv)
  | None =>
      let data_vec' := data_vec pv ++ [pnt] in
      (size_sub (vsize data_vec') 1,
       {| data_vec := data_vec'; name_id_map := name_id_map pv;
          id_to_name_map := id_to_name_map pv; pnt_id_map := pnt_id_map pv;
          aabb := AABB_update (aabb pv) pnt; rel_eps := rel_eps pv;
          warnings := warnings pv |})
  end.

(** Lines 62-63 (and 70-71): the two [push_back] calls on the vectors. *)
Definition record_insert (pv : PointVec) (id : N) (name : string)
  : PointVec :=
  {| data_vec := data_vec pv; name_id_map := name_id_map pv;
     id_to_name_map := id_to_name_map pv ++ [name];
     pnt_id_map := pnt_id_map pv ++ [id];
     aabb := aabb pv; rel_eps := rel_eps pv; warnings := warnings pv |}.

(** [std::size_t PointVec::push_back(Point* pnt)] *)
Definition push_back (pv : PointVec) (pnt : Point) : result (N * PointVec) :=
  let '(id, pv) := uniqueInsert pv pnt in
  let pv := record_insert pv id EmptyString in
  r ← vget (pnt_id_map pv) (size_sub (vsize (pnt_id_map pv)) 1);
  Ok (r, pv).

(** [void PointVec::push_back(Point* pnt, std::string const* const name)];
    [None] is [nullptr]. *)
Definition push_back_name (pv : PointVec) (pnt : Point)
    (name : option string) : PointVec :=
  match name with
  | None =>
      let '(id, pv) := uniqueInsert pv pnt in
      record_insert pv id EmptyString
  | Some name =>
      match map_find name (name_id_map pv) with
      | Some _ =>
          {| data_vec := data_vec pv; name_id_map := name_id_map pv;
             id_to_name_map := id_to_name_map pv ++ [EmptyString];
             pnt_id_map := pnt_id_map pv;
             aabb := aabb pv; rel_eps := rel_eps pv;
             warnings := warnings pv ++ [WarnSharedName name] |}
      | None =>
          let '(id, pv) := uniqueInsert pv pnt in
          {| data_vec := data_vec pv;
             name_id_map := map_assign name id (name_id_map pv);
             id_to_name_map := id_to_name_map pv ++ [name];
             pnt_id_map := pnt_id_map pv ++ [id];
             aabb := aabb pv; rel_eps := rel_eps pv; warnings := warnings pv |}
      end
  end.

(** [PointVec::getItemNameByID] *)
Definition getItemNameByID (pv : PointVec) (id : N) : result string :=
  vget (id_to_name_map pv) id.

(** The insert operations a client can call after construction. *)
Inductive insert_op : Type :=
| PushBack (pnt : Point)
| PushBackName (pnt : Point) (name : option string).

Definition apply_op (pv : PointVec) (op : insert_op) : result PointVec :=
  match op with
  | PushBack pnt => r ← push_back pv pnt; Ok (snd r)
  | PushBackName pnt name => Ok (push_back_name pv pnt name)
  end.

Definition apply_ops (pv : PointVec) (ops : list insert_op)
  : result PointVec :=
  foldM apply_op pv ops.

(** ** Concrete inputs *)

Definition P (x y z : Q) : Point := mkPoint x y z.

(** A stand-in for [sqrt] on concrete inputs: the square root rounded
    down to six decimals. *)
Definition sqrt_6 (q : Q) : Q :=
  Qmake (Z.sqrt (Qnum q * 10 ^ 12 / Zpos (Qden q))) 1000000.

(** A registry state written down directly: one unnamed point at the
    origin, tolerance [1/100]. *)
Definition origin_registry : PointVec :=
  {| data_vec := [P 0 0 0]; name_id_map := [];
     id_to_name_map := [EmptyString]; pnt_id_map := [0];
     aabb := mkAABB (P 0 0 0) (P 0 0 0); rel_eps := 1 # 100;
     warnings := [] |}.

(** * Definitions for the proofs *)

(** The loop counted in unary, for induction. *)
Fixpoint iter_nat {St} (n : nat) (f : St -> result St) (s : St)
  : result St :=
  match n with
  | O => Ok s
  | S n' =>
      match f s with
      | Ok s' => iter_nat n' f s'
      | Err e => Err e
      end
  end.

#[global] Instance Point_inhabited : Inhabited Point := populate (mkPoint 0 0 0).

(** The vector [identical_pnts_interval] read as a list of pairs
    [(beg, end)]. *)
Fixpoint flat (prs : list (N * N)) : list N :=
  match prs with
  | [] => []
  | (b, e) :: r => b :: e :: flat r
  end.

(** Non-empty intervals, one after the other, between [lo] and [hi]. *)
Fixpoint intervals_ok (lo : N) (prs : list (N * N)) (hi : N) : Prop :=
  match prs with
  | [] => lo <= hi
  | (b, e) :: r => lo <= b /\ b < e /\ intervals_ok e r hi
  end.

(** The sorted positions [j] and [j + 1] lie in one of the intervals. *)
Definition covered (prs : list (N * N)) (j : nat) : Prop :=
  exists b e, (b, e) ∈ prs /\ (N.to_nat b <= j)%nat /\ (S j < N.to_nat e)%nat.

(** The points at sorted positions [j] and [j + 1] are within [eps]. *)
Definition close (A : list Point) (eps : Q) (j : nat) : bool :=
  within eps (A !!! S j) (A !!! j).

(** The state of the scan before pair [k]: the intervals closed so far
    and, when [identical] is set, the start [b] of the open one; every
    pair of neighbours within [eps] below [k] lies in a closed interval
    or behind [b]. *)
Definition scan_inv (A : list Point) (eps : Q) (k : N)
    (st : list N * bool) : Prop :=
  exists prs,
    if snd st
    then exists b,
        fst st = flat prs ++ [b] /\ intervals_ok 0 prs b /\ b < k /\
        forall j, (j < N.to_nat k)%nat -> close A eps j = true ->
                  covered prs j \/ (N.to_nat b <= j)%nat
    else
        fst st = flat prs /\ intervals_ok 0 prs k /\
        forall j, (j < N.to_nat k)%nat -> close A eps j = true ->
                  covered prs j.

(** One pass of lines 150-152 over the list [x :: r]. *)
Fixpoint bubble_from (x : N) (r : list N) : list N :=
  match r with
  | [] => [x]
  | y :: r' =>
      if y <? x then y :: bubble_from x r' else x :: bubble_from y r'
  end.

Definition bubble (l : list N) : list N :=
  match l with
  | [] => []
  | x :: r => bubble_from x r
  end.

(** The state after [j] passes over a list: the last [j] entries are in
    their final place. *)
Definition passes_inv (j : nat) (l : list N) : Prop :=
  exists u v, l = u ++ v /\ length v = j /\ StronglySorted N.le v /\
              Forall (fun a => Forall (fun b => a <= b) v) u.

(** [perm] is in ascending order on the positions of [(b, e)]. *)
Definition sorted_on (perm : list N) (b e : N) : Prop :=
  forall (j k : nat) x y,
    (N.to_nat b <= j)%nat -> (j < k)%nat -> (k < N.to_nat e)%nat ->
    perm !! j = Some x -> perm !! k = Some y -> x <= y.

(** The first sorted position of the run of neighbours within [eps] that
    ends at position [j]. *)
Fixpoint run_head (A : list Point) (eps : Q) (j : nat) : nat :=
  match j with
  | O => O
  | S j' => if close A eps j' then run_head A eps j' else S j'
  end.

Definition merge_inv (A : list Point) (eps : Q) (perm : list N) (k : N)
    (idm : list N) : Prop :=
  length idm = length A /\
  forall j x, perm !! j = Some x ->
    idm !! N.to_nat x
    = Some (perm !!! (if decide (j <= N.to_nat k)%nat then run_head A eps j else j)).

(** The positions that keep their point: those whose id is their own
    index. *)
Definition survivors (idm : list N) (k : nat) : list nat :=
  filter (fun j => idm !!! j = N.of_nat j) (seq 0 k).

(** The intermediate values of a run of [makePntsUnique]: the sorted
    vector, the permutation after the sort and after the bubble sort, the
    id map after the merge loop and the vector after the reverse
    permutation. *)
Record dedup_trace : Type := mkTrace {
  tr_A : list Point;
  tr_perm0 : list N;
  tr_perm : list N;
  tr_idm4 : list N;
  tr_pv3 : list Point
}.

(** What holds of a run on at least one point. *)
Record dedup_run (srt : Sorter) (pts : list Point) (eps : Q)
    (t : dedup_trace) (canon : list Point) (idm : list N) : Prop :=
  mkDedupRun {
  dr_sorted :
    Quicksort srt point_le pts (iota (length pts)) = (tr_A t, tr_perm0 t);
  dr_length_A : length (tr_A t) = length pts;
  dr_perm_iota : Permutation (tr_perm t) (iota (length (tr_A t)));
  dr_idm4_length : length (tr_idm4 t) = length (tr_A t);
  dr_idm4_head : forall j, (j < length (tr_A t))%nat ->
      tr_idm4 t !! N.to_nat (tr_perm t !!! j)
      = Some (tr_perm t !!! run_head (tr_A t) eps j);
  dr_head_least : forall j, (j < length (tr_A t))%nat ->
      tr_perm t !!! run_head (tr_A t) eps j <= tr_perm t !!! j;
  dr_pv3_length : length (tr_pv3 t) = length (tr_A t);
  dr_pv3_lookup : forall j, (j < length (tr_A t))%nat ->
      tr_pv3 t !! N.to_nat (tr_perm t !!! j) = Some (tr_A t !!! j);
  dr_canon :
    canon = map (fun j => tr_pv3 t !!! j)
                (survivors (tr_idm4 t) (length (tr_A t)));
  dr_idm_length : length idm = length pts;
  dr_idm_valid : Forall (fun v => v < vsize canon) idm
}.

(** The sorted vector of line 121. *)
Definition sorted_points (srt : Sorter) (pts : list Point) : list Point :=
  fst (Quicksort srt point_le pts (iota (length pts))).

(** The absolute tolerance of line 41. *)
Definition tolerance (sqrt : Q -> Q) (box : AABB) (rel : Q) : Q :=
  (rel * sqrt (sqrDist (getMinPoint box) (getMaxPoint box)))%Q.

(** The inserts that were turned away because their name was in use:
    each of them printed "two points share the name". *)
Fixpoint rejected_inserts (ws : list warning) : nat :=
  match ws with
  | [] => 0
  | WarnSharedName _ :: r => S (rejected_inserts r)
  | WarnDoublePoints _ :: r => rejected_inserts r
  end.

(** Every entry of the id map is an index of the canonical points. *)
Definition id_map_valid (pv : PointVec) : Prop :=
  Forall (fun v => v < vsize (data_vec pv)) (pnt_id_map pv).

(** The registry built from a result, for inputs on which construction
    is known to succeed. *)
Definition registry_of (r : result PointVec) : PointVec :=
  match r with
  | Ok pv => pv
  | Err _ => origin_registry
  end.

(** Three points; the first and the third are within [0.01] of each
    other, the second lies between them in the lexicographic order. *)
Definition gap_points : list Point :=
  [P 0 0 0; P 0 5 0; P (1 # 1000) 0 0].

(** A duplicate that reaches farther than the point that is kept. *)
Definition far_duplicate_points : list Point :=
  [P 5 5 5; P 5 5 (50001 # 10000); P 0 0 0].

(** Four points apart in the order; the last three form one run at the
    tolerance [0.0173]. *)
Definition chain_points : list Point :=
  [P 0 0 0; P 1 1 1; P 1 1 (1001 # 1000); P 1 1 (1002 # 1000)].

(** The part of [makePntsUnique] between the two sorts (lines 123-158):
    it returns [perm] and [pnt_id_map]. *)
Definition dedup_front (pnt_vec : list Point) (perm pnt_id_map : list N)
    (n_pnts_in_file : N) (eps : Q) : result (list N * list N) :=
  '(identical_pnts_interval, identical) ←
    for_loop 0 (size_sub n_pnts_in_file 1) (scan_step pnt_vec eps)
      ([], false);
  let identical_pnts_interval :=
    if identical : bool then identical_pnts_interval ++ [n_pnts_in_file]
    else identical_pnts_interval in
  perm ← for_loop 0 (vsize identical_pnts_interval / 2)
           (bubble_interval identical_pnts_interval) perm;
  pnt_id_map ← for_loop 0 (size_sub n_pnts_in_file 1)
                 (merge_step pnt_vec perm eps) pnt_id_map;
  Ok (perm, pnt_id_map).

(** The part behind the second sort (lines 163-183). *)
Definition dedup_back (pnt_id_map : list N) (pnt_vec : list Point)
    (n_pnts_in_file : N) : result (list Point * list N) :=
  pnt_vec ← for_loop 0 n_pnts_in_file (delete_step pnt_id_map)
              (map Some pnt_vec);
  '(pnt_id_map, _) ← for_loop 0 n_pnts_in_file renumber_step
                       (pnt_id_map, 0);
  Ok (remove_nullptr pnt_vec, pnt_id_map).

(** C1 as stated: any two canonical points are farther apart than the
    tolerance. *)
Definition pairwise_apart (eps : Q) (v : list Point) : Prop :=
  forall i j p q, i <> j -> v !! i = Some p -> v !! j = Some q ->
                  within eps p q = false.

#[global] Instance name_inhabited : Inhabited string := populate EmptyString.

(** The box [b] holds the point [p]. *)
Definition box_contains (b : AABB) (p : Point) : Prop :=
  (px (getMinPoint b) <= px p)%Q /\ (px p <= px (getMaxPoint b))%Q /\
  (py (getMinPoint b) <= py p)%Q /\ (py p <= py (getMaxPoint b))%Q /\
  (pz (getMinPoint b) <= pz p)%Q /\ (pz p <= pz (getMaxPoint b))%Q.

(** * Properties *)

(** ** The concrete sorter is a sorter *)

Section InsertionSort.
Context {K V : Type} (le : K -> K -> bool).
Implicit Types (x : K * V) (l : list (K * V)).

Lemma insert_pair_perm x l : Permutation (insert_pair le x l) (x :: l).
Proof.
  induction l as [|y r IH]; simpl; [done|].
  destruct (le _ _); [done|]. rewrite IH. apply perm_swap.
Qed.

Lemma insertion_sort_perm l : Permutation (insertion_sort K V le l) l.
Proof.
  unfold insertion_sort.
  enough (forall acc, Permutation
            (fold_left (fun acc x => insert_pair le x acc) l acc) (l ++ acc))
    as H by (rewrite H, app_nil_r; done).
  induction l as [|x l IH]; intros acc; simpl; [done|].
  rewrite IH, insert_pair_perm. symmetry. apply Permutation_middle.
Qed.

Hypothesis le_total : forall a b, le a b = true \/ le b a = true.
Hypothesis le_trans :
  forall a b c, le a b = true -> le b c = true -> le a c = true.

Let key_le (x y : K * V) : Prop := le (fst x) (fst y) = true.

Lemma insert_pair_sorted x l :
  StronglySorted key_le l -> StronglySorted key_le (insert_pair le x l).
Proof.
  induction 1 as [|y r Hr IH Hy]; simpl.
  - repeat constructor.
  - destruct (le (fst x) (fst y)) eqn:E.
    + constructor; [by constructor|]. constructor; [done|].
      eapply Forall_impl; [exact Hy|]. intros z Hz. unfold key_le in *; eauto.
    + constructor; [done|].
      rewrite (insert_pair_perm x r).
      constructor; [|done]. unfold key_le.
      destruct (le_total (fst x) (fst y)); congruence.
Qed.

Lemma insertion_sort_sorted l :
  StronglySorted key_le (insertion_sort K V le l).
Proof.
  unfold insertion_sort.
  enough (forall acc, StronglySorted key_le acc -> StronglySorted key_le
            (fold_left (fun acc x => insert_pair le x acc) l acc))
    as H by (apply H; constructor).
  induction l as [|x l IH]; intros acc Hacc; simpl; [done|].
  apply IH, insert_pair_sorted, Hacc.
Qed.
End InsertionSort.

Definition insertion_sorter : Sorter :=
  mkSorter insertion_sort (@insertion_sort_perm)
    (fun K V le l Htot Htrans => insertion_sort_sorted le Htot Htrans l).

(** ** Counted loops: unfolding and the invariant rule *)

Lemma iter_nat_add {St} (a b : nat) (f : St -> result St) (s : St) :
  iter_nat (a + b) f s =
  match iter_nat a f s with
  | Ok s' => iter_nat b f s'
  | Err e => Err e
  end.
Proof.
  revert s; induction a as [|a IH]; intros s; simpl; [done|].
  destruct (f s); [apply IH | done].
Qed.

Lemma iter_pos_nat {St} (p : positive) (f : St -> result St) (s : St) :
  iter_pos p f s = iter_nat (Pos.to_nat p) f s.
Proof.
  revert s; induction p as [p IH|p IH|]; intros s; simpl iter_pos.
  - rewrite Pos2Nat.inj_xI.
    replace (2 * Pos.to_nat p)%nat with (Pos.to_nat p + Pos.to_nat p)%nat by lia.
    cbn [iter_nat]. destruct (f s) as [s1|]; [|done].
    rewrite iter_nat_add, <- IH. destruct (iter_pos p f s1); [apply IH|done].
  - rewrite Pos2Nat.inj_xO.
    replace (2 * Pos.to_nat p)%nat with (Pos.to_nat p + Pos.to_nat p)%nat by lia.
    rewrite iter_nat_add, <- IH. destruct (iter_pos p f s); [apply IH|done].
  - simpl. by destruct (f s).
Qed.

Lemma iter_N_nat {St} (n : N) (f : St -> result St) (s : St) :
  iter_N n f s = iter_nat (N.to_nat n) f s.
Proof. destruct n; simpl; [done|apply iter_pos_nat]. Qed.

Lemma for_loop_done {St} lo hi (body : N -> St -> result St) s :
  hi <= lo -> for_loop lo hi body s = Ok s.
Proof.
  intros H. unfold for_loop. replace (hi - lo) with 0 by lia. reflexivity.
Qed.

Lemma for_loop_unroll {St} lo hi (body : N -> St -> result St) s :
  lo < hi ->
  for_loop lo hi body s = body lo s ≫= for_loop (lo + 1) hi body.
Proof.
  intros H. unfold for_loop at 1. rewrite iter_N_nat.
  replace (N.to_nat (hi - lo)) with (S (N.to_nat (hi - (lo + 1)))) by lia.
  cbn [iter_nat fst snd]. destruct (body lo s) as [s1|e]; [|done].
  rewrite bind_Ok. unfold for_loop. by rewrite iter_N_nat.
Qed.

(** Total correctness of a counted loop from an invariant: the body never
    fails where the invariant holds, and the loop ends with the invariant
    at the bound. *)
Lemma for_loop_inv {St} (I : N -> St -> Prop) lo hi
    (body : N -> St -> result St) s :
  lo <= hi ->
  I lo s ->
  (forall k s, lo <= k < hi -> I k s ->
               exists s', body k s = Ok s' /\ I (k + 1) s') ->
  exists s', for_loop lo hi body s = Ok s' /\ I hi s'.
Proof.
  intros Hle HI Hstep.
  remember (N.to_nat (hi - lo)) as m eqn:Hm.
  revert lo s Hle HI Hstep Hm. induction m as [|m IH]; intros lo s Hle HI Hstep Hm.
  - exists s. assert (lo = hi) as -> by lia. split; [|done].
    apply for_loop_done; lia.
  - rewrite for_loop_unroll by lia.
    destruct (Hstep lo s) as (s1 & -> & HI1); [lia|done|].
    apply IH; [lia|done| |lia].
    intros k s2 Hk. apply Hstep. lia.
Qed.

(** ** Vectors *)

Lemma vsize_length {A} (v : list A) : N.to_nat (vsize v) = length v.
Proof. unfold vsize. lia. Qed.

Lemma vget_lookup {A} (v : list A) (k : N) (a : A) :
  v !! N.to_nat k = Some a -> vget v k = Ok a.
Proof. unfold vget. by intros ->. Qed.

Lemma vget_lt `{Inhabited A} (v : list A) (k : N) :
  (N.to_nat k < length v)%nat -> vget v k = Ok (v !!! N.to_nat k).
Proof. intros Hk. apply vget_lookup. by apply list_lookup_lookup_total_lt. Qed.

Lemma vset_lt {A} (v : list A) (k : N) (a : A) :
  (N.to_nat k < length v)%nat -> vset v k a = Ok (<[N.to_nat k := a]> v).
Proof.
  intros Hk. unfold vset, vsize.
  destruct (N.ltb_spec k (N.of_nat (length v))); [done|lia].
Qed.

Lemma length_iota n : length (iota n) = n.
Proof. unfold iota. by rewrite length_map, length_seq. Qed.

Lemma lookup_iota n (k : nat) :
  (k < n)%nat -> iota n !! k = Some (N.of_nat k).
Proof.
  intros Hk. unfold iota. rewrite list_lookup_fmap.
  rewrite lookup_seq_lt by done. done.
Qed.

Lemma NoDup_iota n : NoDup (iota n).
Proof.
  unfold iota. apply (NoDup_fmap_2 _). apply NoDup_seq.
Qed.

Lemma elem_of_iota n (i : N) : i ∈ iota n <-> (N.to_nat i < n)%nat.
Proof.
  unfold iota. rewrite list_elem_of_fmap. split.
  - intros (k & -> & Hk). apply elem_of_seq in Hk. lia.
  - intros Hi. exists (N.to_nat i). split; [lia|]. apply elem_of_seq. lia.
Qed.

(** ** The order on points *)

Lemma point_le_total p q : point_le p q = true \/ point_le q p = true.
Proof.
  unfold point_le.
  destruct (Qcompare_spec (px p) (px q)), (Qcompare_spec (px q) (px p));
    try (by auto); try lra.
  destruct (Qcompare_spec (py p) (py q)), (Qcompare_spec (py q) (py p));
    try (by auto); try lra.
  destruct (Qcompare_spec (pz p) (pz q)), (Qcompare_spec (pz q) (pz p));
    try (by auto); try lra.
Qed.

Lemma point_le_trans p q r :
  point_le p q = true -> point_le q r = true -> point_le p r = true.
Proof.
  unfold point_le.
  destruct (Qcompare_spec (px p) (px q)), (Qcompare_spec (px q) (px r)),
    (Qcompare_spec (px p) (px r)); try done; try lra.
  destruct (Qcompare_spec (py p) (py q)), (Qcompare_spec (py q) (py r)),
    (Qcompare_spec (py p) (py r)); try done; try lra.
  destruct (Qcompare_spec (pz p) (pz q)), (Qcompare_spec (pz q) (pz r)),
    (Qcompare_spec (pz p) (pz r)); try done; try lra.
Qed.

Lemma point_le_refl p : point_le p p = true.
Proof. destruct (point_le_total p p); done. Qed.

(** Points that the order cannot tell apart are at distance zero. *)
Lemma point_le_antisym_dist p q :
  point_le p q = true -> point_le q p = true -> (maxNormDist p q == 0)%Q.
Proof.
  unfold point_le, maxNormDist.
  destruct (Qcompare_spec (px p) (px q)), (Qcompare_spec (px q) (px p));
    try done; try lra.
  destruct (Qcompare_spec (py p) (py q)), (Qcompare_spec (py q) (py p));
    try done; try lra.
  destruct (Qcompare_spec (pz p) (pz q)), (Qcompare_spec (pz q) (pz p));
    try done; try lra.
  intros _ _.
  assert (px q - px p == 0)%Q as -> by lra.
  assert (py q - py p == 0)%Q as -> by lra.
  assert (pz q - pz p == 0)%Q as -> by lra.
  reflexivity.
Qed.
(** ** What the sort utility guarantees *)

Lemma combine_fst_snd {K V} (zs : list (K * V)) :
  combine (map fst zs) (map snd zs) = zs.
Proof. induction zs as [|[k v] zs IH]; simpl; [done|by rewrite IH]. Qed.

Lemma map_fst_combine {K V} (ks : list K) (vs : list V) :
  length ks = length vs -> map fst (combine ks vs) = ks.
Proof.
  revert vs; induction ks as [|k ks IH]; intros [|v vs] Hl; simpl in *;
    try done. f_equal. apply IH. lia.
Qed.

Lemma map_snd_combine {K V} (ks : list K) (vs : list V) :
  length ks = length vs -> map snd (combine ks vs) = vs.
Proof.
  revert vs; induction ks as [|k ks IH]; intros [|v vs] Hl; simpl in *;
    try done. f_equal. apply IH. lia.
Qed.

Lemma lookup_combine {K V} (ks : list K) (vs : list V) (j : nat) k v :
  combine ks vs !! j = Some (k, v) <-> ks !! j = Some k /\ vs !! j = Some v.
Proof.
  revert vs j; induction ks as [|k0 ks IH]; intros [|v0 vs] [|j]; simpl;
    try (split; [done|intros [? ?]; done]).
  - split; [by intros [= -> ->]|by intros [[= ->] [= ->]]].
  - apply IH.
Qed.

Section QuicksortSpec.
Context (srt : Sorter) {K V : Type} (le : K -> K -> bool).
Context (ks ks' : list K) (vs vs' : list V).
Hypothesis Hlen : length ks = length vs.
Hypothesis Hsort : Quicksort srt le ks vs = (ks', vs').

Lemma Quicksort_pairs : Permutation (combine ks' vs') (combine ks vs).
Proof.
  unfold Quicksort in Hsort. injection Hsort as <- <-.
  rewrite combine_fst_snd. apply sort_pairs_perm.
Qed.

Lemma Quicksort_keys : Permutation ks' ks.
Proof.
  unfold Quicksort in Hsort. injection Hsort as <- _.
  rewrite <- (map_fst_combine ks vs Hlen) at 2.
  apply Permutation_map, sort_pairs_perm.
Qed.

Lemma Quicksort_values : Permutation vs' vs.
Proof.
  unfold Quicksort in Hsort. injection Hsort as _ <-.
  rewrite <- (map_snd_combine ks vs Hlen) at 2.
  apply Permutation_map, sort_pairs_perm.
Qed.

Lemma Quicksort_length_keys : length ks' = length ks.
Proof. apply Permutation_length, Quicksort_keys. Qed.

Lemma Quicksort_length_values : length vs' = length ks.
Proof. rewrite Hlen. apply Permutation_length, Quicksort_values. Qed.

Lemma Quicksort_sorted :
  (forall a b, le a b = true \/ le b a = true) ->
  (forall a b c, le a b = true -> le b c = true -> le a c = true) ->
  StronglySorted (fun a b => le a b = true) ks'.
Proof.
  intros Htot Htrans. unfold Quicksort in Hsort. injection Hsort as <- _.
  pose proof (sort_pairs_sorted srt K V le (combine ks vs) Htot Htrans) as Hs.
  revert Hs. generalize (sort_pairs srt K V le (combine ks vs)). intros zs Hs.
  induction Hs as [|z zs Hzs IH Hz]; simpl; constructor; [done|].
  rewrite Forall_forall in Hz. rewrite Forall_forall. intros k Hk.
  apply list_elem_of_fmap in Hk as (z' & -> & Hz'). by apply Hz.
Qed.

(** A pair of the input is a pair of the output, at some position. *)
Lemma Quicksort_pair_lookup (j : nat) (k : K) (v : V) :
  ks !! j = Some k -> vs !! j = Some v ->
  exists t, ks' !! t = Some k /\ vs' !! t = Some v.
Proof.
  intros Hk Hv.
  assert ((k, v) ∈ combine ks' vs') as Hin.
  { rewrite Quicksort_pairs. apply list_elem_of_lookup. exists j.
    by apply lookup_combine. }
  apply list_elem_of_lookup in Hin as [t Ht]. exists t.
  by apply lookup_combine.
Qed.
End QuicksortSpec.
(** ** Intervals of identical points (lines 126-143) *)

Lemma size_sub_le a b : b <= a -> size_sub a b = a - b.
Proof. intros H. unfold size_sub. destruct (N.leb_spec b a); [done|lia]. Qed.

Lemma flat_snoc prs b e : flat (prs ++ [(b, e)]) = flat prs ++ [b; e].
Proof. induction prs as [|[b' e'] r IH]; simpl; [done|by rewrite IH]. Qed.

Lemma length_flat prs : length (flat prs) = (2 * length prs)%nat.
Proof. induction prs as [|[b e] r IH]; simpl; lia. Qed.

Lemma lookup_flat prs (i : nat) b e :
  prs !! i = Some (b, e) ->
  flat prs !! (2 * i)%nat = Some b /\ flat prs !! (2 * i + 1)%nat = Some e.
Proof.
  revert i; induction prs as [|[b' e'] r IH]; intros i Hi; [done|].
  destruct i as [|i].
  - injection Hi as -> ->. done.
  - replace (2 * S i)%nat with (S (S (2 * i))) by lia.
    replace (S (S (2 * i)) + 1)%nat with (S (S (2 * i + 1))) by lia.
    simpl in Hi |- *. by apply IH.
Qed.

Lemma intervals_ok_mono lo prs hi hi' :
  intervals_ok lo prs hi -> hi <= hi' -> intervals_ok lo prs hi'.
Proof.
  revert lo; induction prs as [|[b e] r IH]; simpl; intros lo; [lia|].
  intros (? & ? & ?) ?; eauto.
Qed.

Lemma intervals_ok_snoc lo prs hi b e :
  intervals_ok lo prs b -> b < e -> e <= hi ->
  intervals_ok lo (prs ++ [(b, e)]) hi.
Proof.
  revert lo; induction prs as [|[b' e'] r IH]; simpl; intros lo; [lia|].
  intros (? & ? & ?) ? ?; eauto.
Qed.

Lemma intervals_ok_le lo prs hi : intervals_ok lo prs hi -> lo <= hi.
Proof.
  revert lo; induction prs as [|[b e] r IH]; simpl; intros lo; [lia|].
  intros (? & ? & H). apply IH in H. lia.
Qed.

Lemma intervals_ok_bounds lo prs hi b e :
  intervals_ok lo prs hi -> (b, e) ∈ prs -> lo <= b /\ b < e /\ e <= hi.
Proof.
  revert lo; induction prs as [|[b' e'] r IH]; simpl; intros lo Hok Hin.
  - by apply elem_of_nil in Hin.
  - destruct Hok as (? & ? & Hok). apply elem_of_cons in Hin as [[= -> ->]|Hin].
    + apply intervals_ok_le in Hok. lia.
    + destruct (IH _ Hok Hin). lia.
Qed.

(** Two of the intervals that share a position are the same interval. *)
Lemma intervals_ok_disjoint lo prs hi b e b' e' (j : N) :
  intervals_ok lo prs hi -> (b, e) ∈ prs -> (b', e') ∈ prs ->
  b <= j < e -> b' <= j < e' -> (b, e) = (b', e').
Proof.
  revert lo; induction prs as [|[b0 e0] r IH]; simpl; intros lo Hok H1 H2 ? ?.
  - by apply elem_of_nil in H1.
  - destruct Hok as (? & ? & Hok).
    apply elem_of_cons in H1 as [[= -> ->]|H1];
      apply elem_of_cons in H2 as [[= -> ->]|H2]; [done| | |by eapply IH].
    + destruct (intervals_ok_bounds _ _ _ _ _ Hok H2). lia.
    + destruct (intervals_ok_bounds _ _ _ _ _ Hok H1). lia.
Qed.

Lemma covered_snoc prs p j : covered prs j -> covered (prs ++ [p]) j.
Proof.
  intros (b & e & Hin & ?). exists b, e. split; [|done].
  apply elem_of_app; auto.
Qed.

Section Scan.
Context (A : list Point) (eps : Q).

Lemma covered_last prs b e j :
  (N.to_nat b <= j)%nat -> (S j < N.to_nat e)%nat ->
  covered (prs ++ [(b, e)]) j.
Proof.
  intros Hb He. exists b, e. split; [|done].
  apply elem_of_app. right. by apply list_elem_of_singleton.
Qed.

Lemma scan_step_inv (k : N) st :
  k + 1 < vsize A -> scan_inv A eps k st ->
  exists st', scan_step A eps k st = Ok st' /\ scan_inv A eps (k + 1) st'.
Proof.
  intros Hk [prs Hst]. destruct st as [ivl ident]. unfold scan_step.
  unfold vsize in Hk.
  rewrite (vget_lt A (k + 1)), (vget_lt A k) by lia.
  rewrite !bind_Ok. replace (N.to_nat (k + 1)) with (S (N.to_nat k)) by lia.
  fold (close A eps (N.to_nat k)). simpl in Hst.
  destruct (close A eps (N.to_nat k)) eqn:Hcl, ident.
  - (* within eps, interval open: it stays open *)
    destruct Hst as (b & -> & Hok & Hb & Hcov).
    eexists; split; [done|]. exists prs, b. simpl.
    repeat split; [done|lia|]. intros j Hj Hc.
    destruct (decide (j = N.to_nat k)) as [->|]; [right; lia|].
    apply Hcov; [lia|done].
  - (* within eps, no interval open: one opens at k *)
    destruct Hst as (-> & Hok & Hcov).
    eexists; split; [done|]. exists prs, k. simpl.
    repeat split; [done|lia|]. intros j Hj Hc.
    destruct (decide (j = N.to_nat k)) as [->|]; [right; lia|].
    left. apply Hcov; [lia|done].
  - (* not within eps, interval open: it closes at k + 1 *)
    destruct Hst as (b & -> & Hok & Hb & Hcov).
    eexists; split; [done|]. exists (prs ++ [(b, k + 1)]). simpl.
    split; [by rewrite flat_snoc, <- app_assoc|].
    split; [apply intervals_ok_snoc; [done|lia..]|]. intros j Hj Hc.
    destruct (decide (j = N.to_nat k)) as [->|]; [congruence|].
    destruct (Hcov j) as [?|?]; [lia|done|by apply covered_snoc|].
    apply covered_last; lia.
  - (* not within eps, no interval open *)
    destruct Hst as (-> & Hok & Hcov).
    eexists; split; [done|]. exists prs. simpl.
    split; [done|]. split; [eapply intervals_ok_mono; [done|lia]|].
    intros j Hj Hc.
    destruct (decide (j = N.to_nat k)) as [->|]; [congruence|].
    apply Hcov; [lia|done].
Qed.

(** The scan never reads outside the vector when there is at least one
    point, and its result lists intervals that contain every pair of
    neighbours within [eps]. *)
Lemma scan_spec :
  (1 <= length A)%nat ->
  exists ivl ident prs,
    for_loop 0 (size_sub (vsize A) 1) (scan_step A eps) ([], false)
      = Ok (ivl, ident) /\
    (if ident : bool then ivl ++ [vsize A] else ivl) = flat prs /\
    intervals_ok 0 prs (vsize A) /\
    (forall j, (S j < length A)%nat -> close A eps j = true -> covered prs j).
Proof.
  intros Hn. unfold vsize in *. rewrite size_sub_le by lia.
  destruct (for_loop_inv (scan_inv A eps) 0 (N.of_nat (length A) - 1)
              (scan_step A eps) ([], false)) as ([ivl ident] & Hrun & prs & Hst).
  - lia.
  - exists []. simpl. split; [done|]. split; [lia|]. intros; lia.
  - intros k st Hk. apply scan_step_inv. unfold vsize. lia.
  - exists ivl, ident. simpl in Hst. destruct ident.
    + destruct Hst as (b & -> & Hok & Hb & Hcov).
      exists (prs ++ [(b, N.of_nat (length A))]). split; [done|].
      split; [by rewrite flat_snoc, <- app_assoc|].
      split; [apply intervals_ok_snoc; [done|lia..]|].
      intros j Hj Hc. destruct (Hcov j) as [?|?]; [lia|done|by apply covered_snoc|].
      apply covered_last; lia.
    + destruct Hst as (-> & Hok & Hcov). exists prs. split; [done|].
      split; [done|]. split; [eapply intervals_ok_mono; [done|lia]|].
      intros j Hj Hc. apply Hcov; [lia|done].
Qed.
End Scan.

(** ** Bubble sort of the permutation on one interval (lines 145-153) *)

Lemma length_bubble_from x r : length (bubble_from x r) = S (length r).
Proof.
  revert x; induction r as [|y r IH]; intros x; simpl; [done|].
  destruct (y <? x); simpl; by rewrite IH.
Qed.

Lemma length_bubble l : length (bubble l) = length l.
Proof. destruct l; simpl; [done|apply length_bubble_from]. Qed.

Lemma bubble_from_perm x r : Permutation (bubble_from x r) (x :: r).
Proof.
  revert x; induction r as [|y r IH]; intros x; simpl; [done|].
  destruct (y <? x); rewrite IH; [apply perm_swap|done].
Qed.

Lemma bubble_perm l : Permutation (bubble l) l.
Proof. destruct l; simpl; [done|apply bubble_from_perm]. Qed.

(** A pass leaves the greatest entry at the end. *)
Lemma bubble_from_last x r :
  exists u m, bubble_from x r = u ++ [m] /\ Forall (fun a => a <= m) (x :: r).
Proof.
  revert x; induction r as [|y r IH]; intros x; simpl.
  - exists [], x. split; [done|]. constructor; [lia|constructor].
  - destruct (N.ltb_spec y x).
    + destruct (IH x) as (u & m & -> & Hm). exists (y :: u), m. split; [done|].
      inversion Hm; subst. constructor; [done|]. constructor; [lia|done].
    + destruct (IH y) as (u & m & -> & Hm). exists (x :: u), m. split; [done|].
      inversion Hm; subst. constructor; [lia|]. by constructor.
Qed.

(** A pass does not touch a sorted tail of greater entries. *)
Lemma bubble_from_sorted_tail x r v :
  StronglySorted N.le v ->
  Forall (fun a => Forall (fun b => a <= b) v) (x :: r) ->
  bubble_from x (r ++ v) = bubble_from x r ++ v.
Proof.
  intros Hv. revert x; induction r as [|y r IH]; intros x Hle; simpl.
  - inversion Hle as [|? ? Hx _]; subst. clear Hle. revert x Hx.
    induction Hv as [|b v Hv IHv Hb]; intros x Hx; simpl; [done|].
    inversion Hx; subst. destruct (N.ltb_spec b x); [lia|].
    f_equal. apply IHv. by eapply Forall_impl; [exact Hb|].
  - inversion Hle as [|? ? Hx Hr]; subst. inversion Hr; subst.
    destruct (y <? x); simpl; f_equal; apply IH; by constructor.
Qed.

Lemma bubble_passes_inv j l :
  (j < length l)%nat -> passes_inv j l -> passes_inv (S j) (bubble l).
Proof.
  intros Hj (u & v & -> & Hlen & Hv & Hu). rewrite length_app in Hj.
  destruct u as [|x r]; [simpl in Hj; lia|]. simpl.
  rewrite bubble_from_sorted_tail by done.
  destruct (bubble_from_last x r) as (u' & m & Hb & Hm). rewrite Hb.
  assert (Permutation (u' ++ [m]) (x :: r)) as Hperm
    by (rewrite <- Hb; apply bubble_from_perm).
  assert (Forall (fun a => Forall (fun b => a <= b) v) (u' ++ [m])) as Hu'
    by (by rewrite Hperm).
  apply Forall_app in Hu' as [Hu' Hmv]. inversion Hmv; subst.
  exists u', (m :: v). split; [by rewrite <- app_assoc|].
  split; [done|]. split; [by constructor|].
  assert (Forall (fun a => a <= m) (u' ++ [m])) as Hm' by (by rewrite Hperm).
  apply Forall_app in Hm' as [Hm' _].
  rewrite Forall_forall in Hm'. rewrite Forall_forall in Hu'.
  apply Forall_forall. intros a Ha. constructor; auto.
Qed.

Lemma bubble_iter_perm j l : Permutation (Nat.iter j bubble l) l.
Proof. induction j; simpl; [done|]. by rewrite bubble_perm. Qed.

Lemma bubble_iter_length j l : length (Nat.iter j bubble l) = length l.
Proof. apply Permutation_length, bubble_iter_perm. Qed.

Lemma bubble_passes_sorted l :
  StronglySorted N.le (Nat.iter (length l) bubble l).
Proof.
  enough (forall j, (j <= length l)%nat -> passes_inv j (Nat.iter j bubble l))
    as H.
  { destruct (H (length l)) as (u & v & Hl & Hlen & Hv & _); [done|].
    pose proof (bubble_iter_length (length l) l) as Hlen'.
    rewrite Hl, length_app in Hlen'. destruct u; [|simpl in Hlen'; lia].
    by rewrite Hl. }
  induction j as [|j IH]; intros Hj.
  - exists l, []. rewrite app_nil_r. repeat split; [constructor|].
    apply Forall_forall. intros; constructor.
  - simpl. apply bubble_passes_inv; [|apply IH; lia].
    rewrite bubble_iter_length. lia.
Qed.

Lemma StronglySorted_lookup {A} (R : relation A) (l : list A) j k a b :
  StronglySorted R l -> (j < k)%nat ->
  l !! j = Some a -> l !! k = Some b -> R a b.
Proof.
  intros Hl. revert j k. induction Hl as [|x l Hl IH Hx]; intros j k Hjk Hj Hk.
  - done.
  - destruct k as [|k]; [lia|]. destruct j as [|j]; simpl in *.
    + injection Hj as <-. rewrite Forall_forall in Hx. apply Hx.
      by eapply list_elem_of_lookup_2.
    + eapply (IH j k); [lia|done..].
Qed.

Lemma swap_step_middle pre x y rest :
  swap_step (N.of_nat (length pre)) (pre ++ x :: y :: rest)
  = Ok (pre ++ (if y <? x then y :: x :: rest else x :: y :: rest)).
Proof.
  unfold swap_step.
  rewrite (vget_lookup _ (N.of_nat (length pre)) x)
    by (rewrite Nat2N.id; apply list_lookup_middle; done).
  rewrite bind_Ok.
  rewrite (vget_lookup _ (N.of_nat (length pre) + 1) y).
  2:{ replace (N.to_nat (N.of_nat (length pre) + 1)) with (length pre + 1)%nat by lia.
      rewrite lookup_app_r by lia. by replace (length pre + 1 - length pre)%nat with 1%nat by lia. }
  rewrite bind_Ok. destruct (y <? x); [|done].
  rewrite vset_lt by (rewrite length_app; simpl; lia). rewrite bind_Ok.
  rewrite vset_lt by (rewrite length_insert, length_app; simpl; lia).
  f_equal. rewrite Nat2N.id.
  replace (N.to_nat (N.of_nat (length pre) + 1)) with (length pre + 1)%nat by lia.
  rewrite <- (Nat.add_0_r (length pre)) at 2.
  rewrite !insert_app_r. done.
Qed.

(** The inner loop of lines 150-152 is one pass over the interval. *)
Lemma swap_pass rest : forall pre x post,
  for_loop (N.of_nat (length pre)) (N.of_nat (length pre + length rest))
    swap_step (pre ++ x :: rest ++ post)
  = Ok (pre ++ bubble_from x rest ++ post).
Proof.
  induction rest as [|y rest IH]; intros pre x post.
  - rewrite for_loop_done by (simpl; lia). done.
  - rewrite for_loop_unroll by (simpl; lia). simpl app at 1.
    rewrite swap_step_middle, bind_Ok. simpl bubble_from.
    destruct (y <? x).
    + specialize (IH (pre ++ [y]) x post). rewrite length_app in IH. simpl in IH.
      rewrite <- !app_assoc in IH. simpl in IH.
      replace (N.of_nat (length pre + 1)) with (N.of_nat (length pre) + 1) in IH by lia.
      replace (N.of_nat (length pre + 1 + length rest))
        with (N.of_nat (length pre + length (y :: rest))) in IH by (simpl; lia).
      exact IH.
    + specialize (IH (pre ++ [x]) y post). rewrite length_app in IH. simpl in IH.
      rewrite <- !app_assoc in IH. simpl in IH.
      replace (N.of_nat (length pre + 1)) with (N.of_nat (length pre) + 1) in IH by lia.
      replace (N.of_nat (length pre + 1 + length rest))
        with (N.of_nat (length pre + length (y :: rest))) in IH by (simpl; lia).
      exact IH.
Qed.

Lemma swap_pass_segment pre seg post :
  seg <> [] ->
  for_loop (N.of_nat (length pre))
    (size_sub (N.of_nat (length pre + length seg)) 1)
    swap_step (pre ++ seg ++ post)
  = Ok (pre ++ bubble seg ++ post).
Proof.
  intros Hseg. destruct seg as [|x rest]; [done|]. simpl length.
  rewrite size_sub_le by lia.
  replace (N.of_nat (length pre + S (length rest)) - 1)
    with (N.of_nat (length pre + length rest)) by lia.
  apply swap_pass.
Qed.

(** The two loops of lines 149-152 run the pass once for every position
    of the interval. *)
Lemma bubble_loops pre seg post :
  seg <> [] ->
  for_loop (N.of_nat (length pre)) (N.of_nat (length pre + length seg))
    (fun _ perm =>
       for_loop (N.of_nat (length pre))
         (size_sub (N.of_nat (length pre + length seg)) 1) swap_step perm)
    (pre ++ seg ++ post)
  = Ok (pre ++ Nat.iter (length seg) bubble seg ++ post).
Proof.
  intros Hseg.
  destruct (for_loop_inv
    (fun j perm =>
       perm = pre ++ Nat.iter (N.to_nat j - length pre) bubble seg ++ post)
    (N.of_nat (length pre)) (N.of_nat (length pre + length seg))
    (fun _ perm =>
       for_loop (N.of_nat (length pre))
         (size_sub (N.of_nat (length pre + length seg)) 1) swap_step perm)
    (pre ++ seg ++ post)) as (perm' & -> & ->).
  - lia.
  - by replace (N.to_nat (N.of_nat (length pre)) - length pre)%nat with 0%nat by lia.
  - intros j perm Hj ->. eexists. split.
    + rewrite <- (bubble_iter_length (N.to_nat j - length pre) seg) at 1.
      apply swap_pass_segment. intros Hnil.
      apply (f_equal length) in Hnil. rewrite bubble_iter_length in Hnil.
      destruct seg; simpl in *; done.
    + replace (N.to_nat (j + 1) - length pre)%nat
        with (S (N.to_nat j - length pre)) by lia. done.
  - by replace (N.to_nat (N.of_nat (length pre + length seg)) - length pre)%nat
      with (length seg) by lia.
Qed.

(** Lines 147-152 on the interval [(b, e)]: the entries of [perm] in the
    interval are sorted, the others stay. *)
Lemma bubble_interval_spec prs (i : N) b e perm :
  prs !! N.to_nat i = Some (b, e) -> b < e -> (N.to_nat e <= length perm)%nat ->
  bubble_interval (flat prs) i perm
  = Ok (take (N.to_nat b) perm
        ++ Nat.iter (N.to_nat (e - b)) bubble
             (take (N.to_nat (e - b)) (drop (N.to_nat b) perm))
        ++ drop (N.to_nat e) perm).
Proof.
  intros Hi Hbe He. unfold bubble_interval.
  destruct (lookup_flat _ _ _ _ Hi) as [Hb He'].
  rewrite (vget_lookup _ (2 * i) b)
    by (by replace (N.to_nat (2 * i)) with (2 * N.to_nat i)%nat by lia).
  rewrite (vget_lookup _ (2 * i + 1) e)
    by (by replace (N.to_nat (2 * i + 1)) with (2 * N.to_nat i + 1)%nat by lia).
  rewrite !bind_Ok.
  set (pre := take (N.to_nat b) perm).
  set (seg := take (N.to_nat (e - b)) (drop (N.to_nat b) perm)).
  set (post := drop (N.to_nat e) perm).
  assert (length pre = N.to_nat b) as Hpre by (unfold pre; rewrite length_take; lia).
  assert (length seg = N.to_nat (e - b)) as Hsegl
    by (unfold seg; rewrite length_take, length_drop; lia).
  assert (perm = pre ++ seg ++ post) as Hperm.
  { unfold pre, seg, post.
    rewrite <- (take_drop (N.to_nat b) perm) at 1. f_equal.
    rewrite <- (take_drop (N.to_nat (e - b)) (drop (N.to_nat b) perm)) at 1.
    f_equal. rewrite drop_drop. f_equal. lia. }
  assert (seg <> []) as Hne.
  { intros Hnil. rewrite Hnil in Hsegl. simpl in Hsegl. lia. }
  pose proof (bubble_loops pre seg post Hne) as HL.
  replace (N.of_nat (length pre + length seg)) with e in HL by lia.
  replace (N.of_nat (length pre)) with b in HL by lia.
  rewrite <- Hperm, Hsegl in HL. exact HL.
Qed.

Lemma intervals_ok_lookup_order lo prs hi (i i' : nat) b e b' e' :
  intervals_ok lo prs hi -> (i' < i)%nat ->
  prs !! i' = Some (b', e') -> prs !! i = Some (b, e) -> e' <= b.
Proof.
  revert lo i i'; induction prs as [|[b0 e0] r IH]; intros lo i i' Hok Hlt H' H;
    [done|].
  destruct Hok as (? & ? & Hok). destruct i as [|i]; [lia|].
  destruct i' as [|i']; simpl in *.
  - injection H' as -> ->.
    apply list_elem_of_lookup_2 in H.
    destruct (intervals_ok_bounds _ _ _ _ _ Hok H). lia.
  - eapply (IH _ i i'); [done|lia|done..].
Qed.

Lemma take_segment_drop {A} (l : list A) (b e : nat) :
  (b <= e)%nat -> take b l ++ take (e - b) (drop b l) ++ drop e l = l.
Proof.
  intros Hbe.
  assert (take (e - b) (drop b l) ++ drop e l = drop b l) as ->.
  { replace (drop e l) with (drop (e - b) (drop b l)); [apply take_drop|].
    rewrite drop_drop. f_equal. lia. }
  apply take_drop.
Qed.

Lemma bubble_phase_spec prs perm :
  intervals_ok 0 prs (vsize perm) ->
  exists perm',
    for_loop 0 (vsize (flat prs) / 2) (bubble_interval (flat prs)) perm
      = Ok perm' /\
    Permutation perm' perm /\
    (forall b e, (b, e) ∈ prs -> sorted_on perm' b e).
Proof.
  intros Hok.
  assert (vsize (flat prs) / 2 = N.of_nat (length prs)) as ->.
  { unfold vsize. rewrite length_flat.
    replace (N.of_nat (2 * length prs)) with (2 * N.of_nat (length prs)) by lia.
    rewrite N.mul_comm. apply N.div_mul. lia. }
  destruct (for_loop_inv
    (fun i p => Permutation p perm /\
       forall (i' : nat) b e, (i' < N.to_nat i)%nat ->
         prs !! i' = Some (b, e) -> sorted_on p b e)
    0 (N.of_nat (length prs)) (bubble_interval (flat prs)) perm)
    as (perm' & Hrun & Hperm & Hsorted).
  - lia.
  - split; [done|]. intros; lia.
  - intros i p Hi [Hp Hs].
    destruct (lookup_lt_is_Some_2 prs (N.to_nat i)) as [[b e] Hbe]; [lia|].
    pose proof (list_elem_of_lookup_2 _ _ _ Hbe) as Hin.
    destruct (intervals_ok_bounds _ _ _ _ _ Hok Hin) as (_ & Hlt & Hle).
    assert (length p = length perm) as Hlen by by apply Permutation_length.
    unfold vsize in Hle.
    eexists. split; [apply bubble_interval_spec; [done|done|lia]|].
    set (seg := take (N.to_nat (e - b)) (drop (N.to_nat b) p)).
    assert (length seg = N.to_nat (e - b)) as Hsegl
      by (unfold seg; rewrite length_take, length_drop; lia).
    split.
    + etrans; [|exact Hp]. rewrite bubble_iter_perm. unfold seg.
      replace (N.to_nat (e - b)) with (N.to_nat e - N.to_nat b)%nat by lia.
      rewrite take_segment_drop by lia. done.
    + intros i' b' e' Hi' Hbe'. destruct (decide (i' = N.to_nat i)) as [->|Hne].
      * rewrite Hbe in Hbe'. injection Hbe' as <- <-.
        intros j k x y Hj Hjk Hk Hx Hy.
        rewrite lookup_app_r in Hx, Hy by (rewrite length_take; lia).
        rewrite length_take in Hx, Hy.
        rewrite lookup_app_l in Hx, Hy by (rewrite bubble_iter_length; lia).
        eapply (StronglySorted_lookup N.le _ _ _ x y); [| |exact Hx|exact Hy].
        -- rewrite <- Hsegl. apply bubble_passes_sorted.
        -- lia.
      * assert (e' <= b) by (eapply (intervals_ok_lookup_order _ _ _ (N.to_nat i) i'); [done|lia|done..]).
        intros j k x y Hj Hjk Hk Hx Hy.
        rewrite lookup_app_l in Hx, Hy by (rewrite length_take; lia).
        rewrite lookup_take_lt in Hx, Hy by lia.
        eapply (Hs i'); [lia|done..].
  - exists perm'. split; [done|]. split; [done|].
    intros b e Hin. apply list_elem_of_lookup in Hin as [i' Hi'].
    eapply (Hsorted i'); [|done]. apply lookup_lt_Some in Hi'. lia.
Qed.

(** ** Merging the ids of neighbours (lines 155-158) *)

Section Merge.
Context (A : list Point) (eps : Q) (perm : list N).
Hypothesis Hperm : Permutation perm (iota (length A)).

Lemma run_head_le j : (run_head A eps j <= j)%nat.
Proof. induction j; simpl; [done|]. destruct (close A eps j); lia. Qed.

Lemma perm_length : length perm = length A.
Proof. by rewrite (Permutation_length Hperm), length_iota. Qed.

Lemma perm_NoDup : NoDup perm.
Proof. rewrite Hperm. apply NoDup_iota. Qed.

Lemma perm_bound j x : perm !! j = Some x -> (N.to_nat x < length A)%nat.
Proof.
  intros Hx. apply elem_of_iota. rewrite <- Hperm.
  by eapply list_elem_of_lookup_2.
Qed.

Lemma perm_lookup_total j :
  (j < length A)%nat -> perm !! j = Some (perm !!! j).
Proof. intros Hj. apply list_lookup_lookup_total_lt. by rewrite perm_length. Qed.

Lemma perm_surjective (i : nat) :
  (i < length A)%nat -> exists j, perm !! j = Some (N.of_nat i).
Proof.
  intros Hi. apply list_elem_of_lookup. rewrite Hperm.
  apply elem_of_iota. lia.
Qed.

Lemma merge_step_inv k idm :
  k + 1 < vsize A -> (merge_inv A eps perm) k idm ->
  exists idm', merge_step A perm eps k idm = Ok idm' /\ (merge_inv A eps perm) (k + 1) idm'.
Proof.
  intros Hk [Hlen Hinv]. unfold vsize in Hk. unfold merge_step.
  rewrite (vget_lt A (k + 1)), (vget_lt A k) by lia. rewrite !bind_Ok.
  replace (N.to_nat (k + 1)) with (S (N.to_nat k)) by lia.
  fold (close A eps (N.to_nat k)).
  pose proof (perm_lookup_total (S (N.to_nat k)) ltac:(lia)) as H1.
  pose proof (perm_lookup_total (N.to_nat k) ltac:(lia)) as H0.
  destruct (close A eps (N.to_nat k)) eqn:Hcl.
  - rewrite (vget_lookup perm (k + 1) _ ltac:(by replace (N.to_nat (k + 1)) with (S (N.to_nat k)) by lia)).
    rewrite (vget_lookup perm k _ H0). rewrite !bind_Ok.
    pose proof (Hinv _ _ H0) as Hv. rewrite decide_True in Hv by lia.
    rewrite (vget_lookup idm _ _ Hv), bind_Ok.
    pose proof (perm_bound _ _ H1) as Hb1.
    rewrite vset_lt by lia. eexists; split; [done|].
    split; [by rewrite length_insert|].
    intros j x Hx. destruct (decide (j = S (N.to_nat k))) as [->|Hne].
    + rewrite H1 in Hx. injection Hx as <-.
      rewrite list_lookup_insert_eq by lia.
      rewrite decide_True by lia. simpl. by rewrite Hcl.
    + rewrite list_lookup_insert_ne.
      2:{ intros Heq. apply Hne. apply N2Nat.inj in Heq. subst x.
          by eapply (NoDup_lookup perm); [apply perm_NoDup|..]. }
      rewrite (Hinv _ _ Hx). do 2 f_equal.
      repeat case_decide; try done; lia.
  - eexists; split; [done|]. split; [done|].
    intros j x Hx. rewrite (Hinv _ _ Hx). do 2 f_equal.
    destruct (decide (j = S (N.to_nat k))) as [->|Hne].
    + rewrite decide_False, decide_True by lia. simpl. by rewrite Hcl.
    + repeat case_decide; try done; lia.
Qed.

(** After the loop every point carries the original index found at the
    head of its run. *)
Lemma merge_spec :
  (1 <= length A)%nat ->
  exists idm,
    for_loop 0 (size_sub (vsize A) 1) (merge_step A perm eps)
      (iota (length A)) = Ok idm /\
    length idm = length A /\
    forall j, (j < length A)%nat ->
      idm !! N.to_nat (perm !!! j) = Some (perm !!! run_head A eps j).
Proof.
  intros Hn. unfold vsize. rewrite size_sub_le by lia.
  destruct (for_loop_inv (merge_inv A eps perm) 0 (N.of_nat (length A) - 1)
              (merge_step A perm eps) (iota (length A)))
    as (idm & Hrun & Hlen & Hinv).
  - lia.
  - split; [apply length_iota|]. intros j x Hx.
    pose proof (perm_bound _ _ Hx). rewrite lookup_iota by done.
    rewrite N2Nat.id. f_equal.
    assert ((if decide (j <= N.to_nat 0)%nat then run_head A eps j else j) = j) as ->.
    { case_decide; [|done]. by replace j with 0%nat by lia. }
    apply list_lookup_total_correct in Hx. done.
  - intros k idm Hk. apply merge_step_inv. unfold vsize. lia.
  - exists idm. split; [done|]. split; [done|]. intros j Hj.
    rewrite (Hinv j _ (perm_lookup_total j Hj)).
    rewrite decide_True by lia. done.
Qed.
End Merge.

(** ** Runs of neighbours and the intervals that hold them *)

Section Runs.
Context (A : list Point) (eps : Q) (prs : list (N * N)) (perm : list N).
Hypothesis Hperm : Permutation perm (iota (length A)).
Hypothesis Hok : intervals_ok 0 prs (vsize A).
Hypothesis Hcov :
  forall j, (S j < length A)%nat -> close A eps j = true -> covered prs j.
Hypothesis Hsorted : forall b e, (b, e) ∈ prs -> sorted_on perm b e.

Lemma run_head_interval j :
  (j < length A)%nat ->
  run_head A eps j = j \/
  exists b e, (b, e) ∈ prs /\
    (N.to_nat b <= run_head A eps j)%nat /\ (j < N.to_nat e)%nat.
Proof.
  induction j as [|j IH]; intros Hj; simpl; [by left|].
  destruct (close A eps j) eqn:Hcl; [|by left]. right.
  destruct (Hcov j Hj Hcl) as (b & e & Hin & Hb & He).
  destruct IH as [->|(b' & e' & Hin' & Hb' & He')]; [lia| |].
  - exists b, e. done.
  - assert ((b, e) = (b', e')) as [= <- <-].
    { eapply (intervals_ok_disjoint _ _ _ _ _ _ _ (N.of_nat j)); [done..| |].
      - lia.
      - pose proof (run_head_le A eps j). lia. }
    exists b, e. done.
Qed.

(** The head of a run holds the least original index of the run. *)
Lemma run_head_least j :
  (j < length A)%nat -> perm !!! run_head A eps j <= perm !!! j.
Proof.
  intros Hj. pose proof (run_head_le A eps j) as Hle.
  destruct (run_head_interval j Hj) as [->|(b & e & Hin & Hb & He)]; [lia|].
  destruct (decide (run_head A eps j = j)) as [->|Hne]; [lia|].
  eapply (Hsorted b e Hin (run_head A eps j) j); [done|lia|done|..];
    apply (perm_lookup_total A perm Hperm); lia.
Qed.

Lemma run_head_fixed j :
  (j < length A)%nat ->
  perm !!! run_head A eps j = perm !!! j -> run_head A eps j = j.
Proof.
  intros Hj Heq. pose proof (run_head_le A eps j).
  eapply (NoDup_lookup perm _ _ (perm !!! j)); [apply (perm_NoDup A perm Hperm)| |].
  - rewrite <- Heq. apply (perm_lookup_total A perm Hperm). lia.
  - by apply (perm_lookup_total A perm Hperm).
Qed.

(** A run starts at position [0] or behind a gap wider than [eps]. *)
Lemma run_head_gap j :
  run_head A eps j = j -> j = 0%nat \/ exists j', j = S j' /\ close A eps j' = false.
Proof.
  destruct j as [|j]; [by left|]. simpl. intros Hh. right. exists j.
  split; [done|]. destruct (close A eps j); [|done].
  pose proof (run_head_le A eps j). lia.
Qed.
End Runs.

(** ** The reverse permutation (line 161) *)

Lemma N_leb_total (a b : N) : (a <=? b) = true \/ (b <=? a) = true.
Proof. destruct (N.leb_spec a b), (N.leb_spec b a); auto; lia. Qed.

Lemma N_leb_trans (a b c : N) :
  (a <=? b) = true -> (b <=? c) = true -> (a <=? c) = true.
Proof. rewrite !N.leb_le. lia. Qed.

Lemma StronglySorted_mono {A} (R1 R2 : relation A) (l : list A) :
  (forall x y, R1 x y -> R2 x y) -> StronglySorted R1 l -> StronglySorted R2 l.
Proof.
  intros HR. induction 1 as [|x l Hl IH Hx]; constructor; [done|].
  eapply Forall_impl; [exact Hx|]. intros y. apply HR.
Qed.

Lemma iota_sorted n : StronglySorted N.le (iota n).
Proof.
  unfold iota. generalize 0%nat. induction n as [|n IH]; intros s; simpl;
    constructor; [apply IH|].
  apply Forall_forall. intros x Hx. apply list_elem_of_fmap in Hx as (y & -> & Hy).
  apply elem_of_seq in Hy. lia.
Qed.

(** Sorting a permutation of [0 .. n-1] by its entries, with the points
    as payload, puts the point of sorted position [j] at index [perm[j]]. *)
Lemma reverse_permutation srt (A pv3 : list Point) (perm perm3 : list N) :
  Permutation perm (iota (length A)) ->
  Quicksort srt N.leb perm A = (perm3, pv3) ->
  length pv3 = length A /\
  forall j, (j < length A)%nat ->
    pv3 !! N.to_nat (perm !!! j) = Some (A !!! j).
Proof.
  intros Hperm Hsort.
  assert (length perm = length A) as Hlen by by apply perm_length.
  split; [by rewrite (Quicksort_length_values srt N.leb _ _ _ _ Hlen Hsort)|].
  assert (perm3 = iota (length A)) as ->.
  { apply (StronglySorted_unique N.le).
    - pose proof (Quicksort_sorted srt N.leb _ _ _ _ Hsort N_leb_total N_leb_trans) as Hs.
      eapply StronglySorted_mono; [|exact Hs].
      intros a b. apply N.leb_le.
    - apply iota_sorted.
    - by rewrite (Quicksort_keys srt N.leb _ _ _ _ Hlen Hsort). }
  intros j Hj.
  destruct (Quicksort_pair_lookup srt N.leb _ _ _ _ Hsort j
              (perm !!! j) (A !!! j)) as (t & Ht & Hv).
  - by apply (perm_lookup_total A).
  - by apply list_lookup_lookup_total_lt.
  - pose proof (lookup_lt_Some _ _ _ Ht) as Htl. rewrite length_iota in Htl.
    rewrite lookup_iota in Ht by done. injection Ht as <-.
    by rewrite Nat2N.id.
Qed.

(** ** Deleting the duplicates (lines 163-172) *)

Lemma delete_spec (idm : list N) (pv : list Point) :
  length idm = length pv ->
  exists pv',
    for_loop 0 (vsize pv) (delete_step idm) (map Some pv) = Ok pv' /\
    length pv' = length pv /\
    forall j p, pv !! j = Some p ->
      pv' !! j = Some (if idm !!! j <? N.of_nat j then None else Some p).
Proof.
  intros Hlen.
  destruct (for_loop_inv
    (fun k pv' => length pv' = length pv /\
       forall j p, pv !! j = Some p ->
         pv' !! j = Some (if decide (j < N.to_nat k)%nat
                          then (if idm !!! j <? N.of_nat j then None else Some p)
                          else Some p))
    0 (vsize pv) (delete_step idm) (map Some pv)) as (pv' & Hrun & Hl & Hinv).
  - lia.
  - split; [by rewrite length_map|]. intros j p Hp.
    rewrite decide_False by lia. rewrite list_lookup_fmap, Hp. done.
  - intros k pv' Hk [Hl Hinv]. unfold vsize in Hk. unfold delete_step.
    rewrite (vget_lt idm k) by lia. rewrite bind_Ok.
    destruct (idm !!! N.to_nat k <? k) eqn:Hlt.
    + rewrite (vget_lt pv' k) by lia. rewrite bind_Ok.
      rewrite vset_lt by lia. eexists; split; [done|].
      split; [by rewrite length_insert|]. intros j p Hp.
      destruct (decide (j = N.to_nat k)) as [->|Hne].
      * rewrite list_lookup_insert_eq by lia. rewrite decide_True by lia.
        by rewrite N2Nat.id, Hlt.
      * rewrite list_lookup_insert_ne by done. rewrite (Hinv j p Hp).
        repeat case_decide; try done; lia.
    + eexists; split; [done|]. split; [done|]. intros j p Hp.
      rewrite (Hinv j p Hp).
      destruct (decide (j = N.to_nat k)) as [->|Hne].
      * rewrite decide_False, decide_True by lia. by rewrite N2Nat.id, Hlt.
      * repeat case_decide; try done; lia.
  - exists pv'. split; [done|]. split; [done|]. intros j p Hp.
    rewrite (Hinv j p Hp). rewrite decide_True; [done|].
    apply lookup_lt_Some in Hp. unfold vsize. lia.
Qed.

Lemma survivors_S idm k :
  survivors idm (S k)
  = survivors idm k ++ (if decide (idm !!! k = N.of_nat k) then [k] else []).
Proof.
  unfold survivors. rewrite seq_S, filter_app. reflexivity.
Qed.

Lemma remove_nullptr_spec (idm : list N) (pv : list Point)
    (pv' : list (option Point)) :
  (forall j, (j < length pv)%nat -> idm !!! j <= N.of_nat j) ->
  length pv' = length pv ->
  (forall j p, pv !! j = Some p ->
     pv' !! j = Some (if idm !!! j <? N.of_nat j then None else Some p)) ->
  remove_nullptr pv' = map (fun j => pv !!! j) (survivors idm (length pv)).
Proof.
  intros Hle Hl Hpv'. unfold remove_nullptr.
  assert (pv' = map (fun j => if decide (idm !!! j = N.of_nat j)
                              then Some (pv !!! j) else None)
                  (seq 0 (length pv))) as ->.
  { apply list_eq_same_length with (length pv);
      [by rewrite length_map, length_seq|done|].
    intros j x y Hj Hx Hy. rewrite list_lookup_fmap, lookup_seq_lt in Hy by done.
    injection Hy as <-.
    rewrite (Hpv' j (pv !!! j)) in Hx by (by apply list_lookup_lookup_total_lt).
    injection Hx as <-. specialize (Hle j Hj).
    destruct (N.ltb_spec (idm !!! j) (N.of_nat j)); case_decide; try done; lia. }
  unfold survivors. generalize (seq 0 (length pv)). intros l.
  induction l as [|j l IH]; [done|].
  rewrite filter_cons. cbn [map].
  destruct (decide (idm !!! j = N.of_nat j)); cbn [map]; rewrite <- IH; done.
Qed.

(** ** Renumbering (lines 174-183) *)

Lemma renumber_spec (idm : list N) :
  (forall j, (j < length idm)%nat -> idm !!! j <= N.of_nat j) ->
  exists idm' id,
    for_loop 0 (vsize idm) renumber_step (idm, 0) = Ok (idm', id) /\
    length idm' = length idm /\
    id = N.of_nat (length (survivors idm (length idm))) /\
    Forall (fun v => v < id) idm'.
Proof.
  intros Hle.
  destruct (for_loop_inv
    (fun k st =>
       length (fst st) = length idm /\
       snd st = N.of_nat (length (survivors idm (N.to_nat k))) /\
       (forall j v, (j < N.to_nat k)%nat -> fst st !! j = Some v -> v < snd st) /\
       (forall j, (N.to_nat k <= j)%nat -> fst st !! j = idm !! j))
    0 (vsize idm) renumber_step (idm, 0))
    as ([idm' id] & Hrun & Hl & Hid & Hval & _).
  - lia.
  - simpl. split; [done|]. split; [done|]. split; [intros; lia|done].
  - intros k [idm' id] Hk (Hl & Hid & Hval & Hrest). simpl in *.
    unfold vsize in Hk. unfold renumber_step.
    assert (idm' !! N.to_nat k = Some (idm !!! N.to_nat k)) as Hv.
    { rewrite Hrest by lia. apply list_lookup_lookup_total_lt. lia. }
    rewrite (vget_lookup idm' k _ Hv), bind_Ok.
    replace (N.to_nat (k + 1)) with (S (N.to_nat k)) by lia.
    rewrite survivors_S.
    specialize (Hle (N.to_nat k) ltac:(lia)).
    destruct (N.eqb_spec (idm !!! N.to_nat k) k) as [Heq|Hne].
    + rewrite vset_lt by lia. rewrite bind_Ok. eexists; split; [done|]. simpl.
      split; [by rewrite length_insert|].
      rewrite decide_True by lia. rewrite length_app. simpl.
      split; [lia|]. split.
      * intros j v Hj Hjv. destruct (decide (j = N.to_nat k)) as [->|].
        -- rewrite list_lookup_insert_eq in Hjv by lia. injection Hjv as <-. lia.
        -- rewrite list_lookup_insert_ne in Hjv by done.
           specialize (Hval j v ltac:(lia) Hjv). lia.
      * intros j Hj. rewrite list_lookup_insert_ne by lia. apply Hrest. lia.
    + assert (idm !!! N.to_nat k < k) as Hlt by lia.
      assert (exists w, idm' !! N.to_nat (idm !!! N.to_nat k) = Some w) as [w Hw].
      { apply lookup_lt_is_Some_2. lia. }
      rewrite (vget_lookup idm' _ _ Hw), bind_Ok.
      rewrite vset_lt by lia. rewrite bind_Ok. eexists; split; [done|]. simpl.
      split; [by rewrite length_insert|].
      rewrite decide_False by lia. rewrite app_nil_r.
      split; [done|]. split.
      * intros j v Hj Hjv. destruct (decide (j = N.to_nat k)) as [->|].
        -- rewrite list_lookup_insert_eq in Hjv by lia. injection Hjv as <-.
           eapply Hval; [|exact Hw]. lia.
        -- rewrite list_lookup_insert_ne in Hjv by done.
           eapply (Hval j); [lia|done].
      * intros j Hj. rewrite list_lookup_insert_ne by lia. apply Hrest. lia.
  - exists idm', id. simpl in *. split; [done|]. split; [done|].
    unfold vsize in Hid. rewrite Nat2N.id in Hid. split; [done|].
    apply Forall_forall. intros v Hv. apply list_elem_of_lookup in Hv as [j Hj].
    eapply (Hval j); [|done]. apply lookup_lt_Some in Hj. unfold vsize. lia.
Qed.

(** ** The whole of [makePntsUnique] *)

Lemma point_sorted srt pts A perm0 :
  Quicksort srt point_le pts (iota (length pts)) = (A, perm0) ->
  StronglySorted (fun p q => point_le p q = true) A.
Proof.
  intros HQ.
  apply (Quicksort_sorted srt point_le _ _ _ _ HQ point_le_total point_le_trans).
Qed.

Lemma idm4_le (A : list Point) (eps : Q) (perm idm4 : list N) :
  Permutation perm (iota (length A)) ->
  length idm4 = length A ->
  (forall j, (j < length A)%nat ->
     idm4 !! N.to_nat (perm !!! j) = Some (perm !!! run_head A eps j)) ->
  (forall j, (j < length A)%nat -> perm !!! run_head A eps j <= perm !!! j) ->
  forall i, (i < length A)%nat -> idm4 !!! i <= N.of_nat i.
Proof.
  intros Hperm Hlen Hhead Hleast i Hi.
  destruct (perm_surjective A perm Hperm i Hi) as [j Hj].
  pose proof (lookup_lt_Some _ _ _ Hj) as Hjl.
  rewrite (perm_length A perm Hperm) in Hjl.
  pose proof (list_lookup_total_correct _ _ _ Hj) as Hj'.
  specialize (Hhead j Hjl). specialize (Hleast j Hjl).
  rewrite Hj', Nat2N.id in Hhead.
  apply list_lookup_total_correct in Hhead. rewrite Hhead. by rewrite <- Hj'.
Qed.

Theorem makePntsUnique_run srt pts eps :
  (1 <= length pts)%nat ->
  exists t canon idm,
    makePntsUnique srt pts eps = Ok (canon, idm) /\
    dedup_run srt pts eps t canon idm.
Proof.
  intros Hn. unfold makePntsUnique.
  destruct (Quicksort srt point_le pts (iota (length pts))) as [A perm0] eqn:HQ1.
  assert (length pts = length (iota (length pts))) as Hl0 by by rewrite length_iota.
  pose proof (Quicksort_length_keys srt point_le _ _ _ _ Hl0 HQ1) as HlA.
  pose proof (Quicksort_values srt point_le _ _ _ _ Hl0 HQ1) as Hperm0.
  assert (vsize pts = vsize A) as Hsz by (unfold vsize; by rewrite HlA).
  rewrite Hsz.
  (* the scan *)
  destruct (scan_spec A eps ltac:(lia)) as (ivl & ident & prs & -> & Hflat & Hok & Hcov).
  rewrite bind_Ok. cbv beta iota. rewrite Hflat.
  (* the bubble sort *)
  assert (vsize perm0 = vsize A) as Hsz0.
  { unfold vsize. by rewrite (Permutation_length Hperm0), length_iota, HlA. }
  destruct (bubble_phase_spec prs perm0 ltac:(by rewrite Hsz0))
    as (perm & -> & Hperm & Hsorted).
  rewrite bind_Ok.
  assert (Permutation perm (iota (length A))) as Hperm'
    by (by rewrite Hperm, Hperm0, HlA).
  (* the merge *)
  rewrite <- HlA.
  destruct (merge_spec A eps perm Hperm' ltac:(lia)) as (idm4 & -> & Hl4 & Hhead).
  rewrite bind_Ok.
  pose proof (run_head_least A eps prs perm Hperm' Hok Hcov Hsorted) as Hleast.
  (* the reverse permutation *)
  destruct (Quicksort srt N.leb perm A) as [perm3 pv3] eqn:HQ2.
  destruct (reverse_permutation srt A pv3 perm perm3 Hperm' HQ2) as [Hl3 Hpv3].
  (* the deletion *)
  assert (vsize A = vsize pv3) as -> by (unfold vsize; by rewrite Hl3).
  destruct (delete_spec idm4 pv3 ltac:(lia)) as (pv' & -> & Hl' & Hpv').
  rewrite bind_Ok.
  pose proof (idm4_le A eps perm idm4 Hperm' Hl4 Hhead Hleast) as Hle.
  rewrite (remove_nullptr_spec idm4 pv3 pv')
    by (try done; intros j Hj; apply Hle; lia).
  (* the renumbering *)
  assert (vsize pv3 = vsize idm4) as -> by (unfold vsize; by rewrite Hl3, Hl4).
  destruct (renumber_spec idm4 ltac:(by rewrite Hl4)) as (idm & id & -> & Hli & Hid & Hval).
  rewrite bind_Ok. exists (mkTrace A perm0 perm idm4 pv3). eexists _, _.
  split; [done|]. constructor; simpl; try done.
  - by rewrite Hl3.
  - lia.
  - unfold vsize. rewrite length_map, Hl3, <- Hl4, <- Hid. done.
Qed.

(** ** Empty input *)

Lemma Quicksort_nil srt {K V} (le : K -> K -> bool) :
  Quicksort srt le (@nil K) (@nil V) = ([], []).
Proof.
  unfold Quicksort. simpl.
  pose proof (sort_pairs_perm srt K V le []) as H.
  apply Permutation_nil_r in H. by rewrite H.
Qed.

Lemma makePntsUnique_nil srt eps :
  makePntsUnique srt [] eps = Err OutOfBounds.
Proof.
  unfold makePntsUnique. simpl length. unfold iota. simpl seq. simpl map.
  rewrite Quicksort_nil. rewrite for_loop_unroll by (by vm_compute).
  reflexivity.
Qed.

Lemma makePntsUnique_Ok_nonempty srt pts eps r :
  makePntsUnique srt pts eps = Ok r -> (1 <= length pts)%nat.
Proof.
  destruct pts; simpl; [|lia]. by rewrite makePntsUnique_nil.
Qed.

(** ** Which points survive *)

Lemma survivors_NoDup idm k : NoDup (survivors idm k).
Proof. apply NoDup_filter, NoDup_seq. Qed.

Lemma survivors_elem idm k j :
  j ∈ survivors idm k <-> idm !!! j = N.of_nat j /\ (j < k)%nat.
Proof.
  unfold survivors. rewrite list_elem_of_filter, elem_of_seq.
  split; intros [? ?]; split; try done; lia.
Qed.

(** A canonical point is the point at the head of a run of the sorted
    vector. *)
Lemma canonical_is_head srt pts eps t canon idm (i : nat) p :
  dedup_run srt pts eps t canon idm ->
  canon !! i = Some p ->
  exists s j,
    survivors (tr_idm4 t) (length (tr_A t)) !! i = Some s /\
    tr_perm t !! j = Some (N.of_nat s) /\
    run_head (tr_A t) eps j = j /\
    tr_A t !! j = Some p.
Proof.
  intros Hrun Hp.
  destruct Hrun as [HQ HlA Hperm Hl4 Hhead Hleast Hl3 Hpv3 Hcanon Hli Hval].
  subst canon.
  rewrite list_lookup_fmap in Hp.
  destruct (survivors (tr_idm4 t) (length (tr_A t)) !! i) as [s|] eqn:Hs;
    [|done].
  injection Hp as <-.
  pose proof (list_elem_of_lookup_2 _ _ _ Hs) as Hin.
  apply survivors_elem in Hin as [Hfix Hlt].
  destruct (perm_surjective _ _ Hperm s Hlt) as [j Hj].
  pose proof (lookup_lt_Some _ _ _ Hj) as Hjl.
  rewrite (perm_length _ _ Hperm) in Hjl.
  pose proof (list_lookup_total_correct _ _ _ Hj) as Hj'.
  exists s, j. split; [done|]. split; [done|].
  pose proof (Hhead j Hjl) as Hh. rewrite Hj', Nat2N.id in Hh.
  apply list_lookup_total_correct in Hh.
  assert (run_head (tr_A t) eps j = j) as Hfixed.
  { apply (run_head_fixed _ _ _ Hperm); [done|]. by rewrite <- Hh, Hj'. }
  split; [done|].
  pose proof (Hpv3 j Hjl) as Hpv. rewrite Hj', Nat2N.id in Hpv.
  apply list_lookup_total_correct in Hpv. rewrite Hpv.
  by apply list_lookup_lookup_total_lt.
Qed.

Lemma sorted_point_le (A : list Point) (j k : nat) p q :
  StronglySorted (fun p q => point_le p q = true) A ->
  (j <= k)%nat -> A !! j = Some p -> A !! k = Some q -> point_le p q = true.
Proof.
  intros HA Hjk Hp Hq. destruct (decide (j = k)) as [->|Hne].
  - rewrite Hp in Hq. injection Hq as <-. apply point_le_refl.
  - apply (StronglySorted_lookup (fun p q => point_le p q = true) A j k p q);
      [done|lia|done..].
Qed.

(** Two canonical points, the first not after the second in the sorted
    vector: the second one follows a gap wider than [eps], and the first
    is not behind that gap. *)
Lemma heads_separated (A : list Point) (eps : Q) (j1 j2 : nat) p q :
  StronglySorted (fun p q => point_le p q = true) A ->
  (j1 < j2)%nat -> run_head A eps j2 = j2 ->
  A !! j1 = Some p -> A !! j2 = Some q ->
  exists k a, A !! k = Some a /\ A !! S k = Some q /\
    point_le p a = true /\ within eps q a = false.
Proof.
  intros HA Hlt Hh2 Hp Hq.
  destruct (run_head_gap A eps j2 Hh2) as [->|(j' & -> & Hcl)]; [lia|].
  assert (j' < length A)%nat as Hj' by (apply lookup_lt_Some in Hq; lia).
  exists j', (A !!! j'). split; [by apply list_lookup_lookup_total_lt|].
  split; [done|]. split.
  - eapply (sorted_point_le A j1 j'); [done|lia|done|].
    by apply list_lookup_lookup_total_lt.
  - unfold close in Hcl. by rewrite (list_lookup_total_correct _ _ _ Hq) in Hcl.
Qed.

(** ** The name map *)

Lemma map_find_assign_eq name id m :
  map_find name (map_assign name id m) = Some id.
Proof.
  induction m as [|[k v] r IH]; simpl.
  - by rewrite String.eqb_refl.
  - destruct (String.compare name k) eqn:Hc; simpl.
    + by rewrite String.eqb_refl.
    + by rewrite String.eqb_refl.
    + destruct (String.eqb_spec name k) as [->|_]; [|done].
      pose proof (String.compare_antisym k k) as Hanti.
      rewrite Hc in Hanti. discriminate.
Qed.

Lemma map_find_assign_ne name other id m :
  other <> name ->
  map_find other (map_assign name id m) = map_find other m.
Proof.
  intros Hne. induction m as [|[k v] r IH]; simpl.
  - by destruct (String.eqb_spec other name).
  - destruct (String.compare name k) eqn:Hc; simpl.
    + apply String.compare_eq_iff in Hc as <-.
      by destruct (String.eqb_spec other name).
    + by destruct (String.eqb_spec other name).
    + by rewrite IH.
Qed.

(** ** Incremental insertion *)

Lemma find_if_within_Some eps pnt v i :
  find_if_within eps pnt v = Some i ->
  exists p, v !! N.to_nat i = Some p /\ within eps p pnt = true /\
    forall j q, (j < N.to_nat i)%nat -> v !! j = Some q ->
                within eps q pnt = false.
Proof.
  revert i; induction v as [|p r IH]; intros i; simpl; [done|].
  destruct (within eps p pnt) eqn:Hw.
  - intros [= <-]. exists p. split; [done|]. split; [done|]. intros; lia.
  - destruct (find_if_within eps pnt r) as [i'|]; simpl; [|done].
    intros [= <-]. destruct (IH i' eq_refl) as (p' & Hp' & Hw' & Hfirst).
    exists p'. replace (N.to_nat (N.succ i')) with (S (N.to_nat i')) by lia.
    split; [done|]. split; [done|].
    intros [|j] q Hj Hq; simpl in Hq; [by injection Hq as <-|].
    eapply (Hfirst j); [lia|done].
Qed.

Lemma find_if_within_None eps pnt v :
  find_if_within eps pnt v = None ->
  forall j q, v !! j = Some q -> within eps q pnt = false.
Proof.
  induction v as [|p r IH]; simpl; [done|].
  destruct (within eps p pnt) eqn:Hw; [done|].
  destruct (find_if_within eps pnt r); simpl; [done|].
  intros _ [|j] q Hq; simpl in Hq; [by injection Hq as <-|]. by eapply IH.
Qed.

Lemma find_if_within_is_Some eps pnt v i p :
  v !! i = Some p -> within eps p pnt = true ->
  is_Some (find_if_within eps pnt v).
Proof.
  intros Hp Hw. destruct (find_if_within eps pnt v) eqn:Hf; [done|].
  by rewrite (find_if_within_None _ _ _ Hf i p Hp) in Hw.
Qed.

(** [uniqueInsert] when the point is already present. *)
Lemma uniqueInsert_found pv pnt i :
  find_if_within (rel_eps pv) pnt (data_vec pv) = Some i ->
  uniqueInsert pv pnt = (i, pv).
Proof. unfold uniqueInsert. by intros ->. Qed.

(** The id that [uniqueInsert] returns is an index of the canonical
    points, which have not shrunk. *)
Lemma uniqueInsert_spec pv pnt id pv' :
  uniqueInsert pv pnt = (id, pv') ->
  id < vsize (data_vec pv') /\
  (data_vec pv' = data_vec pv \/ data_vec pv' = data_vec pv ++ [pnt]) /\
  name_id_map pv' = name_id_map pv /\
  id_to_name_map pv' = id_to_name_map pv /\
  pnt_id_map pv' = pnt_id_map pv /\
  rel_eps pv' = rel_eps pv /\
  warnings pv' = warnings pv.
Proof.
  unfold uniqueInsert.
  destruct (find_if_within (rel_eps pv) pnt (data_vec pv)) as [i|] eqn:Hf.
  - intros [= <- <-]. split; [|by auto 10].
    destruct (find_if_within_Some _ _ _ _ Hf) as (p & Hp & _).
    apply lookup_lt_Some in Hp. unfold vsize. lia.
  - intros [= <- <-]. simpl. split; [|by auto 10].
    unfold vsize. rewrite length_app. simpl. rewrite size_sub_le by lia. lia.
Qed.

Lemma push_back_eq pv pnt :
  push_back pv pnt
  = Ok (fst (uniqueInsert pv pnt),
        record_insert (snd (uniqueInsert pv pnt))
          (fst (uniqueInsert pv pnt)) EmptyString).
Proof.
  unfold push_back. destruct (uniqueInsert pv pnt) as [id pv']. simpl.
  unfold vsize. rewrite length_app. simpl. rewrite size_sub_le by lia.
  rewrite (vget_lookup _ _ id); [done|].
  replace (N.to_nat (N.of_nat (length (pnt_id_map pv') + 1) - 1))
    with (length (pnt_id_map pv')) by lia.
  apply list_lookup_middle. done.
Qed.

(** ** The sort of keys that are already apart *)

Section QuicksortUnique.
Context (srt : Sorter) {K V : Type} (le : K -> K -> bool).
Hypothesis le_total : forall a b, le a b = true \/ le b a = true.
Hypothesis le_trans :
  forall a b c, le a b = true -> le b c = true -> le a c = true.

Let key_le (x y : K * V) : Prop := le (fst x) (fst y) = true.
Let key_lt (x y : K * V) : Prop :=
  le (fst x) (fst y) = true /\ le (fst y) (fst x) = false.

Lemma key_lt_unique (l : list (K * V)) x y :
  StronglySorted key_lt l -> x ∈ l -> y ∈ l ->
  key_le x y -> key_le y x -> x = y.
Proof.
  induction 1 as [|z l Hl IH Hz]; intros Hx Hy Hxy Hyx.
  - by apply elem_of_nil in Hx.
  - rewrite Forall_forall in Hz. unfold key_le, key_lt in *.
    apply elem_of_cons in Hx as [->|Hx]; apply elem_of_cons in Hy as [->|Hy];
      [done| | |by apply IH].
    + destruct (Hz _ Hy). congruence.
    + destruct (Hz _ Hx). congruence.
Qed.

(** When the keys of the pairs [zs] are strictly ascending, every sort of
    a rearrangement of [zs] returns [zs]. *)
Lemma sort_pairs_unique (l zs : list (K * V)) :
  Permutation zs l -> StronglySorted key_lt zs ->
  sort_pairs srt K V le l = zs.
Proof.
  intros Hperm Hzs.
  apply (StronglySorted_unique_strong key_le).
  - intros x y Hx Hy. apply (key_lt_unique zs); [done| |done].
    by rewrite Hperm, <- (sort_pairs_perm srt K V le l).
  - by apply sort_pairs_sorted.
  - eapply StronglySorted_mono; [|exact Hzs]. by intros x y [? _].
  - by rewrite sort_pairs_perm.
Qed.

Lemma Quicksort_unique (ks ks' : list K) (vs vs' : list V) :
  length ks' = length vs' ->
  Permutation (combine ks' vs') (combine ks vs) ->
  StronglySorted key_lt (combine ks' vs') ->
  Quicksort srt le ks vs = (ks', vs').
Proof.
  intros Hlen Hperm Hs. unfold Quicksort.
  rewrite (sort_pairs_unique _ (combine ks' vs')) by done.
  by rewrite map_fst_combine, map_snd_combine.
Qed.
End QuicksortUnique.

(** ** The constructor *)

Lemma PointVec_new_inv srt sqrt points names rel pv :
  PointVec_new srt sqrt points names rel = Ok pv ->
  exists box names' id_names,
    AABB_range points = Ok box /\
    makePntsUnique srt points (tolerance sqrt box rel)
      = Ok (data_vec pv, pnt_id_map pv) /\
    correctNameIDMapping (pnt_id_map pv) names = Ok names' /\
    foldM record_name (replicate (length (data_vec pv)) EmptyString) names'
      = Ok id_names /\
    aabb pv = box /\
    rel_eps pv = tolerance sqrt box rel /\
    name_id_map pv = names' /\
    id_to_name_map pv = id_names /\
    warnings pv =
      (if vsize (data_vec pv) <? vsize points
       then [WarnDoublePoints (size_sub (vsize points) (vsize (data_vec pv)))]
       else []).
Proof.
  unfold PointVec_new.
  destruct (AABB_range points) as [box|] eqn:Hbox; [|done]. rewrite bind_Ok.
  fold (tolerance sqrt box rel).
  destruct (makePntsUnique srt points (tolerance sqrt box rel))
    as [[canon idm]|] eqn:Hrun; [|done]. rewrite bind_Ok. cbv beta iota.
  destruct (correctNameIDMapping idm names) as [names'|] eqn:Hnames; [|done].
  rewrite bind_Ok.
  destruct (foldM record_name (replicate (length canon) EmptyString) names')
    as [id_names|] eqn:Hid; [|done].
  rewrite bind_Ok. intros [= <-]. simpl. exists box, names', id_names.
  repeat split; done.
Qed.

(** ** Sequences of inserts *)





Lemma PointVec_new_id_map srt sqrt points names rel pv :
  PointVec_new srt sqrt points names rel = Ok pv ->
  length (pnt_id_map pv) = length points /\ id_map_valid pv /\
  (length (data_vec pv) <= length points)%nat /\
  rejected_inserts (warnings pv) = 0%nat.
Proof.
  intros Hnew.
  destruct (PointVec_new_inv _ _ _ _ _ _ Hnew)
    as (box & names' & id_names & _ & Hrun & _ & _ & _ & _ & _ & _ & Hw).
  pose proof (makePntsUnique_Ok_nonempty _ _ _ _ Hrun) as Hn.
  destruct (makePntsUnique_run srt points (tolerance sqrt box rel) Hn)
    as (t & canon & idm & Hrun' & Hfacts).
  rewrite Hrun in Hrun'. injection Hrun' as <- <-.
  split; [apply (dr_idm_length _ _ _ _ _ _ Hfacts)|].
  split; [apply (dr_idm_valid _ _ _ _ _ _ Hfacts)|].
  split.
  - rewrite (dr_canon _ _ _ _ _ _ Hfacts), length_map.
    unfold survivors. etrans; [apply length_filter|].
    rewrite length_seq. by rewrite (dr_length_A _ _ _ _ _ _ Hfacts).
  - rewrite Hw. by destruct (_ <? _).
Qed.

(** ** Scenario A *)

Lemma within_true eps p q :
  (maxNormDist p q <= eps)%Q -> within eps p q = true.
Proof. intros H. by apply Qle_bool_iff. Qed.

Lemma within_false eps p q :
  (eps < maxNormDist p q)%Q -> within eps p q = false.
Proof.
  intros H. unfold within. destruct (Qle_bool _ _) eqn:E; [|done].
  apply Qle_bool_iff in E. lra.
Qed.

Lemma scenario_A_dedup (srt : Sorter) (tol : Q) :
  (1 # 10000 <= tol)%Q -> (tol < 5)%Q ->
  makePntsUnique srt [P 0 0 0; P 0 0 (1 # 10000); P 5 5 5] tol
  = Ok ([P 0 0 0; P 5 5 5], [0; 0; 1]).
Proof.
  intros Hlo Hhi.
  assert (within tol (P 0 0 (1 # 10000)) (P 0 0 0) = true) as H1.
  { apply within_true.
    let v := eval vm_compute in (maxNormDist (P 0 0 (1 # 10000)) (P 0 0 0)) in
    change (maxNormDist (P 0 0 (1 # 10000)) (P 0 0 0)) with v.
    lra. }
  assert (within tol (P 5 5 5) (P 0 0 (1 # 10000)) = false) as H2.
  { apply within_false.
    let v := eval vm_compute in (maxNormDist (P 5 5 5) (P 0 0 (1 # 10000))) in
    change (maxNormDist (P 5 5 5) (P 0 0 (1 # 10000))) with v.
    lra. }
  unfold makePntsUnique.
  rewrite (Quicksort_unique srt point_le point_le_total point_le_trans
             _ [P 0 0 0; P 0 0 (1 # 10000); P 5 5 5] _ [0; 1; 2]);
    [| done | done |].
  2:{ repeat constructor. }
  unfold P in H1, H2.
  do 4 (cbv -[Quicksort within]; rewrite ?H1, ?H2).
  rewrite (Quicksort_unique srt N.leb N_leb_total N_leb_trans
             _ [0; 1; 2] _ [P 0 0 0; P 0 0 (1 # 10000); P 5 5 5]);
    [| done | done |].
  2:{ repeat constructor. }
  reflexivity.
Qed.

(** ** Concrete registries *)

Definition gap_registry : PointVec :=
  Eval vm_compute in
    registry_of (PointVec_new insertion_sorter sqrt_6 gap_points []
                   (2 # 1000)).

(** One point named "A". *)
Definition named_registry : PointVec :=
  Eval vm_compute in
    registry_of (PointVec_new insertion_sorter sqrt_6 [P 5 5 5]
                   [("A"%string, 0)] (1 # 100)).

Definition far_duplicate_registry : PointVec :=
  Eval vm_compute in
    registry_of (PointVec_new insertion_sorter sqrt_6 far_duplicate_points []
                   (1 # 1000)).

(** ** Construction succeeds *)

Lemma foldM_inv {A St} (I : St -> Prop) (f : St -> A -> result St)
    (l : list A) (s : St) :
  I s ->
  (forall s a, a ∈ l -> I s -> exists s', f s a = Ok s' /\ I s') ->
  exists s', foldM f s l = Ok s' /\ I s'.
Proof.
  revert s; induction l as [|a l IH]; intros s Hs Hstep; simpl.
  - by exists s.
  - destruct (Hstep s a) as (s1 & -> & Hs1); [by left|done|].
    apply IH; [done|]. intros s2 b Hb. apply Hstep. by right.
Qed.

(** Filling a table of names indexed by id (lines 190-192 and 52-54). *)
Lemma record_names_Ok (n : nat) (m : name_id_map_t) :
  Forall (fun entry => snd entry < N.of_nat n) m ->
  exists id_names,
    foldM record_name (replicate n EmptyString) m = Ok id_names /\
    length id_names = n.
Proof.
  intros Hm. apply (foldM_inv (fun t => length t = n)).
  - apply length_replicate.
  - intros t [name id] Hin Ht. rewrite Forall_forall in Hm.
    specialize (Hm _ Hin). simpl in Hm. unfold record_name. simpl.
    rewrite vset_lt by lia. eexists. split; [done|]. by rewrite length_insert.
Qed.

(** Name reconciliation reads inside its vectors when the names point at
    original indices, and leaves names that point at canonical ids. *)
Lemma correctNameIDMapping_Ok (idm : list N) (m : name_id_map_t) (bound : N) :
  Forall (fun v => v < bound) idm ->
  bound <= vsize idm ->
  Forall (fun entry => snd entry < vsize idm) m ->
  exists m',
    correctNameIDMapping idm m = Ok m' /\
    Forall (fun entry => snd entry < bound) m'.
Proof.
  intros Hvalid Hbound Hm. unfold correctNameIDMapping.
  destruct (record_names_Ok (length idm) m Hm) as (id_names & -> & Hlen).
  rewrite bind_Ok.
  destruct (foldM_inv (St := name_id_map_t)
              (fun visited => Forall (fun entry => snd entry < bound) visited)
              (correct_entry idm id_names) m [])
    as (visited & -> & Hvisited).
  - constructor.
  - intros visited [name id] Hin Hv. rewrite Forall_forall in Hm.
    specialize (Hm _ Hin). unfold vsize in Hm, Hbound. simpl in Hm.
    unfold correct_entry. simpl.
    rewrite (vget_lt idm id) by lia. rewrite bind_Ok.
    assert (idm !!! N.to_nat id < bound) as Hb.
    { rewrite Forall_forall in Hvalid. apply Hvalid.
      apply list_elem_of_lookup_total_2. lia. }
    destruct (N.eqb_spec (idm !!! N.to_nat id) id) as [Heq|Hne].
    + eexists. split; [done|]. constructor; [|done]. simpl. lia.
    + rewrite (vget_lt idm (idm !!! N.to_nat id)) by lia. rewrite bind_Ok.
      destruct (_ =? _).
      * rewrite (vget_lt id_names (idm !!! N.to_nat id)) by lia.
        rewrite bind_Ok. destruct (negb _).
        -- eexists. split; [done|]. done.
        -- eexists. split; [done|]. by constructor.
      * eexists. split; [done|]. by constructor.
  - rewrite bind_Ok. eexists. split; [done|].
    apply Forall_forall. intros x Hx. rewrite Forall_forall in Hvisited.
    apply Hvisited. apply list_elem_of_In, in_rev. by apply list_elem_of_In.
Qed.

(** Construction returns a registry for every non-empty input whose
    names point at input positions. The names of the registry point at
    canonical points. *)
Theorem PointVec_new_total (srt : Sorter) (sqrt : Q -> Q)
    (points : list Point) (names : name_id_map_t) (rel : Q) :
  points <> [] ->
  Forall (fun entry => snd entry < vsize points) names ->
  exists pv,
    PointVec_new srt sqrt points names rel = Ok pv /\
    Forall (fun entry => snd entry < vsize (data_vec pv)) (name_id_map pv) /\
    length (id_to_name_map pv) = length (data_vec pv).
Proof.
  intros Hne Hnames. unfold PointVec_new.
  destruct points as [|p0 rest] eqn:Hpts; [done|]. rewrite <- Hpts in *.
  assert (exists box, AABB_range points = Ok box) as [box ->]
    by (rewrite Hpts; by eexists).
  rewrite bind_Ok.
  destruct (makePntsUnique_run srt points
              (rel * sqrt (sqrDist (getMinPoint box) (getMaxPoint box)))%Q)
    as (t & canon & idm & -> & Hrun).
  { rewrite Hpts. simpl. lia. }
  rewrite bind_Ok. cbv beta iota zeta.
  pose proof (dr_idm_length _ _ _ _ _ _ Hrun) as Hl.
  pose proof (dr_idm_valid _ _ _ _ _ _ Hrun) as Hv.
  assert (length canon <= length points)%nat as Hc.
  { rewrite (dr_canon _ _ _ _ _ _ Hrun), length_map.
    unfold survivors. etrans; [apply length_filter|].
    rewrite length_seq. by rewrite (dr_length_A _ _ _ _ _ _ Hrun). }
  destruct (correctNameIDMapping_Ok idm names (vsize canon))
    as (names' & -> & Hnames'); [done|unfold vsize; lia| |].
  { unfold vsize in *. by rewrite Hl. }
  rewrite bind_Ok.
  destruct (record_names_Ok (length canon) names' Hnames')
    as (id_names & -> & Hid).
  rewrite bind_Ok. eexists. split; [done|]. simpl. done.
Qed.


(** ** Canonical points are apart in the sorted order *)

(** Two canonical points are kept apart by a gap of the sorted vector. *)
Lemma makePntsUnique_gap srt pts eps canon idm (i j : nat) p q :
  makePntsUnique srt pts eps = Ok (canon, idm) ->
  i <> j -> canon !! i = Some p -> canon !! j = Some q ->
  exists k a,
    sorted_points srt pts !! k = Some a /\
    ((sorted_points srt pts !! S k = Some q /\
      point_le p a = true /\ within eps q a = false) \/
     (sorted_points srt pts !! S k = Some p /\
      point_le q a = true /\ within eps p a = false)).
Proof.
  intros Hrun Hij Hp Hq.
  pose proof (makePntsUnique_Ok_nonempty _ _ _ _ Hrun) as Hn.
  destruct (makePntsUnique_run srt pts eps Hn)
    as (t & canon' & idm' & Hrun' & Hfacts).
  rewrite Hrun in Hrun'. injection Hrun' as <- <-.
  destruct (canonical_is_head _ _ _ _ _ _ _ _ Hfacts Hp)
    as (s1 & j1 & Hs1 & Hj1 & Hh1 & HA1).
  destruct (canonical_is_head _ _ _ _ _ _ _ _ Hfacts Hq)
    as (s2 & j2 & Hs2 & Hj2 & Hh2 & HA2).
  assert (s1 <> s2) as Hs.
  { intros ->. apply Hij.
    by eapply (NoDup_lookup _ i j s2); [apply survivors_NoDup|..]. }
  assert (j1 <> j2) as Hj
    by (intros ->; rewrite Hj1 in Hj2; injection Hj2 as Heq; lia).
  pose proof (point_sorted _ _ _ _ (dr_sorted _ _ _ _ _ _ Hfacts)) as HA.
  assert (sorted_points srt pts = tr_A t) as ->
    by (unfold sorted_points; by rewrite (dr_sorted _ _ _ _ _ _ Hfacts)).
  destruct (decide (j1 < j2)%nat) as [Hlt|Hge].
  - destruct (heads_separated _ _ _ _ _ _ HA Hlt Hh2 HA1 HA2)
      as (k & a & Ha & Hk & Hle & Hw).
    exists k, a. split; [done|]. left. done.
  - assert (j2 < j1)%nat as Hlt by lia.
    destruct (heads_separated _ _ _ _ _ _ HA Hlt Hh1 HA2 HA1)
      as (k & a & Ha & Hk & Hle & Hw).
    exists k, a. split; [done|]. right. done.
Qed.

Lemma sorted_points_sorted srt pts :
  StronglySorted (fun p q => point_le p q = true) (sorted_points srt pts).
Proof.
  unfold sorted_points.
  destruct (Quicksort srt point_le pts (iota (length pts))) as [A perm0] eqn:HQ.
  by apply (point_sorted srt pts A perm0).
Qed.

(** With a tolerance that is not negative, no two canonical points are
    the same point: the order tells them apart. *)
Lemma makePntsUnique_distinct srt pts eps canon idm (i j : nat) p q :
  (0 <= eps)%Q ->
  makePntsUnique srt pts eps = Ok (canon, idm) ->
  i <> j -> canon !! i = Some p -> canon !! j = Some q ->
  point_le p q = false \/ point_le q p = false.
Proof.
  intros Heps Hrun Hij Hp Hq.
  assert (forall k a b x,
            sorted_points srt pts !! k = Some a ->
            sorted_points srt pts !! S k = Some b ->
            point_le x a = true -> within eps b a = false ->
            point_le b x = false) as Hgap.
  { intros k a b x Ha Hb Hxa Hw.
    pose proof (sorted_point_le _ k (S k) a b (sorted_points_sorted srt pts)
                  ltac:(lia) Ha Hb) as Hab.
    destruct (point_le b x) eqn:Hbx; [|done].
    pose proof (point_le_trans _ _ _ Hbx Hxa) as Hba.
    pose proof (point_le_antisym_dist _ _ Hba Hab) as Hd.
    rewrite within_true in Hw; [done|]. rewrite Hd. done. }
  destruct (makePntsUnique_gap _ _ _ _ _ _ _ _ _ Hrun Hij Hp Hq)
    as (k & a & Ha & [(Hk & Hle & Hw)|(Hk & Hle & Hw)]).
  - right. exact (Hgap k a q p Ha Hk Hle Hw).
  - left. exact (Hgap k a p q Ha Hk Hle Hw).
Qed.

(** An insert of a point that is already present returns the id of the
    match and adds an entry to the reverse index and to the id map, and
    nothing to the canonical points. *)
Lemma push_back_found pv pnt i :
  find_if_within (rel_eps pv) pnt (data_vec pv) = Some i ->
  push_back pv pnt = Ok (i, record_insert pv i EmptyString).
Proof.
  intros Hf. by rewrite push_back_eq, (uniqueInsert_found _ _ _ Hf).
Qed.

(** ** Evaluation of runs whose sorted order is known *)

Lemma makePntsUnique_split srt pts eps :
  makePntsUnique srt pts eps =
  let '(A, perm0) := Quicksort srt point_le pts (iota (length pts)) in
  r ← dedup_front A perm0 (iota (length pts)) (vsize pts) eps;
  let '(_, pv3) := Quicksort srt N.leb (fst r) A in
  dedup_back (snd r) pv3 (vsize pts).
Proof.
  unfold makePntsUnique, dedup_front, dedup_back.
  destruct (Quicksort srt point_le pts (iota (length pts))) as [A perm0].
  destruct (for_loop 0 (size_sub (vsize pts) 1) (scan_step A eps) ([], false))
    as [[ivl ident]|]; [|done].
  rewrite !bind_Ok. cbv beta iota zeta.
  destruct (for_loop 0 _ (bubble_interval _) perm0) as [perm|]; [|done].
  rewrite !bind_Ok.
  destruct (for_loop 0 _ (merge_step A perm eps) _) as [idm|]; [|done].
  rewrite !bind_Ok. simpl fst. simpl snd.
  destruct (Quicksort srt N.leb perm A) as [perm3 pv3].
  destruct (for_loop 0 _ (delete_step idm) _) as [pv'|]; [|done].
  rewrite !bind_Ok.
  destruct (for_loop 0 _ renumber_step _) as [[idm' id]|]; done.
Qed.

Lemma Quicksort_singleton srt {K V} (le : K -> K -> bool) (k : K) (v : V) :
  Quicksort srt le [k] [v] = ([k], [v]).
Proof.
  unfold Quicksort. simpl.
  pose proof (sort_pairs_perm srt K V le [(k, v)]) as H.
  apply Permutation_singleton_r in H. by rewrite H.
Qed.

(** Evaluation of the closed parts of a run. *)
Ltac eval_front :=
  match goal with
  | |- context [dedup_front ?a ?b ?c ?d ?e] =>
      let v := eval vm_compute in (dedup_front a b c d e) in
      change (dedup_front a b c d e) with v
  end.
Ltac eval_back :=
  match goal with
  | |- context [dedup_back ?a ?b ?c] =>
      let v := eval vm_compute in (dedup_back a b c) in
      change (dedup_back a b c) with v
  end.

Lemma chain_points_dedup srt eps :
  eps = (1733206 # 100000000)%Q ->
  makePntsUnique srt chain_points eps
  = Ok ([P 0 0 0; P 1 1 1], [0; 1; 1; 1]).
Proof.
  intros ->. rewrite makePntsUnique_split. unfold chain_points.
  rewrite (Quicksort_unique srt point_le point_le_total point_le_trans
             _ [P 0 0 0; P 1 1 1; P 1 1 (1001 # 1000); P 1 1 (1002 # 1000)]
             _ [0; 1; 2; 3]); [| done | done |].
  2:{ repeat constructor. }
  cbv beta iota. eval_front. rewrite bind_Ok. simpl fst. simpl snd.
  rewrite (Quicksort_unique srt N.leb N_leb_total N_leb_trans
             _ [0; 1; 2; 3]
             _ [P 0 0 0; P 1 1 1; P 1 1 (1001 # 1000); P 1 1 (1002 # 1000)]);
    [| done | done |].
  2:{ repeat constructor. }
  cbv beta iota. eval_back. reflexivity.
Qed.

Lemma single_point_dedup srt p eps :
  makePntsUnique srt [p] eps = Ok ([p], [0]).
Proof.
  rewrite makePntsUnique_split. change (iota (length [p])) with [0].
  rewrite Quicksort_singleton. cbv beta iota.
  assert (dedup_front [p] [0] [0] (vsize [p]) eps = Ok ([0], [0])) as ->
    by reflexivity.
  rewrite bind_Ok. simpl fst. simpl snd.
  rewrite Quicksort_singleton. reflexivity.
Qed.

(** * The claims *)

(** C1 as stated fails: [(0,0,0)] and [(0.001,0,0)] are both canonical
    at the tolerance [0.01]; [(0,5,0)] lies between them in the order. *)
Lemma C1_counterexample :
  PointVec_new insertion_sorter sqrt_6 gap_points [] (2 # 1000)
    = Ok gap_registry /\
  (rel_eps gap_registry == 1 # 100)%Q /\
  data_vec gap_registry = gap_points /\
  ~ pairwise_apart (rel_eps gap_registry) (data_vec gap_registry).
Proof.
  split; [by vm_compute|]. split; [by vm_compute|]. split; [reflexivity|].
  intros H. specialize (H 0%nat 2%nat (P 0 0 0) (P (1 # 1000) 0 0)).
  assert (within (rel_eps gap_registry) (P 0 0 0) (P (1 # 1000) 0 0) = true)
    as Hw by by vm_compute.
  rewrite H in Hw; done.
Qed.

(** C1 (as amended): two canonical points are kept apart by a gap of
    the sorted input: one of them, [q], comes in the sorted vector
    right after a point [a] that is farther than the tolerance from
    [q], and the other one is not behind [a] in the order. *)
Theorem C1_canonical_points_separated_by_gap (srt : Sorter) (sqrt : Q -> Q)
    (points : list Point) (names : name_id_map_t) (rel : Q)
    (pv : PointVec) (i j : nat) (p q : Point) :
  PointVec_new srt sqrt points names rel = Ok pv ->
  i <> j ->
  data_vec pv !! i = Some p ->
  data_vec pv !! j = Some q ->
  exists k a,
    sorted_points srt points !! k = Some a /\
    ((sorted_points srt points !! S k = Some q /\
      point_le p a = true /\ within (rel_eps pv) q a = false) \/
     (sorted_points srt points !! S k = Some p /\
      point_le q a = true /\ within (rel_eps pv) p a = false)).
Proof.
  intros Hnew Hij Hp Hq.
  destruct (PointVec_new_inv _ _ _ _ _ _ Hnew)
    as (box & names' & id_names & _ & Hrun & _ & _ & _ & -> & _).
  by apply (makePntsUnique_gap _ _ _ _ _ _ _ _ _ Hrun Hij).
Qed.

(** The gap between [(0,0,0)] and [(0.001,0,0)] in [gap_points]. *)
Lemma C1_canonical_points_separated_by_gap_witness :
  exists k a,
    sorted_points insertion_sorter gap_points !! k = Some a /\
    ((sorted_points insertion_sorter gap_points !! S k
        = Some (P (1 # 1000) 0 0) /\
      point_le (P 0 0 0) a = true /\
      within (rel_eps gap_registry) (P (1 # 1000) 0 0) a = false) \/
     (sorted_points insertion_sorter gap_points !! S k = Some (P 0 0 0) /\
      point_le (P (1 # 1000) 0 0) a = true /\
      within (rel_eps gap_registry) (P 0 0 0) a = false)).
Proof.
  apply (C1_canonical_points_separated_by_gap insertion_sorter sqrt_6
           gap_points [] (2 # 1000) gap_registry 0%nat 2%nat);
    [by vm_compute|done|reflexivity|reflexivity].
Defined.

(** C2: inserting a point that lies within the tolerance of a canonical
    point leaves the canonical points as they are, appends one entry to
    the id map and returns the id of a canonical point within the
    tolerance of the inserted one (the first such point). *)
Theorem C2_push_back_existing_point (pv : PointVec) (pnt : Point)
    (i : nat) (p : Point) :
  data_vec pv !! i = Some p ->
  within (rel_eps pv) p pnt = true ->
  exists id pv',
    push_back pv pnt = Ok (id, pv') /\
    data_vec pv' = data_vec pv /\
    pnt_id_map pv' = pnt_id_map pv ++ [id] /\
    exists q, data_vec pv !! N.to_nat id = Some q /\
              within (rel_eps pv) q pnt = true /\
              forall j r, (j < N.to_nat id)%nat -> data_vec pv !! j = Some r ->
                          within (rel_eps pv) r pnt = false.
Proof.
  intros Hp Hw.
  destruct (find_if_within_is_Some _ _ _ _ _ Hp Hw) as [id Hf].
  exists id, (record_insert pv id EmptyString).
  rewrite push_back_eq, (uniqueInsert_found _ _ _ Hf). simpl.
  repeat split; try done. by apply find_if_within_Some.
Qed.

(** An insert of [(0,0,0.001)] into the registry that holds the origin. *)
Lemma C2_push_back_existing_point_witness :
  exists id pv',
    push_back origin_registry (P 0 0 (1 # 1000)) = Ok (id, pv') /\
    data_vec pv' = [P 0 0 0] /\
    pnt_id_map pv' = [0; id] /\
    exists q, data_vec origin_registry !! N.to_nat id = Some q /\
              within (1 # 100) q (P 0 0 (1 # 1000)) = true /\
              forall j r, (j < N.to_nat id)%nat ->
                          data_vec origin_registry !! j = Some r ->
                          within (1 # 100) r (P 0 0 (1 # 1000)) = false.
Proof.
  apply (C2_push_back_existing_point origin_registry (P 0 0 (1 # 1000))
           0%nat (P 0 0 0)); reflexivity.
Defined.

(** C3 (the claim fails on the code): of the two points [(1,0,0)] and
    [(0,0,0)], within the tolerance [1] of each other, the one inserted
    second survives; the point with the lowest original index is
    deleted. Whatever the sort does with equal keys plays no part. *)
Theorem C3_first_inserted_point_deleted (srt : Sorter) :
  makePntsUnique srt [P 1 0 0; P 0 0 0] 1 = Ok ([P 0 0 0], [0; 0]).
Proof.
  unfold makePntsUnique.
  rewrite (Quicksort_unique srt point_le point_le_total point_le_trans
             _ [P 0 0 0; P 1 0 0] _ [1; 0]); [| done | apply perm_swap |].
  2:{ repeat constructor. }
  cbv -[Quicksort].
  rewrite (Quicksort_unique srt N.leb N_leb_total N_leb_trans
             _ [0; 1] _ [P 0 0 0; P 1 0 0]); [| done | done |].
  2:{ repeat constructor. }
  reflexivity.
Qed.




(** C5 (the claim fails on the code): after construction the reverse
    index has one entry for every canonical point; an insert of a point
    that is already present adds an entry to the reverse index and no
    canonical point. The name "B" of the next new point, which gets
    id 1, is then stored at index 2 of the reverse index, and
    [getItemNameByID] finds no name for id 1. *)
Theorem C5_reverse_index_outgrows_canonical_points (srt : Sorter) :
  exists pv0 pv1,
    PointVec_new srt sqrt_6 [P 5 5 5] [("A"%string, 0)] (1 # 100) = Ok pv0 /\
    length (id_to_name_map pv0) = length (data_vec pv0) /\
    push_back pv0 (P 5 5 5) = Ok (0, pv1) /\
    data_vec pv1 = [P 5 5 5] /\
    id_to_name_map pv1 = ["A"%string; EmptyString] /\
    data_vec (push_back_name pv1 (P 6 5 5) (Some "B"%string))
      = [P 5 5 5; P 6 5 5] /\
    map_find "B"%string
      (name_id_map (push_back_name pv1 (P 6 5 5) (Some "B"%string)))
      = Some 1 /\
    getItemNameByID (push_back_name pv1 (P 6 5 5) (Some "B"%string)) 1
      = Ok EmptyString /\
    getItemNameByID (push_back_name pv1 (P 6 5 5) (Some "B"%string)) 2
      = Ok "B"%string.
Proof.
  unfold PointVec_new.
  change (AABB_range [P 5 5 5]) with (Ok (mkAABB (P 5 5 5) (P 5 5 5))).
  rewrite bind_Ok. cbv zeta. rewrite single_point_dedup, bind_Ok.
  eexists _, _. split; [by vm_compute|]. split; [reflexivity|].
  split; [by vm_compute|]. repeat split; by vm_compute.
Qed.

(** C6 (the claim fails on the code): the point [(5,5,5)] has the name
    "A"; inserted again under the name "B", which is not in use, it
    gets that name as a second one: "A" and "B" both point at id 0
    afterwards. No canonical point is added and no warning is printed.
    [correctNameIDMapping] erases the second name of a point (line
    205); [push_back] only tests whether the name is in use (line
    75). *)
Theorem C6_second_name_for_named_point (srt : Sorter) :
  exists pv,
    PointVec_new srt sqrt_6 [P 5 5 5] [("A"%string, 0)] (1 # 100) = Ok pv /\
    name_id_map pv = [("A"%string, 0)] /\
    find_if_within (rel_eps pv) (P 5 5 5) (data_vec pv) = Some 0 /\
    map_find "B"%string (name_id_map pv) = None /\
    name_id_map (push_back_name pv (P 5 5 5) (Some "B"%string))
      = [("A"%string, 0); ("B"%string, 0)] /\
    data_vec (push_back_name pv (P 5 5 5) (Some "B"%string)) = data_vec pv /\
    warnings (push_back_name pv (P 5 5 5) (Some "B"%string)) = [].
Proof.
  unfold PointVec_new.
  change (AABB_range [P 5 5 5]) with (Ok (mkAABB (P 5 5 5) (P 5 5 5))).
  rewrite bind_Ok. cbv zeta. rewrite single_point_dedup, bind_Ok.
  eexists. split; [by vm_compute|]. repeat split; by vm_compute.
Qed.

(** C7 (the claim fails on the code): the names "x" and "y" of two
    points that collapse onto the canonical point 1 are both kept; the
    reverse index can hold only one of them, so "x" maps to an id whose
    reverse entry is "y". Whatever the sort does with equal keys plays
    no part: the four points are apart in the order. *)
Theorem C7_two_names_for_one_point_both_kept (srt : Sorter) :
  exists pv,
    PointVec_new srt sqrt_6 chain_points
      [("x"%string, 2); ("y"%string, 3)] (1 # 100) = Ok pv /\
    data_vec pv = [P 0 0 0; P 1 1 1] /\
    pnt_id_map pv = [0; 1; 1; 1] /\
    name_id_map pv = [("x"%string, 1); ("y"%string, 1)] /\
    id_to_name_map pv = [EmptyString; "y"%string] /\
    map_find "x"%string (name_id_map pv) = Some 1 /\
    getItemNameByID pv 1 = Ok "y"%string.
Proof.
  unfold PointVec_new.
  change (AABB_range chain_points)
    with (Ok (mkAABB (P 0 0 0) (P 1 1 (1002 # 1000)))).
  rewrite bind_Ok. cbv zeta.
  set (tol := (_ * sqrt_6 _)%Q). vm_compute in tol. subst tol.
  rewrite (chain_points_dedup srt _ eq_refl). rewrite bind_Ok.
  eexists. split; [by vm_compute|]. repeat split; reflexivity.
Qed.

(** C8: Scenario A. From the points [(0,0,0)], [(0,0,0.0001)] and
    [(5,5,5)], with a relative tolerance that makes the absolute
    tolerance [0.01] (any value from [0.0001] up to, but not including,
    [5] does), construction keeps two canonical points and the id map is
    [0, 0, 1]. The squared diagonal of the bounding box is [75]. *)
Theorem C8_scenario_A (srt : Sorter) (sqrt : Q -> Q) (rel : Q) :
  (1 # 10000 <= rel * sqrt 75)%Q ->
  (rel * sqrt 75 < 5)%Q ->
  exists pv,
    PointVec_new srt sqrt [P 0 0 0; P 0 0 (1 # 10000); P 5 5 5] [] rel
      = Ok pv /\
    data_vec pv = [P 0 0 0; P 5 5 5] /\
    pnt_id_map pv = [0; 0; 1].
Proof.
  intros Hlo Hhi. unfold PointVec_new.
  change (AABB_range [P 0 0 0; P 0 0 (1 # 10000); P 5 5 5])
    with (Ok (mkAABB (P 0 0 0) (P 5 5 5))).
  rewrite bind_Ok. cbv zeta.
  change (sqrDist (getMinPoint (mkAABB (P 0 0 0) (P 5 5 5)))
            (getMaxPoint (mkAABB (P 0 0 0) (P 5 5 5)))) with 75%Q.
  rewrite (scenario_A_dedup srt _ Hlo Hhi). rewrite bind_Ok.
  eexists. split; [reflexivity|]. split; reflexivity.
Qed.

(** Scenario A with the relative tolerance [0.001155]: the absolute
    tolerance is [0.001155 * 8.660254]. *)
Lemma C8_scenario_A_witness :
  exists pv,
    PointVec_new insertion_sorter sqrt_6
      [P 0 0 0; P 0 0 (1 # 10000); P 5 5 5] [] (1155 # 1000000) = Ok pv /\
    data_vec pv = [P 0 0 0; P 5 5 5] /\
    pnt_id_map pv = [0; 0; 1].
Proof.
  apply (C8_scenario_A insertion_sorter sqrt_6 (1155 # 1000000));
    vm_compute; [discriminate|reflexivity].
Defined.

(** C9 as stated fails: the box keeps the corner of the deleted
    duplicate [(5,5,5.0001)]. *)
Lemma C9_counterexample :
  PointVec_new insertion_sorter sqrt_6 far_duplicate_points [] (1 # 1000)
    = Ok far_duplicate_registry /\
  data_vec far_duplicate_registry = [P 5 5 5; P 0 0 0] /\
  AABB_range (data_vec far_duplicate_registry)
    = Ok (mkAABB (P 0 0 0) (P 5 5 5)) /\
  getMaxPoint (aabb far_duplicate_registry) = P 5 5 (50001 # 10000) /\
  ~ (pz (getMaxPoint (aabb far_duplicate_registry)) == 5)%Q.
Proof.
  split; [by vm_compute|]. split; [reflexivity|]. split; [reflexivity|].
  split; [reflexivity|]. by vm_compute.
Qed.

(** C9 (as amended): the bounding box held by the registry right after
    construction is the box of the raw input sequence, duplicates
    included. *)
Theorem C9_bounding_box_of_raw_input (srt : Sorter) (sqrt : Q -> Q)
    (points : list Point) (names : name_id_map_t) (rel : Q)
    (pv : PointVec) :
  PointVec_new srt sqrt points names rel = Ok pv ->
  AABB_range points = Ok (aabb pv).
Proof.
  intros Hnew.
  destruct (PointVec_new_inv _ _ _ _ _ _ Hnew)
    as (box & names' & id_names & Hbox & _ & _ & _ & -> & _).
  done.
Qed.

(** The box of [far_duplicate_points]. *)
Lemma C9_bounding_box_of_raw_input_witness :
  AABB_range far_duplicate_points = Ok (aabb far_duplicate_registry).
Proof.
  apply (C9_bounding_box_of_raw_input insertion_sorter sqrt_6
           far_duplicate_points [] (1 # 1000) far_duplicate_registry).
  by vm_compute.
Defined.




(** * Further properties of the code *)

(** ** Bulk deduplication *)

Lemma sort_origin srt pts (A : list Point) (perm0 : list N) (j : nat) p i :
  Quicksort srt point_le pts (iota (length pts)) = (A, perm0) ->
  A !! j = Some p -> perm0 !! j = Some i ->
  pts !! N.to_nat i = Some p /\ (N.to_nat i < length pts)%nat.
Proof.
  intros HQ Hp Hi.
  assert ((p, i) ∈ combine A perm0) as Hin.
  { apply list_elem_of_lookup. exists j. by apply lookup_combine. }
  rewrite (Quicksort_pairs srt point_le _ _ _ _ HQ) in Hin.
  apply list_elem_of_lookup in Hin as [t Ht].
  apply lookup_combine in Ht as [Ht1 Ht2].
  pose proof (lookup_lt_Some _ _ _ Ht1) as Hlt.
  rewrite lookup_iota in Ht2 by done. injection Ht2 as <-.
  rewrite Nat2N.id. done.
Qed.

Lemma sorted_points_perm srt pts : Permutation (sorted_points srt pts) pts.
Proof.
  unfold sorted_points.
  destruct (Quicksort srt point_le pts (iota (length pts))) as [A perm0] eqn:HQ.
  apply (Quicksort_keys srt point_le _ _ _ _ ltac:(by rewrite length_iota) HQ).
Qed.

(** X1: on every non-empty input [makePntsUnique] reads and writes inside
    its vectors and returns; the id map has one entry for each input
    point, every entry is an index of the canonical points, and there
    are at least one and at most as many canonical points as input
    points. *)
Theorem X1_dedup_in_bounds (srt : Sorter) (pts : list Point) (eps : Q) :
  pts <> [] ->
  exists canon idm,
    makePntsUnique srt pts eps = Ok (canon, idm) /\
    length idm = length pts /\
    Forall (fun v => v < vsize canon) idm /\
    (1 <= length canon <= length pts)%nat.
Proof.
  intros Hne.
  assert (1 <= length pts)%nat as Hn by (destruct pts; simpl; [done|lia]).
  destruct (makePntsUnique_run srt pts eps Hn) as (t & canon & idm & Hrun & Hf).
  exists canon, idm. split; [done|].
  pose proof (dr_idm_length _ _ _ _ _ _ Hf) as Hl.
  pose proof (dr_idm_valid _ _ _ _ _ _ Hf) as Hv.
  split; [done|]. split; [done|]. split.
  - destruct idm as [|v idm]; [simpl in Hl; lia|].
    inversion Hv as [|? ? Hv0 _]; subst. unfold vsize in Hv0. lia.
  - rewrite (dr_canon _ _ _ _ _ _ Hf), length_map.
    unfold survivors. etrans; [apply length_filter|].
    rewrite length_seq. by rewrite (dr_length_A _ _ _ _ _ _ Hf).
Qed.

Lemma X1_dedup_in_bounds_witness :
  exists canon idm,
    makePntsUnique insertion_sorter chain_points (1 # 100) = Ok (canon, idm) /\
    length idm = length chain_points /\
    Forall (fun v => v < vsize canon) idm /\
    (1 <= length canon <= length chain_points)%nat.
Proof.
  apply (X1_dedup_in_bounds insertion_sorter chain_points (1 # 100)). done.
Defined.

(** X2: with a tolerance that is not negative, no two canonical points
    are the same point: of any two of them one is strictly before the
    other in the lexicographic order. *)
Theorem X2_canonical_points_distinct (srt : Sorter) (pts : list Point)
    (eps : Q) (canon : list Point) (idm : list N) (i j : nat) (p q : Point) :
  (0 <= eps)%Q ->
  makePntsUnique srt pts eps = Ok (canon, idm) ->
  i <> j -> canon !! i = Some p -> canon !! j = Some q ->
  point_le p q = false \/ point_le q p = false.
Proof. apply makePntsUnique_distinct. Qed.

Lemma X2_canonical_points_distinct_witness :
  point_le (P 0 0 0) (P 1 1 1) = false \/ point_le (P 1 1 1) (P 0 0 0) = false.
Proof.
  apply (X2_canonical_points_distinct insertion_sorter
           [P 1 1 1; P 0 0 0; P 1 1 1] 0 [P 1 1 1; P 0 0 0] [0; 1; 0]
           1%nat 0%nat (P 0 0 0) (P 1 1 1));
    [by vm_compute|by vm_compute|done|reflexivity|reflexivity].
Defined.

(** X3: every canonical point is one of the input points; deduplication
    makes up no point. *)
Theorem X3_canonical_points_from_input (srt : Sorter) (pts : list Point)
    (eps : Q) (canon : list Point) (idm : list N) (p : Point) :
  makePntsUnique srt pts eps = Ok (canon, idm) ->
  p ∈ canon -> p ∈ pts.
Proof.
  intros Hrun Hp.
  pose proof (makePntsUnique_Ok_nonempty _ _ _ _ Hrun) as Hn.
  destruct (makePntsUnique_run srt pts eps Hn)
    as (t & canon' & idm' & Hrun' & Hf).
  rewrite Hrun in Hrun'. injection Hrun' as <- <-.
  apply list_elem_of_lookup in Hp as [i Hi].
  destruct (canonical_is_head _ _ _ _ _ _ _ _ Hf Hi) as (s & j & _ & _ & _ & HA).
  rewrite <- (sorted_points_perm srt pts). unfold sorted_points.
  rewrite (dr_sorted _ _ _ _ _ _ Hf). simpl.
  by eapply list_elem_of_lookup_2.
Qed.

Lemma X3_canonical_points_from_input_witness :
  P 1 1 1 ∈ chain_points.
Proof.
  apply (X3_canonical_points_from_input insertion_sorter chain_points
           (1 # 100) [P 0 0 0; P 1 1 1] [0; 1; 1; 1]);
    [by vm_compute|]. apply list_elem_of_In. simpl. auto.
Defined.

(** ** Inputs without neighbours within the tolerance *)

Section NoClose.
Context (A : list Point) (eps : Q).
Hypothesis Hnone : forall j, (S j < length A)%nat -> close A eps j = false.

Lemma scan_none :
  (1 <= length A)%nat ->
  for_loop 0 (size_sub (vsize A) 1) (scan_step A eps) ([], false)
  = Ok ([], false).
Proof.
  intros Hn. unfold vsize. rewrite size_sub_le by lia.
  destruct (for_loop_inv (fun _ st => st = ([], false)) 0
              (N.of_nat (length A) - 1) (scan_step A eps) ([], false))
    as (st & -> & ->); [lia|done| |done].
  intros k st Hk ->. unfold scan_step.
  rewrite (vget_lt A (k + 1)), (vget_lt A k) by lia. rewrite !bind_Ok.
  replace (N.to_nat (k + 1)) with (S (N.to_nat k)) by lia.
  fold (close A eps (N.to_nat k)). rewrite Hnone by lia. by eexists.
Qed.

Lemma merge_none perm idm :
  (1 <= length A)%nat ->
  for_loop 0 (size_sub (vsize A) 1) (merge_step A perm eps) idm = Ok idm.
Proof.
  intros Hn. unfold vsize. rewrite size_sub_le by lia.
  destruct (for_loop_inv (fun _ st => st = idm) 0
              (N.of_nat (length A) - 1) (merge_step A perm eps) idm)
    as (st & -> & ->); [lia|done| |done].
  intros k st Hk ->. unfold merge_step.
  rewrite (vget_lt A (k + 1)), (vget_lt A k) by lia. rewrite !bind_Ok.
  replace (N.to_nat (k + 1)) with (S (N.to_nat k)) by lia.
  fold (close A eps (N.to_nat k)). rewrite Hnone by lia. by eexists.
Qed.
End NoClose.

Lemma delete_none (pv : list Point) :
  for_loop 0 (vsize pv) (delete_step (iota (length pv))) (map Some pv)
  = Ok (map Some pv).
Proof.
  destruct (for_loop_inv (fun _ st => st = map Some pv) 0 (vsize pv)
              (delete_step (iota (length pv))) (map Some pv))
    as (st & -> & ->); [lia|done| |done].
  intros k st Hk ->. unfold vsize in Hk. unfold delete_step.
  rewrite (vget_lookup (iota (length pv)) k k)
    by (rewrite lookup_iota by lia; f_equal; lia).
  rewrite bind_Ok. rewrite N.ltb_irrefl. by eexists.
Qed.

Lemma renumber_iota (n : nat) :
  for_loop 0 (N.of_nat n) renumber_step (iota n, 0) = Ok (iota n, N.of_nat n).
Proof.
  destruct (for_loop_inv (fun k st => st = (iota n, k)) 0 (N.of_nat n)
              renumber_step (iota n, 0))
    as (st & -> & ->); [lia|done| |done].
  intros k st Hk ->. unfold renumber_step.
  assert (iota n !! N.to_nat k = Some k) as Hk'
    by (rewrite lookup_iota by lia; f_equal; lia).
  rewrite (vget_lookup (iota n) k k Hk'), bind_Ok. rewrite N.eqb_refl.
  rewrite vset_lt by (rewrite length_iota; lia). rewrite bind_Ok.
  rewrite list_insert_id by done. by eexists.
Qed.

Lemma remove_nullptr_Some (pv : list Point) : remove_nullptr (map Some pv) = pv.
Proof. induction pv as [|p pv IH]; [done|]. simpl. f_equal. exact IH. Qed.

(** The reverse permutation puts the points back in input order. *)
Lemma reverse_permutation_input srt pts A perm0 perm3 pv3 :
  Quicksort srt point_le pts (iota (length pts)) = (A, perm0) ->
  Quicksort srt N.leb perm0 A = (perm3, pv3) ->
  pv3 = pts.
Proof.
  intros HQ1 HQ2.
  assert (length pts = length (iota (length pts))) as Hl0 by by rewrite length_iota.
  pose proof (Quicksort_length_keys srt point_le _ _ _ _ Hl0 HQ1) as HlA.
  pose proof (Quicksort_values srt point_le _ _ _ _ Hl0 HQ1) as Hperm0.
  rewrite <- HlA in Hperm0.
  destruct (reverse_permutation srt A pv3 perm0 perm3 Hperm0 HQ2) as [Hl3 Hpv3].
  apply list_eq_same_length with (length pts); [done|lia|].
  intros i x y Hi Hx Hy.
  destruct (perm_surjective A perm0 Hperm0 i ltac:(lia)) as [j Hj].
  pose proof (lookup_lt_Some _ _ _ Hj) as Hjl.
  rewrite (perm_length A perm0 Hperm0) in Hjl.
  specialize (Hpv3 j Hjl).
  rewrite (list_lookup_total_correct _ _ _ Hj), Nat2N.id in Hpv3.
  destruct (sort_origin srt pts A perm0 j (A !!! j) (N.of_nat i) HQ1) as [Ho _];
    [by apply list_lookup_lookup_total_lt|done|].
  rewrite Nat2N.id in Ho. congruence.
Qed.

(** Without neighbours within [eps] in the sorted vector nothing is
    deleted and nothing is renumbered. *)
Lemma makePntsUnique_no_close srt pts eps :
  pts <> [] ->
  (forall j, (S j < length pts)%nat ->
             close (sorted_points srt pts) eps j = false) ->
  makePntsUnique srt pts eps = Ok (pts, iota (length pts)).
Proof.
  intros Hne Hnone.
  assert (1 <= length pts)%nat as Hn by (destruct pts; simpl; [done|lia]).
  unfold makePntsUnique. unfold sorted_points in Hnone.
  destruct (Quicksort srt point_le pts (iota (length pts))) as [A perm0] eqn:HQ1.
  assert (length pts = length (iota (length pts))) as Hl0 by by rewrite length_iota.
  pose proof (Quicksort_length_keys srt point_le _ _ _ _ Hl0 HQ1) as HlA.
  simpl in Hnone. rewrite <- HlA in Hnone, Hn.
  assert (vsize pts = vsize A) as Hsz by (unfold vsize; by rewrite HlA).
  rewrite Hsz.
  rewrite (scan_none A eps Hnone Hn), bind_Ok. cbv beta iota.
  rewrite for_loop_done by (by vm_compute). rewrite bind_Ok.
  rewrite (merge_none A eps Hnone _ _ Hn), bind_Ok.
  destruct (Quicksort srt N.leb perm0 A) as [perm3 pv3] eqn:HQ2.
  rewrite (reverse_permutation_input srt pts A perm0 perm3 pv3 HQ1 HQ2).
  rewrite <- Hsz. rewrite delete_none, bind_Ok.
  unfold vsize. rewrite renumber_iota, bind_Ok.
  by rewrite remove_nullptr_Some.
Qed.

Lemma maxNormDist_nonneg p q : (0 <= maxNormDist p q)%Q.
Proof.
  unfold maxNormDist.
  eapply Qle_trans; [apply (Qabs_nonneg (px q - px p))|]. apply Q.le_max_l.
Qed.

Lemma sorted_neighbours_apart srt pts eps (j : nat) :
  pairwise_apart eps pts -> (S j < length pts)%nat ->
  close (sorted_points srt pts) eps j = false.
Proof.
  intros Hapart Hj. unfold sorted_points.
  destruct (Quicksort srt point_le pts (iota (length pts))) as [A perm0] eqn:HQ.
  assert (length pts = length (iota (length pts))) as Hl0 by by rewrite length_iota.
  pose proof (Quicksort_length_keys srt point_le _ _ _ _ Hl0 HQ) as HlA.
  pose proof (Quicksort_values srt point_le _ _ _ _ Hl0 HQ) as Hperm0.
  rewrite <- HlA in Hperm0. simpl. unfold close.
  pose proof (perm_lookup_total A perm0 Hperm0 j ltac:(lia)) as H0.
  pose proof (perm_lookup_total A perm0 Hperm0 (S j) ltac:(lia)) as H1.
  destruct (sort_origin srt pts A perm0 j (A !!! j) (perm0 !!! j) HQ) as [Ha _];
    [apply list_lookup_lookup_total_lt; lia|exact H0|].
  destruct (sort_origin srt pts A perm0 (S j) (A !!! S j) (perm0 !!! S j) HQ)
    as [Hb _];
    [apply list_lookup_lookup_total_lt; lia|exact H1|].
  eapply Hapart; [|exact Hb|exact Ha].
  intros Heq. apply N2Nat.inj in Heq.
  assert (S j = j) as Hbad; [|lia].
  eapply (NoDup_lookup perm0); [apply (perm_NoDup A perm0 Hperm0)|exact H1|].
  by rewrite Heq.
Qed.

(** X4: when the input points are pairwise farther apart than the
    tolerance, bulk deduplication returns them unchanged, in input
    order, and the id map is the identity. *)
Theorem X4_dedup_of_unique_points (srt : Sorter) (pts : list Point)
    (eps : Q) :
  pts <> [] -> pairwise_apart eps pts ->
  makePntsUnique srt pts eps = Ok (pts, iota (length pts)).
Proof.
  intros Hne Hapart. apply makePntsUnique_no_close; [done|].
  intros j Hj. by apply sorted_neighbours_apart.
Qed.

Lemma X4_dedup_of_unique_points_witness :
  makePntsUnique insertion_sorter [P 5 5 5; P 0 0 0] 1
  = Ok ([P 5 5 5; P 0 0 0], iota 2).
Proof.
  apply (X4_dedup_of_unique_points insertion_sorter [P 5 5 5; P 0 0 0] 1);
    [done|].
  intros [|[|[|i]]] [|[|[|j]]] p q Hij Hp Hq; simpl in Hp, Hq;
    try done; simplify_eq; by vm_compute.
Defined.

(** X5: with a negative tolerance nothing is ever merged: bulk
    deduplication returns the input unchanged, duplicates included. *)
Theorem X5_negative_tolerance_keeps_all (srt : Sorter) (pts : list Point)
    (eps : Q) :
  pts <> [] -> (eps < 0)%Q ->
  makePntsUnique srt pts eps = Ok (pts, iota (length pts)).
Proof.
  intros Hne Heps. apply makePntsUnique_no_close; [done|].
  intros j Hj. unfold close. apply within_false.
  eapply Qlt_le_trans; [exact Heps|apply maxNormDist_nonneg].
Qed.

Lemma X5_negative_tolerance_keeps_all_witness :
  makePntsUnique insertion_sorter [P 5 5 5; P 5 5 5] (-1 # 100)
  = Ok ([P 5 5 5; P 5 5 5], iota 2).
Proof.
  apply (X5_negative_tolerance_keeps_all insertion_sorter
           [P 5 5 5; P 5 5 5] (-1 # 100)); [done|by vm_compute].
Defined.

(** ** Construction *)

(** X6: construction succeeds on every non-empty input whose names point
    at input positions; in the registry every name points at a canonical
    point and the reverse index has one entry for each canonical
    point. *)
Theorem X6_construction_succeeds (srt : Sorter) (sqrt : Q -> Q)
    (points : list Point) (names : name_id_map_t) (rel : Q) :
  points <> [] ->
  Forall (fun entry => snd entry < vsize points) names ->
  exists pv,
    PointVec_new srt sqrt points names rel = Ok pv /\
    Forall (fun entry => snd entry < vsize (data_vec pv)) (name_id_map pv) /\
    length (id_to_name_map pv) = length (data_vec pv).
Proof. apply PointVec_new_total. Qed.

Lemma X6_construction_succeeds_witness :
  exists pv,
    PointVec_new insertion_sorter sqrt_6 chain_points
      [("x"%string, 2); ("y"%string, 3)] (1 # 100) = Ok pv /\
    Forall (fun entry => snd entry < vsize (data_vec pv)) (name_id_map pv) /\
    length (id_to_name_map pv) = length (data_vec pv).
Proof.
  apply (X6_construction_succeeds insertion_sorter sqrt_6 chain_points
           [("x"%string, 2); ("y"%string, 3)] (1 # 100)); [done|].
  repeat constructor.
Defined.




(** ** Incremental insertion *)

Lemma find_if_within_none_intro eps pnt v :
  (forall j q, v !! j = Some q -> within eps q pnt = false) ->
  find_if_within eps pnt v = None.
Proof.
  intros Hall. destruct (find_if_within eps pnt v) as [i|] eqn:Hf; [|done].
  destruct (find_if_within_Some _ _ _ _ Hf) as (p & Hp & Hw & _).
  by rewrite (Hall _ _ Hp) in Hw.
Qed.

Lemma maxNormDist_refl p : (maxNormDist p p == 0)%Q.
Proof.
  unfold maxNormDist.
  assert (forall x : Q, Qabs (x - x) == 0)%Q as Hz.
  { intros x. transitivity (Qabs 0); [apply Qabs_wd; ring|reflexivity]. }
  rewrite !Hz. rewrite !Q.max_id. reflexivity.
Qed.

Lemma within_refl eps p : (0 <= eps)%Q -> within eps p p = true.
Proof. intros Heps. apply within_true. by rewrite maxNormDist_refl. Qed.

Lemma maxNormDist_sym p q : (maxNormDist p q == maxNormDist q p)%Q.
Proof.
  unfold maxNormDist.
  rewrite (Qabs_Qminus (px q) (px p)), (Qabs_Qminus (py q) (py p)),
    (Qabs_Qminus (pz q) (pz p)). reflexivity.
Qed.

Lemma within_sym eps p q : within eps p q = within eps q p.
Proof.
  unfold within. apply eq_true_iff_eq. rewrite !Qle_bool_iff.
  by rewrite maxNormDist_sym.
Qed.

Lemma find_if_within_app_new eps pnt v :
  (0 <= eps)%Q ->
  find_if_within eps pnt v = None ->
  find_if_within eps pnt (v ++ [pnt]) = Some (vsize v).
Proof.
  intros Heps. unfold vsize. induction v as [|p r IH]; simpl.
  - by rewrite within_refl.
  - destruct (within eps p pnt); [done|].
    destruct (find_if_within eps pnt r); simpl; [done|].
    intros _. rewrite IH by done. simpl. f_equal. lia.
Qed.

(** X8: [push_back] of a point that no canonical point is within the
    tolerance of appends it: the new id is the old number of canonical
    points, the id map gets that id as its last entry, the reverse index
    an empty name, and the names are left as they are. *)
Theorem X8_push_back_new_point (pv : PointVec) (pnt : Point) :
  (forall j q, data_vec pv !! j = Some q ->
               within (rel_eps pv) q pnt = false) ->
  exists pv',
    push_back pv pnt = Ok (vsize (data_vec pv), pv') /\
    data_vec pv' = data_vec pv ++ [pnt] /\
    pnt_id_map pv' = pnt_id_map pv ++ [vsize (data_vec pv)] /\
    id_to_name_map pv' = id_to_name_map pv ++ [EmptyString] /\
    name_id_map pv' = name_id_map pv /\
    rel_eps pv' = rel_eps pv.
Proof.
  intros Hnew. apply find_if_within_none_intro in Hnew.
  rewrite push_back_eq. unfold uniqueInsert. rewrite Hnew. simpl.
  assert (size_sub (vsize (data_vec pv ++ [pnt])) 1 = vsize (data_vec pv))
    as ->.
  { unfold vsize. rewrite length_app. simpl. rewrite size_sub_le by lia. lia. }
  eexists. split; [done|]. by simpl.
Qed.

Lemma X8_push_back_new_point_witness :
  exists pv',
    push_back origin_registry (P 1 0 0) = Ok (1, pv') /\
    data_vec pv' = [P 0 0 0; P 1 0 0] /\
    pnt_id_map pv' = [0; 1] /\
    id_to_name_map pv' = [EmptyString; EmptyString] /\
    name_id_map pv' = [] /\
    rel_eps pv' = 1 # 100.
Proof.
  apply (X8_push_back_new_point origin_registry (P 1 0 0)).
  intros [|j] q Hq; simpl in Hq; [|done]. simplify_eq. by vm_compute.
Defined.

(** X9: with a tolerance that is not negative, inserting the same point
    a second time returns the id of the first insert and leaves the
    canonical points as the first insert left them. *)
Theorem X9_push_back_twice (pv pv1 : PointVec) (pnt : Point) (id : N) :
  (0 <= rel_eps pv)%Q ->
  push_back pv pnt = Ok (id, pv1) ->
  exists pv2,
    push_back pv1 pnt = Ok (id, pv2) /\
    data_vec pv2 = data_vec pv1 /\
    pnt_id_map pv2 = pnt_id_map pv1 ++ [id].
Proof.
  intros Heps. rewrite push_back_eq. intros [= Hid Hpv1].
  assert (find_if_within (rel_eps pv1) pnt (data_vec pv1) = Some id) as Hf.
  { subst pv1. simpl. revert Hid. unfold uniqueInsert.
    destruct (find_if_within (rel_eps pv) pnt (data_vec pv)) as [i|] eqn:Hf;
      simpl; intros <-; [done|].
    rewrite find_if_within_app_new by done.
    f_equal. unfold vsize. rewrite length_app. simpl.
    rewrite size_sub_le by lia. lia. }
  rewrite push_back_eq, (uniqueInsert_found _ _ _ Hf). simpl.
  eexists. split; [done|]. by simpl.
Qed.

Lemma X9_push_back_twice_witness :
  exists pv2,
    push_back (registry_of (apply_op origin_registry (PushBack (P 1 0 0))))
      (P 1 0 0) = Ok (1, pv2) /\
    data_vec pv2
    = data_vec (registry_of (apply_op origin_registry (PushBack (P 1 0 0)))) /\
    pnt_id_map pv2
    = pnt_id_map (registry_of (apply_op origin_registry (PushBack (P 1 0 0))))
      ++ [1].
Proof.
  apply (X9_push_back_twice origin_registry
           (registry_of (apply_op origin_registry (PushBack (P 1 0 0))))
           (P 1 0 0) 1); by vm_compute.
Defined.

(** ** Sequences of inserts, continued *)

Lemma apply_ops_cons pv op ops :
  apply_ops pv (op :: ops) = (pv1 ← apply_op pv op; apply_ops pv1 ops).
Proof. unfold apply_ops. simpl. by destruct (apply_op pv op). Qed.

(** What one insert does to the registry, by cases on the branch taken. *)
Lemma apply_op_cases pv op :
  exists pv', apply_op pv op = Ok pv' /\
    rel_eps pv' = rel_eps pv /\
    ((data_vec pv' = data_vec pv) \/
     (exists pnt, data_vec pv' = data_vec pv ++ [pnt] /\
        forall j q, data_vec pv !! j = Some q ->
                    within (rel_eps pv) q pnt = false)) /\
    ((pnt_id_map pv' = pnt_id_map pv) \/
     (exists id, pnt_id_map pv' = pnt_id_map pv ++ [id])) /\
    ((name_id_map pv' = name_id_map pv) \/
     (exists name id, map_find name (name_id_map pv) = None /\
        id < vsize (data_vec pv') /\
        name_id_map pv' = map_assign name id (name_id_map pv))).
Proof.
  assert (forall pnt id pv1, uniqueInsert pv pnt = (id, pv1) ->
            (data_vec pv1 = data_vec pv) \/
            (exists pnt, data_vec pv1 = data_vec pv ++ [pnt] /\
               forall j q, data_vec pv !! j = Some q ->
                           within (rel_eps pv) q pnt = false)) as Hdata.
  { intros pnt id pv1. unfold uniqueInsert.
    destruct (find_if_within (rel_eps pv) pnt (data_vec pv)) as [i|] eqn:Hf.
    - intros [= <- <-]. by left.
    - intros [= <- <-]. right. exists pnt. split; [done|].
      by apply find_if_within_None. }
  destruct op as [pnt|pnt [name|]]; simpl.
  - rewrite push_back_eq, bind_Ok. eexists; split; [done|]. simpl.
    destruct (uniqueInsert pv pnt) as [id pv1] eqn:Hu.
    destruct (uniqueInsert_spec _ _ _ _ Hu)
      as (_ & _ & Hnm & _ & Hidm & Heps & _).
    simpl. rewrite Hidm, Hnm, Heps. split; [done|].
    split; [by eapply Hdata|]. split; [right; by eexists|by left].
  - eexists; split; [done|]. unfold push_back_name.
    destruct (map_find name (name_id_map pv)) as [v|] eqn:Hfind.
    + simpl. split; [done|]. split; [by left|]. split; by left.
    + destruct (uniqueInsert pv pnt) as [id pv1] eqn:Hu.
      destruct (uniqueInsert_spec _ _ _ _ Hu)
        as (Hid & _ & Hnm & _ & Hidm & Heps & _).
      simpl. rewrite Hidm, Hnm, Heps. split; [done|].
      split; [by eapply Hdata|]. split; [right; by eexists|].
      right. by exists name, id.
  - eexists; split; [done|]. unfold push_back_name.
    destruct (uniqueInsert pv pnt) as [id pv1] eqn:Hu.
    destruct (uniqueInsert_spec _ _ _ _ Hu)
      as (_ & _ & Hnm & _ & Hidm & Heps & _).
    simpl. rewrite Hidm, Hnm, Heps. split; [done|].
    split; [by eapply Hdata|]. split; [right; by eexists|by left].
Qed.

(** A property that every insert keeps holds after any sequence of
    inserts, and the sequence runs to its end. *)
Lemma apply_ops_inv (I : PointVec -> Prop) ops : forall pv,
  (forall pv op pv', I pv -> apply_op pv op = Ok pv' -> I pv') ->
  I pv ->
  exists pv', apply_ops pv ops = Ok pv' /\ I pv'.
Proof.
  induction ops as [|op ops IH]; intros pv Hstep HI.
  - by exists pv.
  - rewrite apply_ops_cons.
    destruct (apply_op_cases pv op) as (pv1 & Hop & _). rewrite Hop, bind_Ok.
    apply IH; [done|]. by eapply Hstep.
Qed.

Lemma apply_ops_preserves (I : PointVec -> Prop) ops pv pv' :
  (forall pv op pv', I pv -> apply_op pv op = Ok pv' -> I pv') ->
  I pv -> apply_ops pv ops = Ok pv' -> I pv'.
Proof.
  intros Hstep HI Hrun.
  destruct (apply_ops_inv I ops pv Hstep HI) as (pv2 & Hrun2 & HI2).
  rewrite Hrun in Hrun2. by injection Hrun2 as ->.
Qed.

Lemma pairwise_apart_snoc eps v pnt :
  pairwise_apart eps v ->
  (forall j q, v !! j = Some q -> within eps q pnt = false) ->
  pairwise_apart eps (v ++ [pnt]).
Proof.
  intros Hv Hnew i j p q Hij Hp Hq.
  destruct (decide (i < length v)%nat) as [Hi|Hi];
    destruct (decide (j < length v)%nat) as [Hj|Hj].
  - rewrite lookup_app_l in Hp, Hq by done. by eapply Hv.
  - rewrite lookup_app_l in Hp by done.
    rewrite lookup_app_r in Hq by lia.
    apply list_lookup_singleton_Some in Hq as [_ <-]. by eapply Hnew.
  - rewrite lookup_app_l in Hq by done.
    rewrite lookup_app_r in Hp by lia.
    apply list_lookup_singleton_Some in Hp as [_ <-].
    rewrite within_sym. by eapply Hnew.
  - rewrite lookup_app_r in Hp, Hq by lia.
    apply list_lookup_singleton_Some in Hp as [Hi' _].
    apply list_lookup_singleton_Some in Hq as [Hj' _]. lia.
Qed.

Lemma map_assign_elem name id m entry :
  entry ∈ map_assign name id m -> entry = (name, id) \/ entry ∈ m.
Proof.
  induction m as [|[k v] r IH]; simpl.
  - intros Hin. apply list_elem_of_singleton in Hin. by left.
  - destruct (String.compare name k).
    + intros [->|Hin]%elem_of_cons; [by left|]. right. by right.
    + intros [->|Hin]%elem_of_cons; [by left|by right].
    + intros [->|Hin]%elem_of_cons; [right; by left|].
      destruct (IH Hin) as [->|Hr]; [by left|]. right. by right.
Qed.

(** X10: every sequence of inserts runs to its end without reading
    outside a vector, and the ids handed out before stay in force: the
    canonical points and the id map only grow at the end, and the
    tolerance is not changed. *)
Theorem X10_inserts_succeed_and_keep_ids (pv : PointVec)
    (ops : list insert_op) :
  exists pv',
    apply_ops pv ops = Ok pv' /\
    data_vec pv `prefix_of` data_vec pv' /\
    pnt_id_map pv `prefix_of` pnt_id_map pv' /\
    rel_eps pv' = rel_eps pv.
Proof.
  apply (apply_ops_inv
           (fun pv' => data_vec pv `prefix_of` data_vec pv' /\
                       pnt_id_map pv `prefix_of` pnt_id_map pv' /\
                       rel_eps pv' = rel_eps pv)); [|done].
  intros pv1 op pv2 (Hd & Hi & He) Hop.
  destruct (apply_op_cases pv1 op) as (pv2' & Hop' & He' & Hd' & Hi' & _).
  rewrite Hop in Hop'. injection Hop' as <-.
  split; [|split; [|congruence]].
  - destruct Hd' as [->|(pnt & -> & _)]; [done|].
    by apply prefix_app_r.
  - destruct Hi' as [->|(id & ->)]; [done|]. by apply prefix_app_r.
Qed.

(** X11: when the canonical points are pairwise farther apart than the
    tolerance, they still are after any sequence of inserts. *)
Theorem X11_inserts_keep_points_apart (pv pv' : PointVec)
    (ops : list insert_op) :
  pairwise_apart (rel_eps pv) (data_vec pv) ->
  apply_ops pv ops = Ok pv' ->
  pairwise_apart (rel_eps pv') (data_vec pv').
Proof.
  apply (apply_ops_preserves
           (fun pv => pairwise_apart (rel_eps pv) (data_vec pv))).
  intros pv1 op pv2 Hapart Hop.
  destruct (apply_op_cases pv1 op) as (pv2' & Hop' & He & Hd & _).
  rewrite Hop in Hop'. injection Hop' as <-. rewrite He.
  destruct Hd as [->|(pnt & -> & Hnew)]; [done|].
  by apply pairwise_apart_snoc.
Qed.

Lemma X11_inserts_keep_points_apart_witness :
  pairwise_apart
    (rel_eps (registry_of (apply_ops origin_registry
       [PushBack (P 1 0 0); PushBackName (P 1 0 (1 # 1000)) None])))
    (data_vec (registry_of (apply_ops origin_registry
       [PushBack (P 1 0 0); PushBackName (P 1 0 (1 # 1000)) None]))).
Proof.
  apply (X11_inserts_keep_points_apart origin_registry
           (registry_of (apply_ops origin_registry
              [PushBack (P 1 0 0); PushBackName (P 1 0 (1 # 1000)) None]))
           [PushBack (P 1 0 0); PushBackName (P 1 0 (1 # 1000)) None]);
    [|by vm_compute].
  intros [|i] [|j] p q Hij Hp Hq; simpl in Hp, Hq; done.
Defined.

(** X12: a name keeps the id it has: no sequence of inserts removes a
    name or points it at another id. *)
Theorem X12_inserts_keep_names (pv pv' : PointVec) (ops : list insert_op)
    (name : string) (id : N) :
  map_find name (name_id_map pv) = Some id ->
  apply_ops pv ops = Ok pv' ->
  map_find name (name_id_map pv') = Some id.
Proof.
  apply (apply_ops_preserves
           (fun pv => map_find name (name_id_map pv) = Some id)).
  intros pv1 op pv2 Hfind Hop.
  destruct (apply_op_cases pv1 op) as (pv2' & Hop' & _ & _ & _ & Hn).
  rewrite Hop in Hop'. injection Hop' as <-.
  destruct Hn as [->|(other & id' & Hfree & _ & ->)]; [done|].
  rewrite map_find_assign_ne; [done|]. intros ->. congruence.
Qed.

Lemma X12_inserts_keep_names_witness :
  map_find "A"
    (name_id_map (registry_of (apply_ops named_registry
       [PushBackName (P 7 7 7) (Some "A"%string);
        PushBackName (P 8 8 8) (Some "B"%string)])))
  = Some 0.
Proof.
  apply (X12_inserts_keep_names named_registry
           (registry_of (apply_ops named_registry
              [PushBackName (P 7 7 7) (Some "A"%string);
               PushBackName (P 8 8 8) (Some "B"%string)]))
           [PushBackName (P 7 7 7) (Some "A"%string);
            PushBackName (P 8 8 8) (Some "B"%string)]
           "A"%string 0); by vm_compute.
Defined.

(** X13: when every name points at a canonical point, it still does
    after any sequence of inserts. *)
Theorem X13_inserts_keep_names_valid (pv pv' : PointVec)
    (ops : list insert_op) :
  Forall (fun entry => snd entry < vsize (data_vec pv)) (name_id_map pv) ->
  apply_ops pv ops = Ok pv' ->
  Forall (fun entry => snd entry < vsize (data_vec pv')) (name_id_map pv').
Proof.
  apply (apply_ops_preserves
           (fun pv => Forall (fun entry => snd entry < vsize (data_vec pv))
                        (name_id_map pv))).
  intros pv1 op pv2 Hvalid Hop.
  destruct (apply_op_cases pv1 op) as (pv2' & Hop' & _ & Hd & _ & Hn).
  rewrite Hop in Hop'. injection Hop' as <-.
  assert (vsize (data_vec pv1) <= vsize (data_vec pv2)) as Hgrow.
  { destruct Hd as [->|(pnt & -> & _)]; [lia|].
    unfold vsize. rewrite length_app. lia. }
  assert (Forall (fun entry => snd entry < vsize (data_vec pv2))
            (name_id_map pv1)) as Hold.
  { eapply Forall_impl; [exact Hvalid|]. intros e He. simpl in He. lia. }
  destruct Hn as [->|(name & id & _ & Hid & ->)]; [done|].
  apply Forall_forall. intros entry Hin.
  apply map_assign_elem in Hin as [->|Hin]; [done|].
  rewrite Forall_forall in Hold. by apply Hold.
Qed.

Lemma X13_inserts_keep_names_valid_witness :
  Forall
    (fun entry => snd entry < vsize (data_vec (registry_of
       (apply_ops origin_registry
          [PushBackName (P 7 7 7) (Some "a"%string);
           PushBackName (P 7 7 7) (Some "b"%string)]))))
    (name_id_map (registry_of
       (apply_ops origin_registry
          [PushBackName (P 7 7 7) (Some "a"%string);
           PushBackName (P 7 7 7) (Some "b"%string)]))).
Proof.
  apply (X13_inserts_keep_names_valid origin_registry
           (registry_of (apply_ops origin_registry
              [PushBackName (P 7 7 7) (Some "a"%string);
               PushBackName (P 7 7 7) (Some "b"%string)]))
           [PushBackName (P 7 7 7) (Some "a"%string);
            PushBackName (P 7 7 7) (Some "b"%string)]);
    [constructor|by vm_compute].
Defined.

(** ** The id map of the bulk deduplication *)

Lemma flat_inj prs prs' : flat prs = flat prs' -> prs = prs'.
Proof.
  revert prs'; induction prs as [|[b e] r IH]; intros [|[b' e'] r']; simpl;
    try done.
  intros [= -> -> H]. f_equal. by apply IH.
Qed.

(** The intervals of the scan hold nothing but neighbours within
    [eps]. *)
Lemma scan_intervals_close (A : list Point) (eps : Q) :
  (1 <= length A)%nat ->
  exists ivl ident prs,
    for_loop 0 (size_sub (vsize A) 1) (scan_step A eps) ([], false)
      = Ok (ivl, ident) /\
    (if ident : bool then ivl ++ [vsize A] else ivl) = flat prs /\
    forall b e j, (b, e) ∈ prs ->
      (N.to_nat b <= j)%nat -> (S j < N.to_nat e)%nat ->
      close A eps j = true.
Proof.
  intros Hn. unfold vsize in *. rewrite size_sub_le by lia.
  destruct (for_loop_inv
    (fun (k : N) (st : list N * bool) => exists prs : list (N * N),
       (forall b e j, (b, e) ∈ prs ->
          (N.to_nat b <= j)%nat -> (S j < N.to_nat e)%nat ->
          close A eps j = true) /\
       if snd st
       then exists b, fst st = flat prs ++ [b] /\ b < k /\
              forall j, (N.to_nat b <= j)%nat -> (j < N.to_nat k)%nat ->
                        close A eps j = true
       else fst st = flat prs)
    0 (N.of_nat (length A) - 1) (scan_step A eps) ([], false))
    as ([ivl ident] & Hrun & prs & Hclosed & Hst).
  - lia.
  - exists []. simpl. split; [|done]. intros b e j Hin.
    by apply elem_of_nil in Hin.
  - intros k [ivl ident] Hk (prs & Hclosed & Hst). unfold scan_step.
    rewrite (vget_lt A (k + 1)), (vget_lt A k) by lia.
    rewrite !bind_Ok. replace (N.to_nat (k + 1)) with (S (N.to_nat k)) by lia.
    fold (close A eps (N.to_nat k)). simpl in Hst.
    destruct (close A eps (N.to_nat k)) eqn:Hcl, ident.
    + destruct Hst as (b & -> & Hb & Hopen).
      eexists; split; [done|]. exists prs. split; [done|]. simpl. exists b.
      split; [done|]. split; [lia|]. intros j Hj1 Hj2.
      destruct (decide (j = N.to_nat k)) as [->|]; [done|]. apply Hopen; lia.
    + subst ivl. eexists; split; [done|]. exists prs. split; [done|]. simpl.
      exists k. split; [done|]. split; [lia|]. intros j Hj1 Hj2.
      by replace j with (N.to_nat k) by lia.
    + destruct Hst as (b & -> & Hb & Hopen).
      eexists; split; [done|]. exists (prs ++ [(b, k + 1)]). simpl.
      split; [|by rewrite flat_snoc, <- app_assoc].
      intros b' e' j [Hin|Hin]%elem_of_app Hj1 Hj2; [by eapply Hclosed|].
      apply list_elem_of_singleton in Hin as [= -> ->]. apply Hopen; lia.
    + subst ivl. eexists; split; [done|]. exists prs. done.
  - exists ivl, ident. simpl in Hst. destruct ident.
    + destruct Hst as (b & -> & Hb & Hopen).
      exists (prs ++ [(b, N.of_nat (length A))]). split; [done|].
      split; [by rewrite flat_snoc, <- app_assoc|].
      intros b' e' j [Hin|Hin]%elem_of_app Hj1 Hj2; [by eapply Hclosed|].
      apply list_elem_of_singleton in Hin as [= -> ->]. apply Hopen; lia.
    + exists prs. done.
Qed.

(** The bubble sort moves an index inside its interval only. *)
Lemma bubble_phase_within prs perm :
  intervals_ok 0 prs (vsize perm) ->
  exists perm',
    for_loop 0 (vsize (flat prs) / 2) (bubble_interval (flat prs)) perm
      = Ok perm' /\
    forall j x, perm' !! j = Some x ->
      exists j', perm !! j' = Some x /\
        (j' = j \/
         exists b e, (b, e) ∈ prs /\
           (N.to_nat b <= j < N.to_nat e)%nat /\
           (N.to_nat b <= j' < N.to_nat e)%nat).
Proof.
  intros Hok.
  assert (vsize (flat prs) / 2 = N.of_nat (length prs)) as ->.
  { unfold vsize. rewrite length_flat.
    replace (N.of_nat (2 * length prs)) with (2 * N.of_nat (length prs)) by lia.
    rewrite N.mul_comm. apply N.div_mul. lia. }
  destruct (for_loop_inv
    (fun (i : N) p => length p = length perm /\
       forall j x, p !! j = Some x ->
         exists j', perm !! j' = Some x /\
           (j' = j \/
            exists b e, (b, e) ∈ prs /\
              (N.to_nat b <= j < N.to_nat e)%nat /\
              (N.to_nat b <= j' < N.to_nat e)%nat))
    0 (N.of_nat (length prs)) (bubble_interval (flat prs)) perm)
    as (perm' & Hrun & _ & Hwithin).
  - lia.
  - split; [done|]. intros j x Hx. exists j. split; [done|by left].
  - intros i p Hi [Hlen Hp].
    destruct (lookup_lt_is_Some_2 prs (N.to_nat i)) as [[b e] Hbe]; [lia|].
    pose proof (list_elem_of_lookup_2 _ _ _ Hbe) as Hin.
    destruct (intervals_ok_bounds _ _ _ _ _ Hok Hin) as (_ & Hlt & Hle).
    unfold vsize in Hle.
    eexists. split; [apply bubble_interval_spec; [done|done|lia]|].
    set (seg := take (N.to_nat (e - b)) (drop (N.to_nat b) p)).
    assert (length seg = N.to_nat (e - b)) as Hsegl
      by (unfold seg; rewrite length_take, length_drop; lia).
    split.
    { rewrite !length_app, bubble_iter_length, Hsegl, length_take, length_drop.
      lia. }
    intros j x Hx.
    assert (exists j2, p !! j2 = Some x /\
              (j2 = j \/ (N.to_nat b <= j < N.to_nat e)%nat /\
                         (N.to_nat b <= j2 < N.to_nat e)%nat))
      as (j2 & Hj2 & Hcase).
    { destruct (decide (j < N.to_nat b)%nat) as [Hjb|Hjb].
      - rewrite lookup_app_l in Hx by (rewrite length_take; lia).
        rewrite lookup_take_lt in Hx by lia. exists j. split; [done|by left].
      - rewrite lookup_app_r in Hx by (rewrite length_take; lia).
        rewrite length_take in Hx.
        replace (N.to_nat b `min` length p)%nat with (N.to_nat b) in Hx by lia.
        destruct (decide (j < N.to_nat e)%nat) as [Hje|Hje].
        + rewrite lookup_app_l in Hx by (rewrite bubble_iter_length; lia).
          apply list_elem_of_lookup_2 in Hx.
          rewrite bubble_iter_perm in Hx.
          apply list_elem_of_lookup in Hx as [t Ht].
          pose proof (lookup_lt_Some _ _ _ Ht) as Htl. rewrite Hsegl in Htl.
          unfold seg in Ht. rewrite lookup_take_lt in Ht by lia.
          rewrite lookup_drop in Ht.
          exists (N.to_nat b + t)%nat. split; [done|]. right. lia.
        + rewrite lookup_app_r in Hx by (rewrite bubble_iter_length; lia).
          rewrite bubble_iter_length, Hsegl, lookup_drop in Hx.
          replace (N.to_nat e + (j - N.to_nat b - N.to_nat (e - b)))%nat
            with j in Hx by lia.
          exists j. split; [done|by left]. }
    destruct (Hp j2 x Hj2) as (j' & Hj' & Hcase').
    exists j'. split; [done|].
    destruct Hcase as [->|[Hjin Hj2in]]; [done|].
    destruct Hcase' as [->|(b' & e' & Hin' & Hj2in' & Hj'in)].
    + right. exists b, e. done.
    + assert ((b, e) = (b', e')) as [= <- <-].
      { eapply (intervals_ok_disjoint _ _ _ _ _ _ _ (N.of_nat j2));
          [done|done|done|lia|lia]. }
      right. exists b, e. split; [done|]. lia.
  - exists perm'. done.
Qed.

Lemma run_head_const (A : list Point) (eps : Q) (b e : nat) :
  (forall j, (b <= j)%nat -> (S j < e)%nat -> close A eps j = true) ->
  forall j, (b <= j < e)%nat -> run_head A eps j = run_head A eps b.
Proof.
  intros Hcl j. induction j as [|j IH]; intros Hj.
  - by replace b with 0%nat by lia.
  - destruct (decide (b = S j)) as [->|Hne]; [done|].
    simpl. rewrite Hcl by lia. apply IH. lia.
Qed.

Lemma run_head_idem (A : list Point) (eps : Q) (j : nat) :
  run_head A eps (run_head A eps j) = run_head A eps j.
Proof.
  induction j as [|j IH]; [done|]. simpl.
  destruct (close A eps j) eqn:Hcl; [done|]. simpl. by rewrite Hcl.
Qed.

(** The renumbering gives every index the rank of its head among the
    indices that keep their point. *)
Lemma renumber_rank (idm idm' : list N) (id : N) :
  (forall j, (j < length idm)%nat -> idm !!! j <= N.of_nat j) ->
  (forall j, (j < length idm)%nat ->
     idm !!! N.to_nat (idm !!! j) = idm !!! j) ->
  for_loop 0 (vsize idm) renumber_step (idm, 0) = Ok (idm', id) ->
  forall k, (k < length idm)%nat ->
    survivors idm (length idm) !! N.to_nat (idm' !!! k)
    = Some (N.to_nat (idm !!! k)).
Proof.
  intros Hle Hfix Hloop.
  destruct (for_loop_inv
    (fun k st =>
       length (fst st) = length idm /\
       snd st = N.of_nat (length (survivors idm (N.to_nat k))) /\
       (forall j, (j < N.to_nat k)%nat ->
          survivors idm (N.to_nat k) !! N.to_nat (fst st !!! j)
          = Some (N.to_nat (idm !!! j))) /\
       (forall j, (N.to_nat k <= j)%nat -> fst st !! j = idm !! j))
    0 (vsize idm) renumber_step (idm, 0))
    as ([idm2 id2] & Hrun & Hl & _ & Hrank & _).
  - lia.
  - simpl. split; [done|]. split; [done|]. split; [intros; lia|done].
  - intros k [idm1 id1] Hk (Hl & Hid & Hrank & Hrest). simpl in *.
    unfold vsize in Hk. unfold renumber_step.
    assert (idm1 !! N.to_nat k = Some (idm !!! N.to_nat k)) as Hv.
    { rewrite Hrest by lia. apply list_lookup_lookup_total_lt. lia. }
    rewrite (vget_lookup idm1 k _ Hv), bind_Ok.
    replace (N.to_nat (k + 1)) with (S (N.to_nat k)) by lia.
    rewrite survivors_S.
    pose proof (Hle (N.to_nat k) ltac:(lia)) as Hlek.
    destruct (N.eqb_spec (idm !!! N.to_nat k) k) as [Heq|Hne].
    + rewrite vset_lt by lia. rewrite bind_Ok. eexists; split; [done|]. simpl.
      split; [by rewrite length_insert|].
      rewrite decide_True by lia. rewrite length_app. simpl.
      split; [lia|]. split.
      * intros j Hj. destruct (decide (j = N.to_nat k)) as [->|Hjk].
        -- rewrite (list_lookup_total_correct _ _ id1)
             by (apply list_lookup_insert_eq; lia).
           rewrite Hid, Nat2N.id, Heq.
           rewrite lookup_app_r by lia. by rewrite Nat.sub_diag.
        -- rewrite (list_lookup_total_correct _ _ (idm1 !!! j)).
           ++ apply lookup_app_l_Some. apply Hrank. lia.
           ++ rewrite list_lookup_insert_ne by done.
              apply list_lookup_lookup_total_lt. lia.
      * intros j Hj. rewrite list_lookup_insert_ne by lia. apply Hrest. lia.
    + assert (idm !!! N.to_nat k < k) as Hlt by lia.
      assert (idm1 !! N.to_nat (idm !!! N.to_nat k)
              = Some (idm1 !!! N.to_nat (idm !!! N.to_nat k))) as Hw.
      { apply list_lookup_lookup_total_lt. lia. }
      rewrite (vget_lookup idm1 _ _ Hw), bind_Ok.
      rewrite vset_lt by lia. rewrite bind_Ok. eexists; split; [done|]. simpl.
      split; [by rewrite length_insert|].
      rewrite decide_False by lia. rewrite app_nil_r.
      split; [done|]. split.
      * intros j Hj. destruct (decide (j = N.to_nat k)) as [->|Hjk].
        -- rewrite (list_lookup_total_correct _ _
                      (idm1 !!! N.to_nat (idm !!! N.to_nat k)))
             by (apply list_lookup_insert_eq; lia).
           rewrite Hrank by lia. by rewrite Hfix by lia.
        -- rewrite (list_lookup_total_correct _ _ (idm1 !!! j)).
           ++ apply Hrank. lia.
           ++ rewrite list_lookup_insert_ne by done.
              apply list_lookup_lookup_total_lt. lia.
      * intros j Hj. rewrite list_lookup_insert_ne by lia. apply Hrest. lia.
  - rewrite Hloop in Hrun. injection Hrun as <- <-. simpl in Hrank.
    intros k Hk. unfold vsize in Hrank. rewrite Nat2N.id in Hrank.
    by apply Hrank.
Qed.

(** A run of [makePntsUnique] seen from the sorted vector: the input
    point [i] sits at a sorted position [j]; its id is the rank, among
    the indices that keep their point, of the index at the head of the
    run of [j], and the canonical point under that id is the point at
    the head of the run. *)
Lemma makePntsUnique_ids srt pts eps canon idm :
  makePntsUnique srt pts eps = Ok (canon, idm) ->
  exists (perm idm4 : list N),
    length canon = length (survivors idm4 (length pts)) /\
    (forall i, (i < length pts)%nat ->
       idm4 !!! i <= N.of_nat i /\
       survivors idm4 (length pts) !! N.to_nat (idm !!! i)
       = Some (N.to_nat (idm4 !!! i))) /\
    forall i p, pts !! i = Some p ->
      exists j, sorted_points srt pts !! j = Some p /\
        idm4 !!! i = perm !!! run_head (sorted_points srt pts) eps j /\
        canon !! N.to_nat (idm !!! i)
        = Some (sorted_points srt pts
                  !!! run_head (sorted_points srt pts) eps j).
Proof.
  intros Hrun. pose proof (makePntsUnique_Ok_nonempty _ _ _ _ Hrun) as Hn.
  revert Hrun. unfold sorted_points, makePntsUnique.
  destruct (Quicksort srt point_le pts (iota (length pts))) as [A perm0] eqn:HQ1.
  cbn [fst].
  assert (length pts = length (iota (length pts))) as Hl0 by by rewrite length_iota.
  pose proof (Quicksort_length_keys srt point_le _ _ _ _ Hl0 HQ1) as HlA.
  pose proof (Quicksort_values srt point_le _ _ _ _ Hl0 HQ1) as Hperm0.
  assert (vsize pts = vsize A) as Hsz by (unfold vsize; by rewrite HlA).
  rewrite Hsz.
  (* the scan *)
  destruct (scan_spec A eps ltac:(lia))
    as (ivl & ident & prs & Hscan & Hflat & Hok & Hcov).
  destruct (scan_intervals_close A eps ltac:(lia))
    as (ivl' & ident' & prs' & Hscan' & Hflat' & Hclosed).
  rewrite Hscan in Hscan'. injection Hscan' as <- <-.
  rewrite Hflat in Hflat'. apply flat_inj in Hflat' as <-.
  rewrite Hscan, bind_Ok. cbv beta iota. rewrite Hflat.
  (* the bubble sort *)
  assert (vsize perm0 = vsize A) as Hsz0.
  { unfold vsize. by rewrite (Permutation_length Hperm0), length_iota, HlA. }
  destruct (bubble_phase_spec prs perm0 ltac:(by rewrite Hsz0))
    as (perm & Hbub & Hperm & Hsorted).
  destruct (bubble_phase_within prs perm0 ltac:(by rewrite Hsz0))
    as (perm' & Hbub' & Hwithin).
  rewrite Hbub in Hbub'. injection Hbub' as <-.
  rewrite Hbub, bind_Ok.
  assert (Permutation perm0 (iota (length A))) as Hperm0'
    by (by rewrite Hperm0, HlA).
  assert (Permutation perm (iota (length A))) as Hperm'
    by (by rewrite Hperm).
  (* the merge *)
  rewrite <- HlA.
  destruct (merge_spec A eps perm Hperm' ltac:(lia)) as (idm4 & -> & Hl4 & Hhead).
  rewrite bind_Ok.
  pose proof (run_head_least A eps prs perm Hperm' Hok Hcov Hsorted) as Hleast.
  (* the reverse permutation *)
  destruct (Quicksort srt N.leb perm A) as [perm3 pv3] eqn:HQ2.
  destruct (reverse_permutation srt A pv3 perm perm3 Hperm' HQ2) as [Hl3 Hpv3].
  (* the deletion *)
  assert (vsize A = vsize pv3) as -> by (unfold vsize; by rewrite Hl3).
  destruct (delete_spec idm4 pv3 ltac:(lia)) as (pv' & -> & Hl' & Hpv').
  rewrite bind_Ok.
  pose proof (idm4_le A eps perm idm4 Hperm' Hl4 Hhead Hleast) as Hle.
  rewrite (remove_nullptr_spec idm4 pv3 pv')
    by (try done; intros j Hj; apply Hle; lia).
  (* the renumbering *)
  assert (vsize pv3 = vsize idm4) as -> by (unfold vsize; by rewrite Hl3, Hl4).
  destruct (renumber_spec idm4 ltac:(by rewrite Hl4))
    as (idm_r & id & Hren & Hli & Hid & Hval).
  rewrite Hren, bind_Ok. intros [= <- <-].
  assert (forall j, (j < length A)%nat -> (run_head A eps j < length A)%nat)
    as Hrh_lt.
  { intros j Hj. pose proof (run_head_le A eps j). lia. }
  assert (forall i t, (i < length A)%nat -> perm !! t = Some (N.of_nat i) ->
            idm4 !!! i = perm !!! run_head A eps t) as Hhead'.
  { intros i t Hi Ht. pose proof (lookup_lt_Some _ _ _ Ht) as Htl.
    rewrite (perm_length A perm Hperm') in Htl.
    pose proof (Hhead t Htl) as Hh.
    rewrite (list_lookup_total_correct _ _ _ Ht), Nat2N.id in Hh.
    by apply list_lookup_total_correct in Hh. }
  assert (forall j, (j < length idm4)%nat ->
            idm4 !!! N.to_nat (idm4 !!! j) = idm4 !!! j) as Hfixed.
  { intros j Hj. rewrite Hl4 in Hj.
    destruct (perm_surjective A perm Hperm' j Hj) as [t Ht].
    pose proof (lookup_lt_Some _ _ _ Ht) as Htl.
    rewrite (perm_length A perm Hperm') in Htl.
    rewrite (Hhead' j t Hj Ht).
    pose proof (Hhead (run_head A eps t) (Hrh_lt t Htl)) as Hh.
    rewrite run_head_idem in Hh. by apply list_lookup_total_correct in Hh. }
  pose proof (renumber_rank idm4 idm_r id
                ltac:(by rewrite Hl4) Hfixed Hren) as Hrank.
  rewrite Hl4 in Hrank. rewrite Hl3, HlA.
  exists perm, idm4. split; [by rewrite length_map|]. split.
  { intros i Hi. split; [apply Hle; lia|]. rewrite <- HlA. apply Hrank. lia. }
  intros i p Hp. pose proof (lookup_lt_Some _ _ _ Hp) as Hi.
  rewrite <- HlA in Hi.
  destruct (perm_surjective A perm0 Hperm0' i Hi) as [j0 Hj0].
  pose proof (lookup_lt_Some _ _ _ Hj0) as Hj0l.
  rewrite (perm_length A perm0 Hperm0') in Hj0l.
  assert (A !! j0 = Some p) as HA0.
  { pose proof (list_lookup_lookup_total_lt A j0 Hj0l) as HA.
    destruct (sort_origin srt pts A perm0 j0 _ _ HQ1 HA Hj0) as [Ho _].
    rewrite Nat2N.id, Hp in Ho. by injection Ho as ->. }
  destruct (perm_surjective A perm Hperm' i Hi) as [j1 Hj1].
  pose proof (lookup_lt_Some _ _ _ Hj1) as Hj1l.
  rewrite (perm_length A perm Hperm') in Hj1l.
  destruct (Hwithin j1 _ Hj1) as (j' & Hj' & Hcase).
  assert (j' = j0) as ->.
  { eapply (NoDup_lookup perm0); [apply (perm_NoDup A perm0 Hperm0')|done..]. }
  assert (run_head A eps j0 = run_head A eps j1) as Hrh.
  { destruct Hcase as [->|(b & e & Hin & Hj1in & Hj0in)]; [done|].
    rewrite (run_head_const A eps (N.to_nat b) (N.to_nat e)
               (fun j => Hclosed b e j Hin) j0) by done.
    by rewrite (run_head_const A eps (N.to_nat b) (N.to_nat e)
                  (fun j => Hclosed b e j Hin) j1) by done. }
  exists j0. split; [done|]. rewrite Hrh.
  split; [by apply Hhead'|].
  rewrite list_lookup_fmap, <- HlA, (Hrank i Hi). simpl. f_equal.
  rewrite (Hhead' i j1 Hi Hj1).
  by apply list_lookup_total_correct, Hpv3, Hrh_lt.
Qed.

Lemma maxNormDist_triangle p q r :
  (maxNormDist p r <= maxNormDist p q + maxNormDist q r)%Q.
Proof.
  assert (forall a b c x y : Q,
            (Qabs (b - a) <= x -> Qabs (c - b) <= y ->
             Qabs (c - a) <= x + y)%Q) as Hco.
  { intros a b c x y Hx Hy.
    assert (c - a == (b - a) + (c - b))%Q as -> by ring.
    eapply Qle_trans; [apply Qabs_triangle|]. by apply Qplus_le_compat. }
  unfold maxNormDist. repeat apply Q.max_lub.
  - apply (Hco _ (px q)); apply Q.le_max_l.
  - apply (Hco _ (py q));
      (eapply Qle_trans; [apply Q.le_max_l|apply Q.le_max_r]).
  - apply (Hco _ (pz q));
      (eapply Qle_trans; [apply Q.le_max_r|apply Q.le_max_r]).
Qed.

Lemma close_dist (A : list Point) (eps : Q) (j : nat) :
  close A eps j = true -> (maxNormDist (A !!! j) (A !!! S j) <= eps)%Q.
Proof.
  unfold close, within. rewrite Qle_bool_iff. by rewrite maxNormDist_sym.
Qed.

(** A point of a run is within [eps] times its distance in positions of
    the head of the run. *)
Lemma run_chain_dist (A : list Point) (eps : Q) (j : nat) :
  (maxNormDist (A !!! run_head A eps j) (A !!! j)
   <= inject_Z (Z.of_nat (j - run_head A eps j)) * eps)%Q.
Proof.
  induction j as [|j IH]; simpl run_head.
  - rewrite maxNormDist_refl. change (0 <= 0 * eps)%Q. lra.
  - destruct (close A eps j) eqn:Hcl.
    + pose proof (run_head_le A eps j) as Hle.
      replace (S j - run_head A eps j)%nat
        with (S (j - run_head A eps j)) by lia.
      rewrite Nat2Z.inj_succ. unfold Z.succ. rewrite inject_Z_plus.
      apply close_dist in Hcl.
      pose proof (maxNormDist_triangle (A !!! run_head A eps j) (A !!! j)
                    (A !!! S j)) as Htri.
      change (inject_Z 1) with 1%Q. lra.
    + rewrite maxNormDist_refl, Nat.sub_diag. change (0 <= 0 * eps)%Q. lra.
Qed.

Lemma inject_nat_le (a b : nat) (eps : Q) :
  (0 <= eps)%Q -> (a <= b)%nat ->
  (inject_Z (Z.of_nat a) * eps <= inject_Z (Z.of_nat b) * eps)%Q.
Proof.
  intros Heps Hab. apply Qmult_le_compat_r; [|done].
  rewrite <- Zle_Qle. lia.
Qed.

(** Every input point has its canonical point within the tolerance
    times the number of other points. *)
Lemma canonical_point_near srt pts eps canon idm (i : nat) p :
  (0 <= eps)%Q ->
  makePntsUnique srt pts eps = Ok (canon, idm) ->
  pts !! i = Some p ->
  exists c, canon !! N.to_nat (idm !!! i) = Some c /\
    (maxNormDist c p <= inject_Z (Z.of_nat (length pts - 1)) * eps)%Q.
Proof.
  intros Heps Hrun Hp.
  destruct (makePntsUnique_ids _ _ _ _ _ Hrun) as (perm & idm4 & _ & _ & Hids).
  destruct (Hids i p Hp) as (j & Hj & _ & Hc).
  eexists. split; [exact Hc|].
  pose proof (lookup_lt_Some _ _ _ Hj) as Hjl.
  rewrite (Permutation_length (sorted_points_perm srt pts)) in Hjl.
  rewrite <- (list_lookup_total_correct _ _ _ Hj).
  eapply Qle_trans; [apply run_chain_dist|].
  apply inject_nat_le; [done|lia].
Qed.

(** Equal points of a sorted vector lie in one run. *)
Lemma equal_points_one_run (A : list Point) (eps : Q) (j j' : nat) p :
  StronglySorted (fun p q => point_le p q = true) A ->
  (0 <= eps)%Q ->
  A !! j = Some p -> A !! j' = Some p ->
  run_head A eps j = run_head A eps j'.
Proof.
  intros HA Heps.
  assert (forall j j', (j <= j')%nat -> A !! j = Some p -> A !! j' = Some p ->
            run_head A eps j' = run_head A eps j) as Hord.
  { clear j j'. intros j j' Hjj Hj Hj'.
    pose proof (lookup_lt_Some _ _ _ Hj') as Hl.
    apply (run_head_const A eps j (S j')); [|lia].
    intros k Hk1 Hk2. unfold close. apply within_true.
    assert (A !! k = Some (A !!! k)) as Hk
      by (apply list_lookup_lookup_total_lt; lia).
    assert (A !! S k = Some (A !!! S k)) as HSk
      by (apply list_lookup_lookup_total_lt; lia).
    rewrite (point_le_antisym_dist (A !!! S k) (A !!! k)); [done| |].
    - eapply point_le_trans.
      + apply (sorted_point_le A (S k) j' _ p HA); [lia|done|done].
      + apply (sorted_point_le A j k p _ HA); [lia|done|done].
    - apply (sorted_point_le A k (S k) _ _ HA); [lia|done|done]. }
  intros Hj Hj'. destruct (decide (j <= j')%nat).
  - symmetry. by apply Hord.
  - apply Hord; [lia|done..].
Qed.

Lemma filter_seq_rank (Pr : nat -> Prop) `{forall x, Decision (Pr x)}
    (k : nat) : forall a r s,
  filter Pr (seq a k) !! r = Some s -> (a + r <= s)%nat.
Proof.
  induction k as [|k IH]; intros a r s; simpl; [done|].
  rewrite filter_cons. destruct (decide (Pr a)).
  - destruct r as [|r]; simpl.
    + intros [= <-]. lia.
    + intros Hs. apply IH in Hs. lia.
  - intros Hs. apply IH in Hs. lia.
Qed.

(** Every pair of neighbours between the head of a run and a position
    of the run passes the test of lines 130 and 157. *)
Lemma run_head_close (A : list Point) (eps : Q) (j : nat) : forall k,
  (run_head A eps j <= k)%nat -> (k < j)%nat -> close A eps k = true.
Proof.
  induction j as [|j IH]; intros k; simpl; [lia|].
  destruct (close A eps j) eqn:Hcl; [|lia].
  intros Hk1 Hk2. destruct (decide (k = j)) as [->|Hne]; [done|].
  apply IH; lia.
Qed.

(** X14: the canonical point under the id of an input point is linked
    to that point by a chain of input points: the chain starts at the
    canonical point and ends at the input point, and each of its points
    passes the test of lines 130 and 157 with the one in front of
    it. Points are merged through such chains only. *)
Theorem X14_canonical_point_linked_by_chain (srt : Sorter)
    (pts canon : list Point) (idm : list N) (eps : Q) (i : nat) (p : Point) :
  makePntsUnique srt pts eps = Ok (canon, idm) ->
  pts !! i = Some p ->
  exists c chain,
    canon !! N.to_nat (idm !!! i) = Some c /\
    chain !! 0%nat = Some c /\
    last chain = Some p /\
    Forall (fun q => q ∈ pts) chain /\
    forall t a b, chain !! t = Some a -> chain !! S t = Some b ->
                  within eps b a = true.
Proof.
  intros Hrun Hp.
  destruct (makePntsUnique_ids _ _ _ _ _ Hrun) as (perm & idm4 & _ & _ & Hids).
  destruct (Hids i p Hp) as (j & Hj & _ & Hc).
  set (A := sorted_points srt pts) in *.
  set (h := run_head A eps j) in *.
  pose proof (run_head_le A eps j) as Hhj. fold h in Hhj.
  pose proof (lookup_lt_Some _ _ _ Hj) as Hjl.
  assert (forall t, (t <= j - h)%nat ->
            take (S (j - h)) (drop h A) !! t = A !! (h + t)%nat) as Hseg.
  { intros t Ht. rewrite lookup_take_lt by lia. by rewrite lookup_drop. }
  exists (A !!! h), (take (S (j - h)) (drop h A)).
  split; [done|]. split.
  { rewrite Hseg by lia. rewrite Nat.add_0_r.
    apply list_lookup_lookup_total_lt. lia. }
  split.
  { rewrite last_lookup, length_take, length_drop.
    replace (S (j - h) `min` (length A - h))%nat with (S (j - h)) by lia.
    simpl. rewrite Hseg by lia. by replace (h + (j - h))%nat with j by lia. }
  split.
  { apply Forall_forall. intros q Hq.
    rewrite <- (sorted_points_perm srt pts). fold A.
    apply list_elem_of_lookup in Hq as [t Ht].
    pose proof (lookup_lt_Some _ _ _ Ht) as Htl. rewrite length_take in Htl.
    rewrite Hseg in Ht by lia. by eapply list_elem_of_lookup_2. }
  intros t a b Ha Hb.
  assert (S t <= j - h)%nat as Ht.
  { apply lookup_lt_Some in Hb. rewrite length_take in Hb. lia. }
  rewrite Hseg in Ha, Hb by lia.
  replace (h + S t)%nat with (S (h + t)) in Hb by lia.
  pose proof (run_head_close A eps j (h + t)%nat) as Hcl.
  unfold close in Hcl.
  rewrite (list_lookup_total_correct _ _ _ Ha),
    (list_lookup_total_correct _ _ _ Hb) in Hcl.
  apply Hcl; unfold h; lia.
Qed.

Lemma X14_canonical_point_linked_by_chain_witness :
  exists c chain,
    [P 0 0 0; P 1 1 1] !! N.to_nat ([0; 1; 1; 1] !!! 3%nat) = Some c /\
    chain !! 0%nat = Some c /\
    last chain = Some (P 1 1 (1002 # 1000)) /\
    Forall (fun q => q ∈ chain_points) chain /\
    forall t a b, chain !! t = Some a -> chain !! S t = Some b ->
                  within (173 # 10000) b a = true.
Proof.
  apply (X14_canonical_point_linked_by_chain insertion_sorter chain_points
           [P 0 0 0; P 1 1 1] [0; 1; 1; 1] (173 # 10000) 3
           (P 1 1 (1002 # 1000))); by vm_compute.
Defined.

(** X15: with tolerance zero only exact duplicates are merged: the
    canonical point under the id of an input point has the coordinates
    of that point. *)
Theorem X15_zero_tolerance_merges_equal_points (srt : Sorter)
    (pts canon : list Point) (idm : list N) (i : nat) (p : Point) :
  makePntsUnique srt pts 0 = Ok (canon, idm) ->
  pts !! i = Some p ->
  exists c, canon !! N.to_nat (idm !!! i) = Some c /\
    (px c == px p /\ py c == py p /\ pz c == pz p)%Q.
Proof.
  intros Hrun Hp.
  destruct (canonical_point_near srt pts 0 canon idm i p) as (c & Hc & Hd);
    [lra|done|done|].
  exists c. split; [done|].
  assert (maxNormDist c p <= 0)%Q as Hz by lra. clear Hd.
  unfold maxNormDist in Hz.
  pose proof (Q.max_lub_l _ _ _ Hz) as Hx.
  pose proof (Q.max_lub_r _ _ _ Hz) as Hyz.
  pose proof (Q.max_lub_l _ _ _ Hyz) as Hy.
  pose proof (Q.max_lub_r _ _ _ Hyz) as Hzz.
  apply Qabs_Qle_condition in Hx, Hy, Hzz. lra.
Qed.

Lemma X15_zero_tolerance_merges_equal_points_witness :
  exists c,
    [P (2 # 2) 1 1; P 0 0 0] !! N.to_nat ([0; 1; 0] !!! 0%nat) = Some c /\
    (px c == px (P 1 1 1) /\ py c == py (P 1 1 1) /\ pz c == pz (P 1 1 1))%Q.
Proof.
  apply (X15_zero_tolerance_merges_equal_points insertion_sorter
           [P 1 1 1; P 0 0 0; P (2 # 2) 1 1]
           [P (2 # 2) 1 1; P 0 0 0] [0; 1; 0] 0 (P 1 1 1)); by vm_compute.
Defined.

(** X16: with a tolerance that is not negative, two input positions
    that hold the same point get the same id. *)
Theorem X16_equal_points_share_id (srt : Sorter)
    (pts canon : list Point) (idm : list N) (eps : Q) (i i' : nat)
    (p : Point) :
  (0 <= eps)%Q ->
  makePntsUnique srt pts eps = Ok (canon, idm) ->
  pts !! i = Some p -> pts !! i' = Some p ->
  idm !!! i = idm !!! i'.
Proof.
  intros Heps Hrun Hp Hp'.
  destruct (makePntsUnique_ids _ _ _ _ _ Hrun)
    as (perm & idm4 & _ & Hrank & Hids).
  destruct (Hids i p Hp) as (j & Hj & H4 & _).
  destruct (Hids i' p Hp') as (j' & Hj' & H4' & _).
  destruct (Hrank i (lookup_lt_Some _ _ _ Hp)) as [_ Hr].
  destruct (Hrank i' (lookup_lt_Some _ _ _ Hp')) as [_ Hr'].
  rewrite (equal_points_one_run _ eps j j' p
             (sorted_points_sorted srt pts) Heps Hj Hj') in H4.
  rewrite <- H4' in H4. rewrite H4 in Hr.
  apply N2Nat.inj.
  eapply (NoDup_lookup (survivors idm4 (length pts)));
    [apply survivors_NoDup|exact Hr|exact Hr'].
Qed.

Lemma X16_equal_points_share_id_witness :
  [0; 1; 0] !!! 0%nat = [0; 1; 0] !!! 2%nat.
Proof.
  apply (X16_equal_points_share_id insertion_sorter
           [P 1 1 1; P 0 0 0; P 1 1 1]
           [P 1 1 1; P 0 0 0] [0; 1; 0] 0 0 2 (P 1 1 1)); by vm_compute.
Defined.

(** X17: the id of an input point is never above its position in the
    input; the first input point has id [0]. *)
Theorem X17_id_not_above_position (srt : Sorter)
    (pts canon : list Point) (idm : list N) (eps : Q) (i : nat) (v : N) :
  makePntsUnique srt pts eps = Ok (canon, idm) ->
  idm !! i = Some v ->
  v <= N.of_nat i.
Proof.
  intros Hrun Hv.
  destruct (makePntsUnique_run srt pts eps
              (makePntsUnique_Ok_nonempty _ _ _ _ Hrun))
    as (t & canon' & idm' & Hrun' & Hf).
  rewrite Hrun in Hrun'. injection Hrun' as <- <-.
  pose proof (lookup_lt_Some _ _ _ Hv) as Hi.
  rewrite (dr_idm_length _ _ _ _ _ _ Hf) in Hi.
  destruct (makePntsUnique_ids _ _ _ _ _ Hrun)
    as (perm & idm4 & _ & Hrank & _).
  destruct (Hrank i Hi) as [Hle Hr].
  rewrite (list_lookup_total_correct _ _ _ Hv) in Hr.
  apply (filter_seq_rank _ _ 0%nat) in Hr. lia.
Qed.

Lemma X17_id_not_above_position_witness : 1 <= N.of_nat 3.
Proof.
  apply (X17_id_not_above_position insertion_sorter chain_points
           [P 0 0 0; P 1 1 1] [0; 1; 1; 1] (173 # 10000) 3 1); by vm_compute.
Defined.

(** X18: every canonical id is the id of an input point. *)
Theorem X18_every_canonical_id_used (srt : Sorter)
    (pts canon : list Point) (idm : list N) (eps : Q) (c : N) :
  makePntsUnique srt pts eps = Ok (canon, idm) ->
  c < vsize canon ->
  exists i, idm !! i = Some c.
Proof.
  intros Hrun Hc.
  destruct (makePntsUnique_run srt pts eps
              (makePntsUnique_Ok_nonempty _ _ _ _ Hrun))
    as (t & canon' & idm' & Hrun' & Hf).
  rewrite Hrun in Hrun'. injection Hrun' as <- <-.
  pose proof (dr_idm_length _ _ _ _ _ _ Hf) as Hl.
  destruct (makePntsUnique_ids _ _ _ _ _ Hrun)
    as (perm & idm4 & Hlen & Hrank & _).
  unfold vsize in Hc. rewrite Hlen in Hc.
  destruct (lookup_lt_is_Some_2 (survivors idm4 (length pts)) (N.to_nat c))
    as [s Hs]; [lia|].
  pose proof (list_elem_of_lookup_2 _ _ _ Hs) as Hin.
  apply survivors_elem in Hin as [Hfix Hlt].
  destruct (Hrank s Hlt) as [_ Hr]. rewrite Hfix, Nat2N.id in Hr.
  exists s.
  assert (N.to_nat (idm !!! s) = N.to_nat c) as Heq.
  { eapply (NoDup_lookup (survivors idm4 (length pts)));
      [apply survivors_NoDup|exact Hr|exact Hs]. }
  apply N2Nat.inj in Heq. rewrite <- Heq.
  apply list_lookup_lookup_total_lt. lia.
Qed.

Lemma X18_every_canonical_id_used_witness :
  exists i, [0; 1; 1; 1] !! i = Some 1.
Proof.
  apply (X18_every_canonical_id_used insertion_sorter chain_points
           [P 0 0 0; P 1 1 1] [0; 1; 1; 1] (173 # 10000) 1); by vm_compute.
Defined.

(** ** Names *)

Lemma vget_Ok `{Inhabited A} (v : list A) (k : N) (a : A) :
  vget v k = Ok a -> a = v !!! N.to_nat k /\ (N.to_nat k < length v)%nat.
Proof.
  unfold vget. destruct (v !! N.to_nat k) as [b|] eqn:Hb; [|done].
  intros [= <-]. split; [by rewrite (list_lookup_total_correct _ _ _ Hb)|].
  by eapply lookup_lt_Some.
Qed.

(** The visit of lines 194-217 keeps the entries in order, erases some
    of them and points every entry it keeps at the id-map entry of its
    id. *)
Lemma correct_entries_sublist (idm : list N) (id_names : list string)
    (m : name_id_map_t) : forall visited visited',
  foldM (correct_entry idm id_names) visited m = Ok visited' ->
  exists kept,
    visited' = rev kept ++ visited /\
    kept `sublist_of` map (fun e => (fst e, idm !!! N.to_nat (snd e))) m.
Proof.
  induction m as [|[name id] m IH]; intros visited visited'; simpl.
  - intros [= <-]. by exists [].
  - assert (forall visited1,
              foldM (correct_entry idm id_names) visited1 m = Ok visited' ->
              visited1 = visited \/
                visited1 = (name, idm !!! N.to_nat id) :: visited ->
              exists kept,
                visited' = rev kept ++ visited /\
                kept `sublist_of`
                  (name, idm !!! N.to_nat id)
                  :: map (fun e => (fst e, idm !!! N.to_nat (snd e))) m)
      as Hnext.
    { intros visited1 Hrest Hcase.
      destruct (IH _ _ Hrest) as (kept & -> & Hsub).
      destruct Hcase as [-> | ->].
      - exists kept. split; [done|]. by apply sublist_cons.
      - exists ((name, idm !!! N.to_nat id) :: kept). split.
        + simpl. by rewrite <- app_assoc.
        + by apply sublist_skip. }
    unfold correct_entry at 1. simpl.
    destruct (vget idm id) as [v|] eqn:Hv; [|done]. rewrite bind_Ok.
    apply vget_Ok in Hv as [-> _].
    destruct (N.eqb_spec (idm !!! N.to_nat id) id) as [Heq|Hne].
    { intros Hrest. apply (Hnext _ Hrest). right. by rewrite Heq. }
    destruct (vget idm (idm !!! N.to_nat id)) as [w|]; [|done].
    rewrite bind_Ok. destruct (w =? idm !!! N.to_nat id).
    + destruct (vget id_names (idm !!! N.to_nat id)) as [nm|]; [|done].
      rewrite bind_Ok. destruct (negb _); intros Hrest;
        apply (Hnext _ Hrest); auto.
    + intros Hrest. apply (Hnext _ Hrest). auto.
Qed.

(** X19: name reconciliation keeps the names it keeps in their order,
    and each of them points at the id-map entry of the position it
    pointed at before. *)
Theorem X19_reconciled_names (idm : list N) (m m' : name_id_map_t) :
  correctNameIDMapping idm m = Ok m' ->
  m' `sublist_of` map (fun e => (fst e, idm !!! N.to_nat (snd e))) m.
Proof.
  unfold correctNameIDMapping.
  destruct (foldM record_name _ m) as [id_names|]; [|done]. rewrite bind_Ok.
  destruct (foldM (correct_entry idm id_names) [] m) as [visited|] eqn:Hv;
    [|done].
  rewrite bind_Ok. intros [= <-].
  destruct (correct_entries_sublist _ _ _ _ _ Hv) as (kept & -> & Hsub).
  by rewrite app_nil_r, rev_involutive.
Qed.

Lemma X19_reconciled_names_witness :
  [("a"%string, 0)]
    `sublist_of` map (fun e => (fst e, [0; 1; 0] !!! N.to_nat (snd e)))
                   [("a"%string, 0); ("b"%string, 2)].
Proof.
  apply (X19_reconciled_names [0; 1; 0] [("a"%string, 0); ("b"%string, 2)]
           [("a"%string, 0)]).
  by vm_compute.
Defined.

(** *** The reverse index *)

Lemma record_name_Ok (t t1 : list string) (entry : string * N) :
  record_name t entry = Ok t1 ->
  t1 = <[N.to_nat (snd entry) := fst entry]> t /\
  (N.to_nat (snd entry) < length t)%nat.
Proof.
  unfold record_name, vset, vsize.
  destruct (N.ltb_spec (snd entry) (N.of_nat (length t))); [|done].
  intros [= <-]. split; [done|lia].
Qed.

Lemma record_names_absent (m : name_id_map_t) (id : nat) : forall t t',
  foldM record_name t m = Ok t' ->
  Forall (fun entry => N.to_nat (snd entry) <> id) m ->
  t' !! id = t !! id.
Proof.
  induction m as [|e m IH]; intros t t'; simpl.
  - by intros [= <-].
  - destruct (record_name t e) as [t1|] eqn:H1; [|done].
    apply record_name_Ok in H1 as [-> Hlt].
    intros Hrest [Hne Hm]%Forall_cons.
    rewrite (IH _ _ Hrest Hm). by apply list_lookup_insert_ne.
Qed.

Lemma record_names_unique (m : name_id_map_t) (name : string) (id : N) :
  forall t t',
  foldM record_name t m = Ok t' ->
  NoDup (map snd m) ->
  (name, id) ∈ m ->
  t' !! N.to_nat id = Some name.
Proof.
  induction m as [|e m IH]; intros t t'; simpl.
  - intros _ _ Hin. by apply elem_of_nil in Hin.
  - destruct (record_name t e) as [t1|] eqn:H1; [|done].
    apply record_name_Ok in H1 as [-> Hlt].
    intros Hrest [Hnot Hnd]%NoDup_cons [Heq|Hin]%elem_of_cons.
    + subst e. simpl in *. rewrite (record_names_absent _ _ _ _ Hrest).
      * by apply list_lookup_insert_eq.
      * apply Forall_forall. intros e He Heq. apply Hnot.
        apply N2Nat.inj in Heq. rewrite <- Heq.
        apply list_elem_of_fmap. by exists e.
    + by apply (IH _ _ Hrest).
Qed.

Lemma map_find_elem (name : string) (id : N) (m : name_id_map_t) :
  map_find name m = Some id -> (name, id) ∈ m.
Proof.
  induction m as [|[k v] m IH]; simpl; [done|].
  destruct (String.eqb_spec name k) as [->|Hne].
  - intros [= ->]. by left.
  - intros Hf. right. by apply IH.
Qed.

(** X20: in a registry fresh from construction in which no two names
    share an id, the name found under an id is the name that points at
    it. *)
Theorem X20_name_of_id_after_construction (srt : Sorter) (sqrt : Q -> Q)
    (points : list Point) (names : name_id_map_t) (rel : Q)
    (pv : PointVec) (name : string) (id : N) :
  PointVec_new srt sqrt points names rel = Ok pv ->
  NoDup (map snd (name_id_map pv)) ->
  map_find name (name_id_map pv) = Some id ->
  getItemNameByID pv id = Ok name.
Proof.
  intros Hnew Hnd Hfind.
  destruct (PointVec_new_inv _ _ _ _ _ _ Hnew)
    as (box & names' & id_names & _ & _ & _ & Hrec & _ & _ & Hnm & Hidn & _).
  unfold getItemNameByID. apply vget_lookup. rewrite Hidn.
  apply (record_names_unique names' name id _ _ Hrec).
  - by rewrite <- Hnm.
  - rewrite <- Hnm. by apply map_find_elem.
Qed.

Lemma X20_name_of_id_after_construction_witness :
  getItemNameByID named_registry 0 = Ok "A"%string.
Proof.
  apply (X20_name_of_id_after_construction insertion_sorter sqrt_6
           [P 5 5 5] [("A"%string, 0)] (1 # 100) named_registry
           "A"%string 0); [by vm_compute| |by vm_compute].
  repeat constructor. intros Hin. by apply elem_of_nil in Hin.
Defined.

(** X21: in a registry fresh from construction, the name found under
    the id of a canonical point that no name points at is the empty
    name. *)
Theorem X21_unnamed_id_after_construction (srt : Sorter) (sqrt : Q -> Q)
    (points : list Point) (names : name_id_map_t) (rel : Q)
    (pv : PointVec) (id : N) :
  PointVec_new srt sqrt points names rel = Ok pv ->
  id < vsize (data_vec pv) ->
  Forall (fun entry => snd entry <> id) (name_id_map pv) ->
  getItemNameByID pv id = Ok EmptyString.
Proof.
  intros Hnew Hid Hfree.
  destruct (PointVec_new_inv _ _ _ _ _ _ Hnew)
    as (box & names' & id_names & _ & _ & _ & Hrec & _ & _ & Hnm & Hidn & _).
  unfold getItemNameByID. apply vget_lookup. rewrite Hidn.
  rewrite (record_names_absent _ _ _ _ Hrec).
  - apply lookup_replicate_2. unfold vsize in Hid. lia.
  - rewrite <- Hnm. eapply Forall_impl; [exact Hfree|].
    intros e He Heq. apply He. by apply N2Nat.inj.
Qed.

Lemma X21_unnamed_id_after_construction_witness :
  getItemNameByID gap_registry 1 = Ok EmptyString.
Proof.
  apply (X21_unnamed_id_after_construction insertion_sorter sqrt_6
           gap_points [] (2 # 1000) gap_registry 1);
    [by vm_compute|by vm_compute|constructor].
Defined.

(** X22: construction warns when points were removed and at no other
    time, and the warning gives their number; the subtraction of line
    46 does not wrap around. *)
Theorem X22_double_points_warning (srt : Sorter) (sqrt : Q -> Q)
    (points : list Point) (names : name_id_map_t) (rel : Q)
    (pv : PointVec) :
  PointVec_new srt sqrt points names rel = Ok pv ->
  warnings pv =
    if decide (length (data_vec pv) = length points) then []
    else [WarnDoublePoints
            (N.of_nat (length points - length (data_vec pv)))].
Proof.
  intros Hnew.
  destruct (PointVec_new_inv _ _ _ _ _ _ Hnew)
    as (_ & _ & _ & _ & _ & _ & _ & _ & _ & _ & _ & ->).
  destruct (PointVec_new_id_map _ _ _ _ _ _ Hnew) as (_ & _ & Hle & _).
  unfold vsize.
  destruct (N.ltb_spec (N.of_nat (length (data_vec pv)))
              (N.of_nat (length points))) as [Hlt|Hge].
  - rewrite decide_False by lia. rewrite size_sub_le by lia.
    do 2 f_equal. lia.
  - rewrite decide_True by lia. done.
Qed.

Lemma X22_double_points_warning_witness :
  warnings far_duplicate_registry =
    if decide (length (data_vec far_duplicate_registry)
               = length far_duplicate_points) then []
    else [WarnDoublePoints
            (N.of_nat (length far_duplicate_points
                       - length (data_vec far_duplicate_registry)))].
Proof.
  apply (X22_double_points_warning insertion_sorter sqrt_6
           far_duplicate_points [] (1 # 1000) far_duplicate_registry).
  by vm_compute.
Defined.

(** X23: a new point inserted under a new name, into a registry whose
    reverse index has one entry for each canonical point, can be found
    again: the name leads to the id, the id to the point and back to
    the name. *)
Theorem X23_named_insert_round_trip (pv : PointVec) (pnt : Point)
    (name : string) :
  (forall j q, data_vec pv !! j = Some q ->
               within (rel_eps pv) q pnt = false) ->
  map_find name (name_id_map pv) = None ->
  length (id_to_name_map pv) = length (data_vec pv) ->
  exists id,
    map_find name (name_id_map (push_back_name pv pnt (Some name)))
      = Some id /\
    data_vec (push_back_name pv pnt (Some name)) !! N.to_nat id = Some pnt /\
    getItemNameByID (push_back_name pv pnt (Some name)) id = Ok name.
Proof.
  intros Hnew Hfree Hlen. apply find_if_within_none_intro in Hnew.
  unfold push_back_name. rewrite Hfree. unfold uniqueInsert. rewrite Hnew.
  simpl. exists (size_sub (vsize (data_vec pv ++ [pnt])) 1).
  assert (size_sub (vsize (data_vec pv ++ [pnt])) 1 = vsize (data_vec pv))
    as ->.
  { unfold vsize. rewrite length_app. simpl. rewrite size_sub_le by lia. lia. }
  split; [apply map_find_assign_eq|]. rewrite vsize_length. split.
  - by apply list_lookup_middle.
  - unfold getItemNameByID. simpl. apply vget_lookup.
    rewrite vsize_length. by apply list_lookup_middle.
Qed.

Lemma X23_named_insert_round_trip_witness :
  exists id,
    map_find "B"
      (name_id_map (push_back_name named_registry (P 6 5 5) (Some "B"%string)))
      = Some id /\
    data_vec (push_back_name named_registry (P 6 5 5) (Some "B"%string))
      !! N.to_nat id = Some (P 6 5 5) /\
    getItemNameByID (push_back_name named_registry (P 6 5 5) (Some "B"%string))
      id = Ok "B"%string.
Proof.
  apply (X23_named_insert_round_trip named_registry (P 6 5 5) "B"%string);
    [|by vm_compute|by vm_compute].
  intros [|j] q Hq; simpl in Hq; [|done]. simplify_eq. by vm_compute.
Defined.

(** *** Names that are kept *)

Lemma correct_entries_kept (idm : list N) (id_names : list string)
    (m : name_id_map_t) : forall visited visited',
  foldM (correct_entry idm id_names) visited m = Ok visited' ->
  (forall x, x ∈ visited -> x ∈ visited') /\
  forall name id, (name, id) ∈ m ->
    idm !!! N.to_nat id = id \/
      (forall nm, id_names !! N.to_nat (idm !!! N.to_nat id) = Some nm ->
                  nm = EmptyString) ->
    (name, idm !!! N.to_nat id) ∈ visited'.
Proof.
  induction m as [|[name0 id0] m IH]; intros visited visited'; simpl.
  - intros [= <-]. split; [done|]. intros name id Hin.
    by apply elem_of_nil in Hin.
  - destruct (correct_entry idm id_names visited (name0, id0))
      as [visited1|] eqn:H1; [|done].
    intros Hrest. destruct (IH _ _ Hrest) as [Hmono Hkept].
    assert (forall x, x ∈ visited -> x ∈ visited1) as Hmono1.
    { intros x Hx. revert H1. unfold correct_entry. simpl.
      destruct (vget idm id0) as [v|]; [|done]. rewrite bind_Ok.
      destruct (v =? id0); [intros [= <-]; by right|].
      destruct (vget idm v) as [w|]; [|done]. rewrite bind_Ok.
      destruct (w =? v).
      - destruct (vget id_names v) as [nm|]; [|done]. rewrite bind_Ok.
        destruct (negb _); intros [= <-]; [done|by right].
      - intros [= <-]. by right. }
    split; [by auto|].
    intros name id [[= -> ->]|Hin]%elem_of_cons Hcase; [|by apply Hkept].
    apply Hmono. revert H1. unfold correct_entry. simpl.
    destruct (vget idm id0) as [v|] eqn:Hv; [|done]. rewrite bind_Ok.
    apply vget_Ok in Hv as [-> _].
    destruct (N.eqb_spec (idm !!! N.to_nat id0) id0) as [Heq|Hne].
    { intros [= <-]. rewrite Heq. by left. }
    destruct Hcase as [?|Hempty]; [done|].
    destruct (vget idm (idm !!! N.to_nat id0)) as [w|]; [|done].
    rewrite bind_Ok. destruct (w =? idm !!! N.to_nat id0).
    + destruct (vget id_names (idm !!! N.to_nat id0)) as [nm|] eqn:Hnm;
        [|done].
      rewrite bind_Ok. unfold vget in Hnm.
      destruct (id_names !! N.to_nat (idm !!! N.to_nat id0)) as [nm'|] eqn:Hl;
        [|done].
      injection Hnm as ->. rewrite (Hempty nm eq_refl). simpl.
      intros [= <-]. by left.
    + intros [= <-]. by left.
Qed.

(** X24: name reconciliation drops a name only when its position is
    not its own id-map entry and some name of the input points at that
    entry; every other name is kept and points at the id-map entry of
    its position. *)
Theorem X24_reconciliation_keeps_name (idm : list N) (m m' : name_id_map_t)
    (name : string) (id : N) :
  correctNameIDMapping idm m = Ok m' ->
  (name, id) ∈ m ->
  idm !!! N.to_nat id = id \/
    Forall (fun entry => snd entry <> idm !!! N.to_nat id) m ->
  (name, idm !!! N.to_nat id) ∈ m'.
Proof.
  unfold correctNameIDMapping.
  destruct (foldM record_name _ m) as [id_names|] eqn:Hrec; [|done].
  rewrite bind_Ok.
  destruct (foldM (correct_entry idm id_names) [] m) as [visited|] eqn:Hv;
    [|done].
  rewrite bind_Ok. intros [= <-] Hin Hcase.
  destruct (correct_entries_kept _ _ _ _ _ Hv) as [_ Hkept].
  apply list_elem_of_In, in_rev, list_elem_of_In. rewrite rev_involutive.
  apply Hkept; [done|].
  destruct Hcase as [Hown|Hfree]; [by left|]. right. intros nm Hnm.
  rewrite (record_names_absent _ _ _ _ Hrec) in Hnm.
  - apply lookup_replicate in Hnm as [-> _]. done.
  - eapply Forall_impl; [exact Hfree|]. intros e He Heq. apply He.
    by apply N2Nat.inj.
Qed.

Lemma X24_reconciliation_keeps_name_witness :
  ("b"%string, [0; 1; 0] !!! N.to_nat 2)
    ∈ [("b"%string, 0); ("c"%string, 1)].
Proof.
  apply (X24_reconciliation_keeps_name [0; 1; 0]
           [("b"%string, 2); ("c"%string, 1)]
           [("b"%string, 0); ("c"%string, 1)] "b"%string 2);
    [by vm_compute|by left|].
  right. repeat constructor; by vm_compute.
Defined.

(** ** The bounding box *)

Lemma AABB_update_new (b : AABB) (p : Point) :
  box_contains (AABB_update b p) p.
Proof.
  unfold box_contains, AABB_update. simpl.
  repeat split; try apply Q.le_min_r; apply Q.le_max_r.
Qed.

Lemma AABB_update_old (b : AABB) (p q : Point) :
  box_contains b q -> box_contains (AABB_update b p) q.
Proof.
  unfold box_contains, AABB_update. simpl.
  intros (Hx1 & Hx2 & Hy1 & Hy2 & Hz1 & Hz2).
  repeat split;
    try (eapply Qle_trans; [apply Q.le_min_l|done]);
    (eapply Qle_trans; [|apply Q.le_max_l]); done.
Qed.

Lemma AABB_fold_old (l : list Point) : forall (b : AABB) (q : Point),
  box_contains b q -> box_contains (fold_left AABB_update l b) q.
Proof.
  induction l as [|p l IH]; intros b q Hq; simpl; [done|].
  by apply IH, AABB_update_old.
Qed.

Lemma AABB_fold_new (l : list Point) : forall (b : AABB) (q : Point),
  q ∈ l -> box_contains (fold_left AABB_update l b) q.
Proof.
  induction l as [|p l IH]; intros b q Hin; simpl.
  - by apply elem_of_nil in Hin.
  - apply elem_of_cons in Hin as [->|Hin]; [|by apply IH].
    apply AABB_fold_old, AABB_update_new.
Qed.

Lemma AABB_range_contains (pts : list Point) (box : AABB) (q : Point) :
  AABB_range pts = Ok box -> q ∈ pts -> box_contains box q.
Proof.
  destruct pts as [|p rest]; simpl; [done|].
  intros [= <-] [->|Hin]%elem_of_cons.
  - apply AABB_fold_old. unfold box_contains. simpl.
    repeat split; apply Qle_refl.
  - by apply AABB_fold_new.
Qed.

(** What one insert does to the canonical points and the box. *)
Lemma apply_op_aabb pv op pv' :
  apply_op pv op = Ok pv' ->
  (data_vec pv' = data_vec pv /\ aabb pv' = aabb pv) \/
  exists pnt, data_vec pv' = data_vec pv ++ [pnt] /\
              aabb pv' = AABB_update (aabb pv) pnt.
Proof.
  assert (forall pnt,
            (data_vec (snd (uniqueInsert pv pnt)) = data_vec pv /\
             aabb (snd (uniqueInsert pv pnt)) = aabb pv) \/
            exists pnt',
              data_vec (snd (uniqueInsert pv pnt)) = data_vec pv ++ [pnt'] /\
              aabb (snd (uniqueInsert pv pnt)) = AABB_update (aabb pv) pnt')
    as Hu.
  { intros pnt. unfold uniqueInsert.
    destruct (find_if_within (rel_eps pv) pnt (data_vec pv)); simpl;
      [by left|]. right. by exists pnt. }
  destruct op as [pnt|pnt [name|]]; simpl.
  - rewrite push_back_eq, bind_Ok. intros [= <-]. simpl. apply Hu.
  - intros [= <-]. unfold push_back_name.
    destruct (map_find name (name_id_map pv)); simpl; [by left|].
    specialize (Hu pnt). by destruct (uniqueInsert pv pnt).
  - intros [= <-]. unfold push_back_name.
    specialize (Hu pnt). by destruct (uniqueInsert pv pnt).
Qed.

(** X25: the bounding box of the registry holds every canonical point,
    right after construction and after any sequence of inserts. *)
Theorem X25_box_holds_canonical_points (srt : Sorter) (sqrt : Q -> Q)
    (points : list Point) (names : name_id_map_t) (rel : Q)
    (pv0 pv : PointVec) (ops : list insert_op) (p : Point) :
  PointVec_new srt sqrt points names rel = Ok pv0 ->
  apply_ops pv0 ops = Ok pv ->
  p ∈ data_vec pv ->
  box_contains (aabb pv) p.
Proof.
  intros Hnew Hops. revert p.
  apply (apply_ops_preserves
           (fun pv => forall p, p ∈ data_vec pv -> box_contains (aabb pv) p)
           ops pv0 pv); [| |done].
  - intros pv1 op pv2 Hinv Hop p Hp.
    destruct (apply_op_aabb _ _ _ Hop) as [[Hd Hb]|(pnt & Hd & Hb)];
      rewrite Hb; rewrite Hd in Hp.
    + by apply Hinv.
    + apply elem_of_app in Hp as [Hp|Hp].
      * by apply AABB_update_old, Hinv.
      * apply list_elem_of_singleton in Hp as ->. apply AABB_update_new.
  - intros p Hp.
    destruct (PointVec_new_inv _ _ _ _ _ _ Hnew)
      as (box & names' & id_names & Hbox & Hrun & _ & _ & -> & _).
    apply (AABB_range_contains points); [done|].
    destruct (makePntsUnique_run srt points (tolerance sqrt box rel)
                (makePntsUnique_Ok_nonempty _ _ _ _ Hrun))
      as (t & canon & idm & Hrun' & Hf).
    rewrite Hrun in Hrun'. injection Hrun' as <- <-.
    apply list_elem_of_lookup in Hp as [i Hi].
    destruct (canonical_is_head _ _ _ _ _ _ i p Hf Hi)
      as (s & j & _ & _ & _ & HA).
    apply list_elem_of_lookup_2 in HA.
    rewrite <- (Quicksort_keys srt point_le _ _ _ _
                  ltac:(by rewrite length_iota)
                  (dr_sorted _ _ _ _ _ _ Hf)).
    done.
Qed.

Lemma X25_box_holds_canonical_points_witness :
  box_contains
    (aabb (registry_of (apply_ops named_registry [PushBack (P 9 0 0)])))
    (P 9 0 0).
Proof.
  apply (X25_box_holds_canonical_points insertion_sorter sqrt_6
           [P 5 5 5] [("A"%string, 0)] (1 # 100) named_registry
           (registry_of (apply_ops named_registry [PushBack (P 9 0 0)]))
           [PushBack (P 9 0 0)] (P 9 0 0));
    [by vm_compute|by vm_compute|].
  vm_compute. right. by left.
Defined.
